(** * Multimodal Live API web console: the Memento and GeminiMatrix components

    A shallow embedding of the two consumer components of the repository
    (src/components/memento/Memento.tsx and the GeminiMatrix component quoted
    in README.md) and of the part of the session core their call sites imply,
    followed by the properties stated for them.

    Layout: Part I holds the definitions (JavaScript values and arrays, the
    matrix helpers, timers, the two components, the React effect schedule, and
    the parts of the session core that are modelled from the specification);
    Part II holds the lemmas and theorems. *)

From Stdlib Require Import ZArith Lia.
From stdpp Require Import base option list strings pretty gmap.

Set Warnings "-register-all".

(* ===================================================================== *)
(** * Part I: definitions                                                 *)
(* ===================================================================== *)

(** ** JavaScript values and arrays

    Indices are integers: the row and column numbers that reach the helpers
    are declared INTEGER in the parameter schemas, or are array positions. *)

Module Js.

(** A value of a TypeScript type parameter [Type] at run time: a proper
    value, or one of the two nullish values. *)
Inductive value (A : Type) : Type :=
| Undefined
| Null
| Val (a : A).
Global Arguments Undefined {A}.
Global Arguments Null {A}.
Global Arguments Val {A} a.

(** [x != undefined] (loose inequality: false for undefined and for null). *)
Definition neq_undefined {A} (x : value A) : bool :=
  match x with
  | Val _ => true
  | Undefined | Null => false
  end.

(** [arr[i]] on an array of cells, for an integer [i]: reading outside the
    array gives undefined. *)
Definition index {A} (arr : list (value A)) (i : Z) : value A :=
  if (i <? 0)%Z then Undefined
  else match arr !! Z.to_nat i with
       | Some x => x
       | None => Undefined
       end.

(** [arr[i]] on an array of arrays: [None] stands for undefined. *)
Definition index_row {R} (arr : list R) (i : Z) : option R :=
  if (i <? 0)%Z then None else arr !! Z.to_nat i.

(** [arr[i] = x] for an integer [i]: inside the array the element is
    replaced; past the end JavaScript extends the array, the skipped
    positions reading as undefined; a negative [i] sets a property that is
    not an element, which leaves the elements as they are. *)
Definition assign {A} (arr : list (value A)) (i : Z) (x : value A)
  : list (value A) :=
  if (i <? 0)%Z then arr
  else
    let n := Z.to_nat i in
    if (n <? length arr)%nat then <[n := x]> arr
    else arr ++ replicate (n - length arr) Undefined ++ [x].

(** The result of a statement that may raise a TypeError: the store is kept
    in both cases, since writes made before the exception stay. *)
Inductive outcome (S : Type) : Type :=
| Normal (s : S)
| Thrown (s : S).
Global Arguments Normal {S} s.
Global Arguments Thrown {S} s.

Definition store {S} (o : outcome S) : S :=
  match o with Normal s | Thrown s => s end.

(** [for (var i = a; i < b; i++) body], given the values [i] takes. *)
Fixpoint for_each {S} (body : Z -> S -> outcome S) (idx : list Z) (s : S)
  : outcome S :=
  match idx with
  | [] => Normal s
  | i :: rest =>
      match body i s with
      | Normal s' => for_each body rest s'
      | Thrown s' => Thrown s'
      end
  end.

(** The values of [i] in [for (var i = a; i < b; i++)]. *)
Definition loop_range (a b : Z) : list Z := seqZ a (b - a).

End Js.

(** ** The matrix helpers of GeminiMatrix, on array contents

    A [Matrix<Type>] is an array of row arrays.  This module gives the
    functions on the contents of the arrays; [MatrixHeap] below gives
    [setMatrixBlock] on a store of row arrays, where cloning and writing are
    explicit. *)

Module Matrix.
Import Js.

Abbreviation row A := (list (value A)).
Abbreviation matrix A := (list (list (value A))).

(** [range(start, end)]: [Array.from({length: end - start}, (_, i) => i + start)]. *)
Definition range (start end_ : Z) : list Z := seqZ start (end_ - start).

(** [newMatrix(size, fill)]. *)
Definition newMatrix {A} (size : Z) (fill : value A) : matrix A :=
  (fun _ => replicate (Z.to_nat size) fill) <$> range 0 size.

(** [resolve_index(index, length)]. *)
Definition resolve_index (index length : Z) : Z :=
  if (index <? 0)%Z then (length + index + 1)%Z else index.

(** [matrix.length]. *)
Definition len {R} (m : list R) : Z := Z.of_nat (length m).

(** [cloned[rowIndex][colIndex] = x]: a TypeError when [cloned[rowIndex]]
    is undefined. *)
Definition assign_cell {A} (cloned : matrix A) (rowIndex colIndex : Z)
    (x : value A) : outcome (matrix A) :=
  match index_row cloned rowIndex with
  | None => Thrown cloned
  | Some r => Normal (<[Z.to_nat rowIndex := assign r colIndex x]> cloned)
  end.

(** [updateMatrixBlock]: no handler, so a TypeError leaves the function
    ([None]). *)
Definition updateMatrixBlock {A} (m : matrix A)
    (startRow startCol endRow endCol : Z) (x : value A) : option (matrix A) :=
  let newStartRow := resolve_index startRow (len m) in
  let newStartCol := resolve_index startCol (len m) in
  let newEndRow := resolve_index endRow (len m) in
  let newEndCol := resolve_index endCol (len m) in
  let cloned := m in
  match
    for_each (fun rowIndex =>
      for_each (fun colIndex cloned => assign_cell cloned rowIndex colIndex x)
               (loop_range newStartCol newEndCol))
      (loop_range newStartRow newEndRow) cloned
  with
  | Normal cloned => Some cloned
  | Thrown _ => None
  end.

(** The body of the inner loop of [setMatrixBlock]. *)
Definition set_cell {A} (vrow : row A) (rowIndex newStartCol : Z)
    (colIndex : Z) (cloned : matrix A) : outcome (matrix A) :=
  let x := index vrow (colIndex - newStartCol) in
  if neq_undefined x then assign_cell cloned rowIndex colIndex x
  else Normal cloned.

(** The body of the outer loop of [setMatrixBlock]. *)
Definition set_row {A} (v : matrix A) (newStartRow newStartCol : Z)
    (rowIndex : Z) (cloned : matrix A) : outcome (matrix A) :=
  match index_row v (rowIndex - newStartRow) with
  | Some vrow =>
      let newEndCol := (newStartCol + len vrow)%Z in
      for_each (set_cell vrow rowIndex newStartCol)
               (loop_range newStartCol newEndCol) cloned
  | None => Normal cloned
  end.

(** [setMatrixBlock]: the handler returns the clone as the exception left
    it, so both outcomes return the store. *)
Definition setMatrixBlock {A} (m : matrix A) (startRow startCol : Z)
    (v : matrix A) : matrix A :=
  let newStartRow := resolve_index startRow (len m) in
  let newStartCol := resolve_index startCol (len m) in
  let newEndRow := (newStartRow + len v)%Z in
  let cloned := m in
  store (for_each (set_row v newStartRow newStartCol)
                  (loop_range newStartRow newEndRow) cloned).

(** The inner loop of [selectMatrixBlock]: [newRow.push(matrix[rowIndex][colIndex])];
    [None] is the TypeError of reading a column of an undefined row. *)
Definition select_row {A} (m : matrix A) (rowIndex : Z) (cols : list Z)
  : option (row A) :=
  mapM (fun colIndex =>
          match index_row m rowIndex with
          | Some r => Some (index r colIndex)
          | None => None
          end) cols.

(** [selectMatrixBlock]. *)
Definition selectMatrixBlock {A} (m : matrix A)
    (startRow startCol endRow endCol : Z) : option (matrix A) :=
  let newStartRow := resolve_index startRow (len m) in
  let newStartCol := resolve_index startCol (len m) in
  let newEndRow := resolve_index endRow (len m) in
  let newEndCol := resolve_index endCol (len m) in
  mapM (fun rowIndex =>
          select_row m rowIndex (loop_range newStartCol newEndCol))
       (loop_range newStartRow newEndRow).

(** A matrix with [n] rows of [n] cells. *)
Definition square {A} (n : nat) (m : matrix A) : Prop :=
  length m = n /\ Forall (fun r => length r = n) m.

(** A value matrix with [p] rows of [q] cells. *)
Definition rect {A} (p q : nat) (v : matrix A) : Prop :=
  length v = p /\ Forall (fun r => length r = q) v.

(** [m[i][j]] read as JavaScript does when the row exists. *)
Definition cell {A} (m : matrix A) (i j : Z) : value A :=
  match index_row m i with
  | Some r => index r j
  | None => Undefined
  end.

End Matrix.

(** ** [setMatrixBlock] on a store of arrays

    Row arrays are mutable objects: [cloned[rowIndex][colIndex] = x] writes
    into the array that [cloned[rowIndex]] refers to.  The store lists the row
    arrays that exist, by address; [slice] allocates at the end.  An outer
    array is only ever read or built anew by the helpers, so a matrix is kept
    as the list of the addresses of its rows. *)

Module MatrixHeap.
Import Js.

Abbreviation loc := nat.
Abbreviation heap A := (list (list (value A))).
Abbreviation matrix := (list nat).

(** The contents of a matrix in a store: [None] when a reference dangles,
    which JavaScript rules out. *)
Definition read {A} (h : heap A) (m : matrix) : option (Matrix.matrix A) :=
  mapM (fun l => h !! l) m.

(** [row.slice()]: a new array with the same elements. *)
Definition slice {A} (h : heap A) (l : loc) : heap A * loc :=
  (h ++ [default [] (h !! l)], length h).

(** [matrix.map(row => row.slice())]. *)
Fixpoint clone {A} (h : heap A) (m : matrix) : heap A * matrix :=
  match m with
  | [] => (h, [])
  | l :: rest =>
      let '(h1, l') := slice h l in
      let '(h2, rest') := clone h1 rest in
      (h2, l' :: rest')
  end.

(** [cloned[rowIndex][colIndex] = x]. *)
Definition assign_cell {A} (cloned : matrix) (rowIndex colIndex : Z)
    (x : value A) (h : heap A) : outcome (heap A) :=
  match index_row cloned rowIndex with
  | None => Thrown h
  | Some l =>
      match h !! l with
      | Some r => Normal (<[l := assign r colIndex x]> h)
      | None => Thrown h
      end
  end.

(** The body of the inner loop; [vl] is the row [value[rowIndex - newStartRow]]. *)
Definition set_cell {A} (cloned : matrix) (vl : loc)
    (rowIndex newStartCol : Z) (colIndex : Z) (h : heap A)
  : outcome (heap A) :=
  let x := index (default [] (h !! vl)) (colIndex - newStartCol) in
  if neq_undefined x then assign_cell cloned rowIndex colIndex x h
  else Normal h.

(** The body of the outer loop. *)
Definition set_row {A} (cloned v : matrix) (newStartRow newStartCol : Z)
    (rowIndex : Z) (h : heap A) : outcome (heap A) :=
  match index_row v (rowIndex - newStartRow) with
  | Some vl =>
      let newEndCol := (newStartCol + Matrix.len (default [] (h !! vl)))%Z in
      for_each (set_cell cloned vl rowIndex newStartCol)
               (loop_range newStartCol newEndCol) h
  | None => Normal h
  end.

(** [setMatrixBlock(matrix, startRow, startCol, value)]: the store after
    the call and the returned matrix. *)
Definition setMatrixBlock {A} (h : heap A) (m : matrix)
    (startRow startCol : Z) (v : matrix) : heap A * matrix :=
  let newStartRow := Matrix.resolve_index startRow (Matrix.len m) in
  let newStartCol := Matrix.resolve_index startCol (Matrix.len m) in
  let newEndRow := (newStartRow + Matrix.len v)%Z in
  let '(h1, cloned) := clone h m in
  (store (for_each (set_row cloned v newStartRow newStartCol)
                   (loop_range newStartRow newEndRow) h1),
   cloned).

End MatrixHeap.

(** ** Run-time objects: the [any] of a [Dictionary] *)

Module Any.

(** A JavaScript value as far as the components build or receive one:
    [Dictionary = { [key: string]: any }] is an [AObj]. *)
Inductive any : Type :=
| AUndefined
| ANull
| ABool (b : bool)
| ANum (n : Z)
| AStr (s : string)
| AArr (items : list any)
| AObj (fields : list (string * any)).

(** A cell of a matrix as a value, and back. *)
Definition of_cell {A} (f : A -> any) (x : Js.value A) : any :=
  match x with
  | Js.Undefined => AUndefined
  | Js.Null => ANull
  | Js.Val a => f a
  end.

Definition to_cell (x : any) : Js.value any :=
  match x with
  | AUndefined => Js.Undefined
  | ANull => Js.Null
  | _ => Js.Val x
  end.

(** A matrix as a value: an array of arrays. *)
Definition of_matrix {A} (f : A -> any) (m : list (list (Js.value A))) : any :=
  AArr ((fun r => AArr (of_cell f <$> r)) <$> m).

End Any.

(** ** The client as the components see it

    [MultimodalLiveClient] and the types of multimodal-live-types are
    imported by the components; the components use the members below. *)

Module LiveApi.
Import Any.

(** [{ id, name, args }], an element of [toolCall.functionCalls]. *)
Record FunctionCall (Args : Type) : Type := mkFunctionCall {
  id : string;
  name : string;
  args : Args
}.
Global Arguments mkFunctionCall {Args} _ _ _.
Global Arguments id {Args} _.
Global Arguments name {Args} _.
Global Arguments args {Args} _.

Record ToolCall (Args : Type) : Type := mkToolCall {
  functionCalls : list (FunctionCall Args)
}.
Global Arguments mkToolCall {Args} _.
Global Arguments functionCalls {Args} _.

(** [{ response, id }], an element of [functionResponses]. *)
Record FunctionResponse : Type := mkFunctionResponse {
  response : any;
  response_id : string
}.

(** [{ text }]. *)
Record Part : Type := mkPart { text : string }.

(** The members of the client that the components call.  [Handler] is
    what a component registers with [on]; the second argument of [send]
    is optional in the client and [None] when the caller leaves it out. *)
Class LiveClient (Handler C : Type) : Type := {
  client_on : string -> Handler -> C -> C;
  client_off : string -> Handler -> C -> C;
  client_send : list Part -> option bool -> C -> C;
  client_sendToolResponse : list FunctionResponse -> C -> C
}.

(** A client that keeps the calls made on it, oldest first. *)
Inductive client_call (Handler : Type) : Type :=
| On (channel : string) (h : Handler)
| Off (channel : string) (h : Handler)
| Send (parts : list Part) (turnComplete : option bool)
| SendToolResponse (functionResponses : list FunctionResponse).
Global Arguments On {Handler} _ _.
Global Arguments Off {Handler} _ _.
Global Arguments Send {Handler} _ _.
Global Arguments SendToolResponse {Handler} _.

Global Instance recorder Handler : LiveClient Handler (list (client_call Handler)) := {
  client_on ch h log := log ++ [On ch h];
  client_off ch h log := log ++ [Off ch h];
  client_send ps tc log := log ++ [Send ps tc];
  client_sendToolResponse frs log := log ++ [SendToolResponse frs]
}.

(** Making the calls of a log on a client. *)
Definition apply_call {Handler C} `{!LiveClient Handler C}
    (c : C) (call : client_call Handler) : C :=
  match call with
  | On ch h => client_on ch h c
  | Off ch h => client_off ch h c
  | Send ps tc => client_send ps tc c
  | SendToolResponse frs => client_sendToolResponse frs c
  end.

Definition replay {Handler C} `{!LiveClient Handler C}
    (log : list (client_call Handler)) (c : C) : C :=
  foldl apply_call c log.

(** A call that subscribes or unsubscribes does so on the channel [ch]. *)
Definition on_channel {Handler} (ch : string) (call : client_call Handler)
  : Prop :=
  match call with
  | On ch' _ | Off ch' _ => ch' = ch
  | Send _ _ | SendToolResponse _ => True
  end.

(** The entries of the tool responses in a log of calls. *)
Definition tool_responses {Handler} (log : list (client_call Handler))
  : list FunctionResponse :=
  log ≫= (fun c => match c with SendToolResponse frs => frs | _ => [] end).

(** The tool-response calls in a log. *)
Definition tool_response_frames {Handler} (log : list (client_call Handler))
  : list (list FunctionResponse) :=
  omap (fun c => match c with SendToolResponse frs => Some frs | _ => None end) log.

End LiveApi.

(** ** Timers: [setTimeout] and the passing of time

    Time is in milliseconds.  The queue is kept in firing order: by due
    time, and among equal due times by registration. *)

Module Timers.

Record timer (Cb : Type) : Type := mkTimer { due : N; callback : Cb }.
Global Arguments mkTimer {Cb} _ _.
Global Arguments due {Cb} _.
Global Arguments callback {Cb} _.

Record loop (Cb : Type) : Type := mkLoop { now : N; queue : list (timer Cb) }.
Global Arguments mkLoop {Cb} _ _.
Global Arguments now {Cb} _.
Global Arguments queue {Cb} _.

(** The place of a new timer: behind every timer due at or before it. *)
Fixpoint enqueue {Cb} (t : timer Cb) (q : list (timer Cb)) : list (timer Cb) :=
  match q with
  | [] => [t]
  | t' :: rest =>
      if (due t' <=? due t)%N then t' :: enqueue t rest else t :: q
  end.

(** [setTimeout(cb, delay)]. *)
Definition setTimeout {Cb} (cb : Cb) (delay : N) (l : loop Cb) : loop Cb :=
  mkLoop (now l) (enqueue (mkTimer (now l + delay)%N cb) (queue l)).

(** The timers of a queue that are due at [t], in firing order, and the
    rest. *)
Fixpoint split_due {Cb} (t : N) (q : list (timer Cb))
  : list Cb * list (timer Cb) :=
  match q with
  | [] => ([], [])
  | t' :: rest =>
      if (due t' <=? t)%N
      then let '(fired, later) := split_due t rest in (callback t' :: fired, later)
      else ([], q)
  end.

(** Time passes for [dt] milliseconds: the callbacks that fire, in order,
    and the loop afterwards. *)
Definition elapse {Cb} (dt : N) (l : loop Cb) : list Cb * loop Cb :=
  let t := (now l + dt)%N in
  let '(fired, later) := split_due t (queue l) in
  (fired, mkLoop t later).

(** The latest due time in a queue (or [t] when none is later). *)
Definition last_due {Cb} (t : N) (q : list (timer Cb)) : N :=
  foldr (fun t' acc => N.max (due t') acc) t q.

(** Time passes until no timer is left. *)
Definition drain {Cb} (l : loop Cb) : list Cb * loop Cb :=
  elapse (last_due (now l) (queue l) - now l)%N l.

End Timers.

(** ** The helpers [sendToolResponse] and [sendUserMessage]

    Both components define [sendToolResponse] with the same text; GeminiMatrix
    also defines [sendUserMessage]. *)

Module Helpers.
Import Any LiveApi.

(** The closures handed to [setTimeout]: what each holds.  The client that
    a closure holds is the one object of the component; the call is made on
    it when the timer fires. *)
Inductive callback (Args : Type) : Type :=
| CbSendToolResponse (toolCall : ToolCall Args) (response : any)
| CbSend (text : string).
Global Arguments CbSendToolResponse {Args} _ _.
Global Arguments CbSend {Args} _.

(** Running a closure when its timer fires. *)
Definition run_callback {Args Handler C} `{!LiveClient Handler C}
    (cb : callback Args) (client : C) : C :=
  match cb with
  | CbSendToolResponse toolCall response =>
      client_sendToolResponse
        ((fun fc => mkFunctionResponse response (id fc)) <$> functionCalls toolCall)
        client
  | CbSend text =>
      client_send [mkPart text] None client
  end.

Definition run_callbacks {Args Handler C} `{!LiveClient Handler C}
    (cbs : list (callback Args)) (client : C) : C :=
  foldl (fun c cb => run_callback cb c) client cbs.

(** The helpers with the delay as a parameter. *)
Definition sendToolResponse_after {Args} (delay : N)
    (toolCall : ToolCall Args) (response : any)
    (l : Timers.loop (callback Args)) : Timers.loop (callback Args) :=
  Timers.setTimeout (CbSendToolResponse toolCall response) delay l.

Definition sendUserMessage_after {Args} (delay : N) (text : string)
    (l : Timers.loop (callback Args)) : Timers.loop (callback Args) :=
  Timers.setTimeout (CbSend text) delay l.

(** The delay of the source. *)
Definition delay_ms : N := 200.

(** [sendToolResponse(client, toolCall, response)]. *)
Definition sendToolResponse {Args} :=
  @sendToolResponse_after Args delay_ms.

(** [sendUserMessage(client, text)]. *)
Definition sendUserMessage {Args} :=
  @sendUserMessage_after Args delay_ms.

(** *** The helpers over time

    A client together with the timers that will call it. *)
Record runtime (Args C : Type) : Type := mkRuntime {
  rt_client : C;
  rt_loop : Timers.loop (callback Args)
}.
Global Arguments mkRuntime {Args C} _ _.
Global Arguments rt_client {Args C} _.
Global Arguments rt_loop {Args C} _.

(** What a component does with the helpers, and the passing of time in
    between. *)
Inductive request (Args : Type) : Type :=
| ToolResponseRequest (toolCall : ToolCall Args) (response : any)
| UserMessageRequest (text : string)
| Wait (dt : N).
Global Arguments ToolResponseRequest {Args} _ _.
Global Arguments UserMessageRequest {Args} _.
Global Arguments Wait {Args} _.

Section Runtime.
Context {Args Handler C : Type} `{!LiveClient Handler C}.

(** Time passes: the timers that are due call the client. *)
Definition elapse (dt : N) (rt : runtime Args C) : runtime Args C :=
  let '(fired, loop') := Timers.elapse dt (rt_loop rt) in
  mkRuntime (run_callbacks fired (rt_client rt)) loop'.

(** Time passes until no timer is left. *)
Definition settle (rt : runtime Args C) : runtime Args C :=
  let '(fired, loop') := Timers.drain (rt_loop rt) in
  mkRuntime (run_callbacks fired (rt_client rt)) loop'.

Definition serve (delay : N) (rt : runtime Args C) (r : request Args)
  : runtime Args C :=
  match r with
  | ToolResponseRequest toolCall response =>
      mkRuntime (rt_client rt)
                (sendToolResponse_after delay toolCall response (rt_loop rt))
  | UserMessageRequest text =>
      mkRuntime (rt_client rt) (sendUserMessage_after delay text (rt_loop rt))
  | Wait dt => elapse dt rt
  end.

Definition serve_all (delay : N) (rt : runtime Args C)
    (rs : list (request Args)) : runtime Args C :=
  foldl (serve delay) rt rs.

(** The closures that a list of requests hands to [setTimeout], in the
    order of the calls. *)
Definition closures_of (rs : list (request Args)) : list (callback Args) :=
  omap (fun r => match r with
                 | ToolResponseRequest toolCall response =>
                     Some (CbSendToolResponse toolCall response)
                 | UserMessageRequest text => Some (CbSend text)
                 | Wait _ => None
                 end) rs.

(** A client at time [t] with no timer pending. *)
Definition idle (t : N) (c : C) : runtime Args C :=
  mkRuntime c (Timers.mkLoop t []).

End Runtime.

End Helpers.

(** ** The configuration object handed to [setConfig] *)

Module Config.

(** A parameter schema of a function declaration. *)
Inductive Schema : Type :=
| SString (description : option string)
| SInteger (description : option string)
| SBoolean (description : option string)
| SArray (description : option string) (items : Schema)
| SObject (properties : list (string * Schema)) (required : option (list string)).

Record FunctionDeclaration : Type := mkFunctionDeclaration {
  name : string;
  description : string;
  parameters : Schema
}.

Inductive Tool : Type :=
| GoogleSearch
| CodeExecution
| FunctionDeclarations (declarations : list FunctionDeclaration).

Inductive ResponseModalities : Type := Text | Audio | Mixed.

(** [{ voiceConfig: { prebuiltVoiceConfig: { voiceName } } }]. *)
Record SpeechConfig : Type := mkSpeechConfig { voiceName : string }.

Record GenerationConfig : Type := mkGenerationConfig {
  responseModalities : ResponseModalities;
  speechConfig : option SpeechConfig;
  maxOutputTokens : option Z
}.

(** [systemInstruction] is [{ parts: [{ text }, ...] }]: the texts. *)
Record LiveConfig : Type := mkLiveConfig {
  model : string;
  generationConfig : GenerationConfig;
  systemInstruction : list string;
  tools : list Tool
}.

End Config.

(** ** React: effects and their dependencies

    A render yields the effects of the component in order; the commit that
    follows runs an effect when the component mounts or when one of its
    dependencies changed identity, after the clean-up of its previous run.
    This is the schedule of a production build: the second run of every
    effect that a development build makes under StrictMode is left out. *)

Module React.

Record effect (Act : Type) : Type := mkEffect {
  deps : list nat;
  run : list Act;
  cleanup : list Act
}.
Global Arguments mkEffect {Act} _ _ _.
Global Arguments deps {Act} _.
Global Arguments run {Act} _.
Global Arguments cleanup {Act} _.

Definition changed {Act} (prev cur : effect Act) : bool :=
  bool_decide (deps prev ≠ deps cur).

(** The clean-ups of the effects that rerun, then the reruns, as the pairs
    (previous run, effect of this render) give them. *)
Definition rerun {Act} (pairs : list (effect Act * effect Act)) : list Act :=
  (pairs ≫= fun '(prev, cur) => if changed prev cur then cleanup prev else [])
  ++ (pairs ≫= fun '(prev, cur) => if changed prev cur then run cur else []).

(** The effects whose clean-up is pending after a commit: an effect that
    did not rerun keeps its previous run. *)
Definition retained {Act} (pairs : list (effect Act * effect Act))
  : list (effect Act) :=
  (fun '(prev, cur) => if changed prev cur then cur else prev) <$> pairs.

(** A commit: what it performs and the effects that are now pending.
    [None] is a component that is not mounted. *)
Definition commit {Act} (pending : option (list (effect Act)))
    (rendered : list (effect Act)) : list Act * list (effect Act) :=
  match pending with
  | None => (rendered ≫= run, rendered)
  | Some prev => (rerun (zip prev rendered), retained (zip prev rendered))
  end.

(** Unmounting runs every pending clean-up. *)
Definition unmount {Act} (pending : list (effect Act)) : list Act :=
  pending ≫= cleanup.

(** Every action of an effect satisfies [Q]. *)
Definition effect_all {Act} (Q : Act -> Prop) (e : effect Act) : Prop :=
  Forall Q (run e) /\ Forall Q (cleanup e).

End React.

(** ** What the effects of the two components do *)

Module Component.

(** The calls made in the effects.  [H] is the type of the handler that a
    component registers. *)
Inductive action (H : Type) : Type :=
| SetupFileSystem
| SetConfig (config : Config.LiveConfig)
| ClientOn (channel : string) (h : H)
| ClientOff (channel : string) (h : H).
Global Arguments SetupFileSystem {H}.
Global Arguments SetConfig {H} _.
Global Arguments ClientOn {H} _ _.
Global Arguments ClientOff {H} _ _.

(** What [useLiveAPIContext()] returns, by the identity of the objects. *)
Record context : Type := mkContext { client_id : nat; setConfig_id : nat }.

(** The configurations in a list of actions, in order. *)
Definition configs_of {H} (acts : list (action H)) : list Config.LiveConfig :=
  omap (fun a => match a with SetConfig c => Some c | _ => None end) acts.

Definition is_client_on {H} (a : action H) : bool :=
  match a with ClientOn _ _ => true | _ => false end.

Definition is_set_config {H} (a : action H) : bool :=
  match a with SetConfig _ => true | _ => false end.

End Component.

(** ** The Memento component (src/components/memento/Memento.tsx) *)

Module Memento.
Import Any LiveApi Helpers Component.

Definition renderHtmlDeclaration : Config.FunctionDeclaration :=
  Config.mkFunctionDeclaration "render_html" "Displays HTML on the screen."
    (Config.SObject
       [("htmlText", Config.SString (Some "HTML object in string format"))]
       (Some ["htmlText"])).

Definition lsDeclaration : Config.FunctionDeclaration :=
  Config.mkFunctionDeclaration "ls"
    "Lists content in current working directory. Result is a dictionary where the 'files' key contains a list of dictionaries representing files. Each dictionary has a 'name' and a 'type' ('file' or 'directory') field."
    (Config.SObject
       [("verbose", Config.SBoolean (Some "Should the output be verbose."))]
       (Some [])).

Definition writeToDeclaration : Config.FunctionDeclaration :=
  Config.mkFunctionDeclaration "writeTo" "Writes text into a text file"
    (Config.SObject
       [("fileName", Config.SString
           (Some "Name of the file to write to. Will be created if it doesn't exist."));
        ("contents", Config.SString (Some "Contents to write into the file."));
        ("appendFile", Config.SBoolean
           (Some "Should new content be appended to existing content. Defaults to true."))]
       (Some ["contents"; "fileName"])).

Definition readTxtFileDeclaration : Config.FunctionDeclaration :=
  Config.mkFunctionDeclaration "readTxtFile"
    "Reads txt file and returns content as dictionary with 'contents' field that contains the text string."
    (Config.SObject
       [("fileName", Config.SString (Some "Name of the file to read."))]
       (Some ["fileName"])).

Definition systemInstruction : string :=
"
* The default background is dark, so make sure that you choose appropriate colours.
* Render responses in html whenever asked to show or render something. 
".

(** The argument of [setConfig]. *)
Definition config : Config.LiveConfig :=
  Config.mkLiveConfig "models/gemini-2.0-flash-exp"
    (Config.mkGenerationConfig Config.Text
       (Some (Config.mkSpeechConfig "Aoede")) None)
    [systemInstruction]
    [Config.GoogleSearch;
     Config.FunctionDeclarations
       [renderHtmlDeclaration; lsDeclaration; writeToDeclaration;
        readTxtFileDeclaration]].

(** The names the handler dispatches on. *)
Definition declared_names : list string :=
  Config.name <$>
    [renderHtmlDeclaration; lsDeclaration; writeToDeclaration;
     readTxtFileDeclaration].

(** [fc.args] under the casts of the handler: the properties the four
    branches read.  [append] is optional. *)
Record Args : Type := mkArgs {
  htmlText : string;
  verbose : bool;
  contents : string;
  fileName : string;
  append : Js.value bool
}.

(** The origin-private file system behind [navigator.storage], as far as
    the functions of the component use it.  [None] is a rejected promise. *)
Class FileSystem (FS : Type) : Type := {
  setupFileSystem : FS -> FS;
  listFilesInCurrentFolder : FS -> option (list (string * string));
  writeToFile : string -> string -> bool -> FS -> option FS;
  readTxtFile : string -> FS -> option (string * FS)
}.

(** The handler registered on the channel: it captures no state of the
    component. *)
Inductive handler : Type := OnToolCall.

Record world (FS C : Type) : Type := mkWorld {
  htmlString : string;
  files : FS;
  client : C;
  loop : Timers.loop (callback Args);
  configs : list Config.LiveConfig;
  pending : option (list (React.effect (action handler)))
}.
Global Arguments mkWorld {FS C} _ _ _ _ _ _.
Global Arguments htmlString {FS C} _.
Global Arguments files {FS C} _.
Global Arguments client {FS C} _.
Global Arguments loop {FS C} _.
Global Arguments configs {FS C} _.
Global Arguments pending {FS C} _.

Section Machine.
Context {FS C : Type} `{!FileSystem FS} `{!LiveClient handler C}.

Definition success : any :=
  AObj [("response", AObj [("output", AObj [("sucess", ABool true)])])].

Definition respond (toolCall : ToolCall Args) (response : any)
    (w : world FS C) : world FS C :=
  mkWorld (htmlString w) (files w) (client w)
          (sendToolResponse toolCall response (loop w))
          (configs w) (pending w).

(** The part of the callback of [forEach] that runs at once: the
    [render_html] branch has no [await]. *)
Definition on_call_now (toolCall : ToolCall Args) (w : world FS C)
    (fc : FunctionCall Args) : world FS C :=
  if String.eqb (name fc) (Config.name renderHtmlDeclaration) then
    respond toolCall success
      (mkWorld (htmlText (args fc)) (files w) (client w) (loop w)
               (configs w) (pending w))
  else w.

(** The part that runs when the awaited file operation has settled. *)
Definition on_call_later (toolCall : ToolCall Args) (w : world FS C)
    (fc : FunctionCall Args) : world FS C :=
  if String.eqb (name fc) (Config.name renderHtmlDeclaration) then w
  else if String.eqb (name fc) (Config.name lsDeclaration) then
    match listFilesInCurrentFolder (files w) with
    | Some result =>
        respond toolCall
          (AObj [("files",
                  AArr ((fun '(n, k) => AObj [("name", AStr n); ("type", AStr k)])
                          <$> result))]) w
    | None => w
    end
  else if String.eqb (name fc) (Config.name writeToDeclaration) then
    match writeToFile (fileName (args fc)) (contents (args fc))
            (match append (args fc) with
             | Js.Undefined => true
             | Js.Null => false
             | Js.Val b => b
             end) (files w) with
    | Some files' =>
        respond toolCall success
          (mkWorld (htmlString w) files' (client w) (loop w)
                   (configs w) (pending w))
    | None => w
    end
  else if String.eqb (name fc) (Config.name readTxtFileDeclaration) then
    match readTxtFile (fileName (args fc)) (files w) with
    | Some (result, files') =>
        respond toolCall (AObj [("contents", AStr result)])
          (mkWorld (htmlString w) files' (client w) (loop w)
                   (configs w) (pending w))
    | None => w
    end
  else w.

(** [onToolCall]: [forEach] starts every callback in order; the awaited
    parts are taken to settle in the order of the batch. *)
Definition onToolCall (toolCall : ToolCall Args) (w : world FS C)
  : world FS C :=
  foldl (on_call_later toolCall)
        (foldl (on_call_now toolCall) w (functionCalls toolCall))
        (functionCalls toolCall).

(** The two effects of [MementoComponent]. *)
Definition effects (ctx : context) : list (React.effect (action handler)) :=
  [React.mkEffect [setConfig_id ctx] [SetupFileSystem; SetConfig config] [];
   React.mkEffect [client_id ctx]
     [ClientOn "toolcall" OnToolCall] [ClientOff "toolcall" OnToolCall]].

Definition perform (w : world FS C) (a : action handler) : world FS C :=
  match a with
  | SetupFileSystem =>
      mkWorld (htmlString w) (setupFileSystem (files w)) (client w) (loop w)
              (configs w) (pending w)
  | SetConfig c =>
      mkWorld (htmlString w) (files w) (client w) (loop w)
              (configs w ++ [c]) (pending w)
  | ClientOn ch h =>
      mkWorld (htmlString w) (files w) (client_on ch h (client w)) (loop w)
              (configs w) (pending w)
  | ClientOff ch h =>
      mkWorld (htmlString w) (files w) (client_off ch h (client w)) (loop w)
              (configs w) (pending w)
  end.

(** What happens to a component. *)
Inductive event : Type :=
| Render (ctx : context)
| Unmount
| ToolCallEvent (toolCall : ToolCall Args)
| Elapse (dt : N).

Definition step (w : world FS C) (e : event) : world FS C :=
  match e with
  | Render ctx =>
      let '(acts, pending') := React.commit (pending w) (effects ctx) in
      let w' := foldl perform w acts in
      mkWorld (htmlString w') (files w') (client w') (loop w') (configs w')
              (Some pending')
  | Unmount =>
      match pending w with
      | Some p =>
          let w' := foldl perform w (React.unmount p) in
          mkWorld (htmlString w') (files w') (client w') (loop w')
                  (configs w') None
      | None => w
      end
  | ToolCallEvent toolCall =>
      match pending w with
      | Some _ => onToolCall toolCall w
      | None => w
      end
  | Elapse dt =>
      let '(fired, loop') := Timers.elapse dt (loop w) in
      mkWorld (htmlString w) (files w) (run_callbacks fired (client w)) loop'
              (configs w) (pending w)
  end.

Definition run (w : world FS C) (es : list event) : world FS C :=
  foldl step w es.

(** The component before it mounts. *)
Definition initial (fs : FS) (c : C) : world FS C :=
  mkWorld EmptyString fs c (Timers.mkLoop 0%N []) [] None.

(** An event of the session that a mount with [ctx0] opens: the
    component is not unmounted, and [setConfig] keeps its identity. *)
Definition in_session (ctx0 : context) (e : event) : Prop :=
  match e with
  | Render ctx => setConfig_id ctx = setConfig_id ctx0
  | Unmount => False
  | ToolCallEvent _ | Elapse _ => True
  end.

End Machine.

(** The same component with another client in the place of its client. *)
Definition with_client {FS C D} (d : D) (w : world FS C) : world FS D :=
  mkWorld (htmlString w) (files w) d (loop w) (configs w) (pending w).

(** The component run with the client that keeps the calls, seen with
    the client that these calls leave when they are made on [c0]. *)
Definition lift {FS C} `{!LiveClient handler C} (c0 : C)
    (wr : world FS (list (client_call handler))) : world FS C :=
  with_client (replay (client wr) c0) wr.

(** The actions of the effects: the configuration is the one of the
    component and the channel is [toolcall]. *)
Definition expected (a : action handler) : Prop :=
  match a with
  | SetupFileSystem => True
  | SetConfig c => c = config
  | ClientOn ch _ | ClientOff ch _ => ch = "toolcall"
  end.

(** What holds of the component whatever happens to it. *)
Definition wf {FS} (w : world FS (list (client_call handler))) : Prop :=
  Forall (on_channel "toolcall") (client w) /\
  Forall (fun c => c = config) (configs w) /\
  from_option (Forall (React.effect_all expected)) True (pending w).

(** What holds in the session that a mount with [ctx0] opens: the
    configuration has been supplied once, the effect that supplies it is
    pending with the identity of [setConfig] it ran with, and the other
    effect supplies none. *)
Definition supplied {FS C} (ctx0 : context) (w : world FS C) : Prop :=
  configs w = [config] /\
  exists e1 e2, pending w = Some [e1; e2] /\
                React.deps e1 = [setConfig_id ctx0] /\
                React.effect_all (fun a => is_set_config a = false) e2.

End Memento.

(** ** The GeminiMatrix component (README.md) *)

Module GeminiMatrix.
Import Any LiveApi Helpers Component.

Definition block_bounds (what : string)
  : list (string * Config.Schema) :=
  [("startRow", Config.SInteger (Some ("The index of the starting row to " +:+ what +:+ ".")));
   ("startCol", Config.SInteger (Some ("The index of the starting column to " +:+ what +:+ ".")))].

Definition end_bounds : list (string * Config.Schema) :=
  [("endRow", Config.SInteger
      (Some "The index of the end row to return, exclusive. Use -1 to return up until (including) the last row."));
   ("endCol", Config.SInteger
      (Some "The index of the end column to return, exclusive. Use -1 to return up until (including) the last column."))].

Definition getDataBlockDecl : Config.FunctionDeclaration :=
  Config.mkFunctionDeclaration "getDataBlock"
    "gets a contiguous rectangular block of the data matrix. The result with be in a dictionary with a single key `data` which contains a list of lists of strings."
    (Config.SObject (block_bounds "return" ++ end_bounds)
       (Some ["startRow"; "startCol"; "endRow"; "endCol"])).

Definition getStyleBlockDecl : Config.FunctionDeclaration :=
  Config.mkFunctionDeclaration "getStyleBlock"
    "gets a contiguous rectangular block of the CSS style matrix that controls the style of each cell. The result with be in a dictionary with a single key `styles` which contains a list of lists of strings. Each string is a JSON object representing the style."
    (Config.SObject (block_bounds "return" ++ end_bounds)
       (Some ["startRow"; "startCol"; "endRow"; "endCol"])).

Definition value_schema (description : string) : Config.Schema :=
  Config.SArray (Some description)
    (Config.SArray None (Config.SString None)).

Definition setDataBlockDecl : Config.FunctionDeclaration :=
  Config.mkFunctionDeclaration "setDataBlock"
    "Sets a contiguous rectangular block of the data matrix with the values of a sub matrix."
    (Config.SObject
       (block_bounds "fill" ++
        [("value", value_schema
            "The values to fill the contiguous block with. Strings can contain <a> tags.")])
       (Some ["startRow"; "startCol"; "value"])).

Definition setStylesBlockDecl : Config.FunctionDeclaration :=
  Config.mkFunctionDeclaration "setStylesBlock"
    "Sets a contiguous rectangular block of the CSS style matrix with the values of a sub matrix."
    (Config.SObject
       (block_bounds "fill" ++
        [("value", value_schema
            "The values to fill the contiguous block with. Each value of the matrix should be a JSON object representing the css style for the table cell.")])
       (Some ["startRow"; "startCol"; "value"])).

Definition geminiAsAToolDecl : Config.FunctionDeclaration :=
  Config.mkFunctionDeclaration "gemini"
    "Returns the response from gemini given the prompt. Response is return as dictionary with a response key that has the model response."
    (Config.SObject
       [("prompt", Config.SString (Some "Prompt to be given to the model."))]
       None).

(** The double quote, which the text below contains twice. *)
Definition dq : string := String (Ascii.ascii_of_nat 34) EmptyString.

Definition developer_instruction : string :=
  (
"
# General 
* You are a helpful matrix agent that can change and observe a 10x10 data matrix.
* DO always execute what the user asks, do not ask for confirmation (and do an educated guess if it's unclear). 

# Matrix Operations
* When you do sorting, ignore all empty rows or columns and only sort sections with actual data.
* Make sure to load data from the matrix instead of relying on your previous responses and context. The matrix might have been reordered, sorted etc since you last filled it, so you can't rely on initial orderings.
* When cells are moved (sorted, moved etc), always assume you need to move both content and styling.
* If you don't know/haven't yet seen specific cells and need to process them based on their format, analyze the format first. 
* For example, if you need to parse currency amounts in a column, first print out some dates in the column to see the currency format.
* When you add a title row or column, make sure to not overwrite existing content and shift content accordingly. 

# Parsing strings for python processing
* Often you will have extract specific information from strings, such as days, months and years from a date string. ALWAYS first print at least a subset of the relevant data to figure out what the format is! Don't assume a given format. 
* For example, when you sort by dates, check the date format and do date extraction and conversation based on the pattern you see. 
* Generally, strings in the cells created by an LLM will have various formats. Don't assume you can directly string match on these.
* 
# Gemini As A Tool
* You have a gemini tool you should use whenever the user asks you to process specific cells.
* For example, if you are to find the sentiment of sentences in the second column and write into the third, process each with gemini and write it out.
* Or when you are ask to do something for each cell in a column, and the task requires reasoning or gathering factual information, use gemini as a tool! 
* When using gemini in the inner loop, please update cells as you go so that the user can see changes right away. 
* That is, if you are ready to make a change to cell i,j call default_api.setDataBlock(startCol=i, endCol=j, startRow=i+1, endRow=j+1, value=[[<newValue]])
* So do the default_api.setDataBlock operation in the inner loops, not at the end.
* Use search as a tool if you are asked for factual information, but NOT for per cell processing. For cell specific tasks, use MUST USE gemini as a tool!
* AVOID CALLING SEARCH TOOL N times for N cells. RATHER CALL GEMINI N times. 
* In for loops that create new cell values, store results immediately in the matrix, on a cell-by-cell basis.
* Never use your internal knowledge, always use gemini as a tool if you are asked factual questions.

# CSS Styling operations
* When the user asks for styling, always combine the previous style (retrieve it using the get methods) with the styles to add, unless the user wants to explicitly reset styles. 
* When combining or manipulating JSON style strings, it's best to first parse these into python objects, then manipulate, and the stringify again.
* make sure to 'import json' when you work with json strings and objects. Re-import in each code block. 
* The empty style is represented as " +:+ dq +:+ "{}" +:+ dq +:+ " (notice the double quotes, they are critical).
* Note that style changes in the cells overwrite column styles. 

# Date 
* The date is Monday 16 December 2024. 
").

(** The argument of [setConfig]. *)
Definition config : Config.LiveConfig :=
  Config.mkLiveConfig "models/gemini-2.0-flash-exp"
    (Config.mkGenerationConfig Config.Text
       (Some (Config.mkSpeechConfig "Aoede")) (Some 5000%Z))
    [developer_instruction]
    [Config.GoogleSearch;
     Config.FunctionDeclarations
       [getDataBlockDecl; setDataBlockDecl; getStyleBlockDecl;
        setStylesBlockDecl; geminiAsAToolDecl]].

(** The names the handler dispatches on. *)
Definition declared_names : list string :=
  Config.name <$>
    [geminiAsAToolDecl; setDataBlockDecl; setStylesBlockDecl;
     getDataBlockDecl; getStyleBlockDecl].

(** [fc.args] under the casts of the handler. *)
Record Args : Type := mkArgs {
  prompt : string;
  startRow : Z;
  startCol : Z;
  endRow : Z;
  endCol : Z;
  value : Matrix.matrix string
}.

(** What the component uses from outside the repository: [JSON.parse]
    ([None] is a SyntaxError), [JSON.stringify], and the chat session of
    the second model ([None] is a rejected promise). *)
Class Host : Type := {
  JSON_parse : string -> option any;
  JSON_stringify : Js.value any -> Js.value string;
  chat : string -> option string
}.

(** The handler made by [useCallback]: it holds the [data] and the
    [cellStyles] of the render that made it. *)
Inductive handler : Type :=
| OnToolCall (data : Matrix.matrix string) (cellStyles : Matrix.matrix any).

Record world (C : Type) : Type := mkWorld {
  data : Matrix.matrix string;
  cellStyles : Matrix.matrix any;
  editCell : option (nat * nat);
  data_id : nat;
  cellStyles_id : nat;
  client : C;
  loop : Timers.loop (callback Args);
  configs : list Config.LiveConfig;
  pending : option (list (React.effect (action handler)))
}.
Global Arguments mkWorld {C} _ _ _ _ _ _ _ _ _.
Global Arguments data {C} _.
Global Arguments cellStyles {C} _.
Global Arguments editCell {C} _.
Global Arguments data_id {C} _.
Global Arguments cellStyles_id {C} _.
Global Arguments client {C} _.
Global Arguments loop {C} _.
Global Arguments configs {C} _.
Global Arguments pending {C} _.

Section Machine.
Context {C : Type} `{!Host} `{!LiveClient handler C}.

Definition success : any := AObj [("output", AObj [("sucess", ABool true)])].

Definition initial_style : any :=
  AObj [("border", AStr "1px solid gray"); ("width", AStr "80px");
        ("height", AStr "40px")].

Definition respond (toolCall : ToolCall Args) (response : any)
    (w : world C) : world C :=
  mkWorld (data w) (cellStyles w) (editCell w) (data_id w) (cellStyles_id w)
          (client w) (sendToolResponse toolCall response (loop w))
          (configs w) (pending w).

(** [setData(f)]: the new array has a new identity. *)
Definition setData (f : Matrix.matrix string -> Matrix.matrix string)
    (w : world C) : world C :=
  mkWorld (f (data w)) (cellStyles w) (editCell w) (S (data_id w))
          (cellStyles_id w) (client w) (loop w) (configs w) (pending w).

Definition setCellStyles (f : Matrix.matrix any -> Matrix.matrix any)
    (w : world C) : world C :=
  mkWorld (data w) (f (cellStyles w)) (editCell w) (data_id w)
          (S (cellStyles_id w)) (client w) (loop w) (configs w) (pending w).

Definition setEditCell (c : option (nat * nat)) (w : world C) : world C :=
  mkWorld (data w) (cellStyles w) c (data_id w) (cellStyles_id w)
          (client w) (loop w) (configs w) (pending w).

(** The part of the callback of [forEach] that runs at once.  The
    [catch] of the two set branches guards a call that only registers the
    update, so its branch is not taken. *)
Definition on_call_now (h : handler) (toolCall : ToolCall Args)
    (w : world C) (fc : FunctionCall Args) : world C :=
  let 'OnToolCall data cellStyles := h in
  let a := args fc in
  if String.eqb (name fc) (Config.name geminiAsAToolDecl) then w
  else if String.eqb (name fc) (Config.name setDataBlockDecl) then
    respond toolCall success
      (setData (fun matrix =>
                  Matrix.setMatrixBlock matrix (startRow a) (startCol a) (value a)) w)
  else if String.eqb (name fc) (Config.name setStylesBlockDecl) then
    match mapM (mapM (fun style : Js.value string =>
                        match style with
                        | Js.Val s => to_cell <$> JSON_parse s
                        | Js.Null => Some Js.Null
                        | Js.Undefined => None
                        end)) (value a) with
    | Some cssValue =>
        respond toolCall success
          (setCellStyles (fun matrix =>
             Matrix.setMatrixBlock matrix (startRow a) (startCol a) cssValue) w)
    | None => w
    end
  else if String.eqb (name fc) (Config.name getDataBlockDecl) then
    match Matrix.selectMatrixBlock data (startRow a) (startCol a)
            (endRow a) (endCol a) with
    | Some result =>
        respond toolCall (AObj [("data", of_matrix AStr result)]) w
    | None => w
    end
  else if String.eqb (name fc) (Config.name getStyleBlockDecl) then
    match Matrix.selectMatrixBlock cellStyles (startRow a) (startCol a)
            (endRow a) (endCol a) with
    | Some result =>
        let asJSON := (fun row : list (Js.value any) => JSON_stringify <$> row) <$> result in
        respond toolCall (AObj [("styles", of_matrix AStr asJSON)]) w
    | None => w
    end
  else w.

(** The part that runs when the chat session has answered. *)
Definition on_call_later (toolCall : ToolCall Args) (w : world C)
    (fc : FunctionCall Args) : world C :=
  if String.eqb (name fc) (Config.name geminiAsAToolDecl) then
    match chat (prompt (args fc)) with
    | Some text => respond toolCall (AObj [("response", AStr text)]) w
    | None => w
    end
  else w.

(** [onToolCall], as the handler [h]. *)
Definition onToolCall (h : handler) (toolCall : ToolCall Args)
    (w : world C) : world C :=
  foldl (on_call_later toolCall)
        (foldl (on_call_now h toolCall) w (functionCalls toolCall))
        (functionCalls toolCall).

(** The effects of a render: [setConfig], and the subscription, whose
    handler changes identity with [data] and [cellStyles]. *)
Definition effects (ctx : context) (w : world C)
  : list (React.effect (action handler)) :=
  let onToolCall := OnToolCall (data w) (cellStyles w) in
  [React.mkEffect [setConfig_id ctx] [SetConfig config] [];
   React.mkEffect [client_id ctx; data_id w; cellStyles_id w]
     [ClientOn "toolcall" onToolCall] [ClientOff "toolcall" onToolCall]].

Definition with_pending (p : option (list (React.effect (action handler))))
    (w : world C) : world C :=
  mkWorld (data w) (cellStyles w) (editCell w) (data_id w) (cellStyles_id w)
          (client w) (loop w) (configs w) p.

Definition perform (w : world C) (a : action handler) : world C :=
  match a with
  | SetupFileSystem => w
  | SetConfig c =>
      mkWorld (data w) (cellStyles w) (editCell w) (data_id w)
              (cellStyles_id w) (client w) (loop w) (configs w ++ [c])
              (pending w)
  | ClientOn ch h =>
      mkWorld (data w) (cellStyles w) (editCell w) (data_id w)
              (cellStyles_id w) (client_on ch h (client w)) (loop w)
              (configs w) (pending w)
  | ClientOff ch h =>
      mkWorld (data w) (cellStyles w) (editCell w) (data_id w)
              (cellStyles_id w) (client_off ch h (client w)) (loop w)
              (configs w) (pending w)
  end.

(** The handlers that are subscribed, from the effects that ran. *)
Definition subscribed (p : list (React.effect (action handler)))
  : list handler :=
  p ≫= fun e =>
    omap (fun a => match a with ClientOn _ h => Some h | _ => None end)
         (React.run e).

(** The text of the message of a cell edit. *)
Definition changed_cell (rowIndex colIndex : nat) (newValue : string)
  : string :=
  "<CHANGED CELL> (" +:+ pretty rowIndex +:+ "," +:+ pretty colIndex
    +:+ ") to '" +:+ newValue +:+ "'".

(** [onSubmit] of the cell at [rowIndex], [colIndex]. *)
Definition onSubmit (rowIndex colIndex : nat) (newValue : string)
    (w : world C) : world C :=
  let r := Z.of_nat rowIndex in
  let c := Z.of_nat colIndex in
  let w1 := setData (fun data =>
              default data
                (Matrix.updateMatrixBlock data r c (r + 1) (c + 1)
                   (Js.Val newValue))) w in
  let w2 := setEditCell None w1 in
  mkWorld (data w2) (cellStyles w2) (editCell w2) (data_id w2)
          (cellStyles_id w2) (client w2)
          (sendUserMessage (changed_cell rowIndex colIndex newValue) (loop w2))
          (configs w2) (pending w2).

Inductive event : Type :=
| Render (ctx : context)
| Unmount
| ToolCallEvent (toolCall : ToolCall Args)
| Click (rowIndex colIndex : nat)
| Submit (rowIndex colIndex : nat) (newValue : string)
| Elapse (dt : N).

Definition step (w : world C) (e : event) : world C :=
  match e with
  | Render ctx =>
      let '(acts, pending') := React.commit (pending w) (effects ctx w) in
      with_pending (Some pending') (foldl perform w acts)
  | Unmount =>
      match pending w with
      | Some p => with_pending None (foldl perform w (React.unmount p))
      | None => w
      end
  | ToolCallEvent toolCall =>
      match pending w with
      | Some p => foldl (fun w h => onToolCall h toolCall w) w (subscribed p)
      | None => w
      end
  | Click rowIndex colIndex => setEditCell (Some (rowIndex, colIndex)) w
  | Submit rowIndex colIndex newValue => onSubmit rowIndex colIndex newValue w
  | Elapse dt =>
      let '(fired, loop') := Timers.elapse dt (loop w) in
      mkWorld (data w) (cellStyles w) (editCell w) (data_id w)
              (cellStyles_id w) (run_callbacks fired (client w)) loop'
              (configs w) (pending w)
  end.

Definition run (w : world C) (es : list event) : world C :=
  foldl step w es.

(** The component before it mounts. *)
Definition initial (c : C) : world C :=
  mkWorld (Matrix.newMatrix 10 (Js.Val EmptyString))
          (Matrix.newMatrix 10 (Js.Val initial_style))
          None 0 0 c (Timers.mkLoop 0%N []) [] None.

(** An event of the session that a mount with [ctx0] opens: the
    component is not unmounted, and [setConfig] keeps its identity. *)
Definition in_session (ctx0 : context) (e : event) : Prop :=
  match e with
  | Render ctx => setConfig_id ctx = setConfig_id ctx0
  | Unmount => False
  | ToolCallEvent _ | Click _ _ | Submit _ _ _ | Elapse _ => True
  end.

End Machine.

(** The same component with another client in the place of its client. *)
Definition with_client {C D} (d : D) (w : world C) : world D :=
  mkWorld (data w) (cellStyles w) (editCell w) (data_id w) (cellStyles_id w)
          d (loop w) (configs w) (pending w).

(** The component run with the client that keeps the calls, seen with
    the client that these calls leave when they are made on [c0]. *)
Definition lift {C} `{!LiveClient handler C} (c0 : C)
    (wr : world (list (client_call handler))) : world C :=
  with_client (replay (client wr) c0) wr.

(** The actions of the effects: the configuration is the one of the
    component and the channel is [toolcall]. *)
Definition expected (a : action handler) : Prop :=
  match a with
  | SetupFileSystem => True
  | SetConfig c => c = config
  | ClientOn ch _ | ClientOff ch _ => ch = "toolcall"
  end.

(** What holds of the component whatever happens to it. *)
Definition wf (w : world (list (client_call handler))) : Prop :=
  Forall (on_channel "toolcall") (client w) /\
  Forall (fun c => c = config) (configs w) /\
  from_option (Forall (React.effect_all expected)) True (pending w).

(** What holds in the session that a mount with [ctx0] opens. *)
Definition supplied {C} (ctx0 : context) (w : world C) : Prop :=
  configs w = [config] /\
  exists e1 e2, pending w = Some [e1; e2] /\
                React.deps e1 = [setConfig_id ctx0] /\
                React.effect_all (fun a => is_set_config a = false) e2.

End GeminiMatrix.

(** ** The session core, from the specification

    The client behind [MultimodalLiveClient] is not among the sources; the
    definitions of this module follow the specification of the core. *)

Module Json.

Inductive json : Type :=
| JNull
| JBool (b : bool)
| JNum (n : Z)
| JStr (s : string)
| JArr (items : list json)
| JObj (fields : list (string * json)).

(** The value of a key among the fields of an object. *)
Fixpoint field {V} (k : string) (fields : list (string * V)) : option V :=
  match fields with
  | [] => None
  | (k', v) :: rest => if String.eqb k k' then Some v else field k rest
  end.

End Json.

Module Core.
Import Any LiveApi Json.

Inductive error : Type :=
| ProtocolError
| UnknownInvocationError.

Inductive result (A : Type) : Type :=
| Ok (a : A)
| Err (e : error).
Global Arguments Ok {A} a.
Global Arguments Err {A} e.

(** *** The tool-call correlator *)

Inductive status : Type := Pending | Answered | Cancelled.

(** Modelled from the spec: the map of ToolInvocations that the Session
    owns (section 3), with the toolResponse frames sent and the errors
    logged so far, oldest first.  Resolved entries stay in the map: an
    answered entry that is collected would be unknown, which [respond]
    treats alike, and a cancelled one has to be told from an unknown one. *)
Record correlator : Type := mkCorrelator {
  invocations : gmap string status;
  outbound : list (list FunctionResponse);
  logged : list error
}.

(** Modelled from the spec: the arrival of a ToolCall message (section 4.6:
    the correlator marks each invocationId Pending). *)
Definition on_tool_call (ids : list string) (c : correlator) : correlator :=
  mkCorrelator (foldr (fun i m => <[i := Pending]> m) (invocations c) ids)
               (outbound c) (logged c).

(** Modelled from the spec: [respond(invocationId, payload)] (section 4.6):
    a pending entry is answered and its response is sent; an unknown or
    already answered id fails with UnknownInvocationError, which is logged
    and not fatal; a cancelled id is a no-op. *)
Definition respond (i : string) (payload : any) (c : correlator)
  : result unit * correlator :=
  match invocations c !! i with
  | Some Pending =>
      (Ok (),
       mkCorrelator (<[i := Answered]> (invocations c))
                    (outbound c ++ [[mkFunctionResponse payload i]])
                    (logged c))
  | Some Cancelled => (Ok (), c)
  | Some Answered | None =>
      (Err UnknownInvocationError,
       mkCorrelator (invocations c) (outbound c)
                    (logged c ++ [UnknownInvocationError]))
  end.

(** Modelled from the spec: a ToolCallCancellation marks the listed ids
    that are pending as Cancelled (sections 3 and 4.6). *)
Definition on_cancellation (ids : list string) (c : correlator) : correlator :=
  mkCorrelator
    (foldr (fun i m =>
              match m !! i with
              | Some Pending => <[i := Cancelled]> m
              | _ => m
              end) (invocations c) ids)
    (outbound c) (logged c).

(** Modelled from the spec: closing the session cancels every invocation
    that is still pending. *)
Definition on_close (c : correlator) : correlator :=
  mkCorrelator
    ((fun s => match s with Pending => Cancelled | _ => s end) <$> invocations c)
    (outbound c) (logged c).

(** A sequence of [respond] calls; the results are dropped. *)
Definition responds (calls : list (string * any)) (c : correlator) : correlator :=
  foldl (fun c '(i, payload) => (respond i payload c).2) c calls.

(** The number of response entries sent for an id. *)
Definition entries_for (i : string) (c : correlator) : nat :=
  length (filter (fun fr => response_id fr = i) (concat (outbound c))).

(** *** Outbound messages *)

(** Modelled from the spec: the ClientMessage union of section 3, without
    the realtime chunk, which the components do not send. *)
Inductive ClientMessage : Type :=
| Setup (config : Config.LiveConfig)
| ClientContent (parts : list Part) (endOfTurn : bool)
| ToolResponse (responses : list FunctionResponse).

(** Modelled from the spec: the message that a call on the client sends
    (section 6, [sendText(parts, endOfTurn)] and [sendToolResponse]).  The
    components call [send] with one argument; [default_endOfTurn] is the
    value the client declares for the second. *)
Definition message_of_call {Handler} (default_endOfTurn : bool)
    (c : client_call Handler) : option ClientMessage :=
  match c with
  | Send parts turnComplete =>
      Some (ClientContent parts (default default_endOfTurn turnComplete))
  | SendToolResponse frs => Some (ToolResponse frs)
  | On _ _ | Off _ _ => None
  end.

End Core.

(** *** The message codec on setup frames

    Modelled from the spec: section 4.2 ([encode] and [decode], a malformed
    payload or an unrecognised tag yields ProtocolError), section 6 (frames
    are JSON-shaped, the [setup] frame carries the Configuration) and section
    3 (the options of a Configuration).  The layout of the object follows
    the literal that the components hand to [setConfig]. *)

Module Codec.
Import Json Config.

(** Modelled from the spec: an option that is absent is left out of the
    object. *)
Definition opt_field (k : string) (v : option json) : list (string * json) :=
  match v with Some j => [(k, j)] | None => [] end.

(** Modelled from the spec: the parameter schema of a declared function. *)
Fixpoint encode_schema (s : Schema) : json :=
  match s with
  | SString d => JObj (("type", JStr "STRING") :: opt_field "description" (JStr <$> d))
  | SInteger d => JObj (("type", JStr "INTEGER") :: opt_field "description" (JStr <$> d))
  | SBoolean d => JObj (("type", JStr "BOOLEAN") :: opt_field "description" (JStr <$> d))
  | SArray d items =>
      JObj (("type", JStr "ARRAY") :: opt_field "description" (JStr <$> d)
            ++ [("items", encode_schema items)])
  | SObject properties required =>
      JObj (("type", JStr "OBJECT")
            :: ("properties",
                JObj ((fun '(k, p) => (k, encode_schema p)) <$> properties))
            :: opt_field "required" ((fun r => JArr (JStr <$> r)) <$> required))
  end.

(** Modelled from the spec: the properties of an object schema, as
    [encode_schema] encodes them. *)
Definition encode_properties (ps : list (string * Schema))
  : list (string * json) :=
  (fun '(k, p) => (k, encode_schema p)) <$> ps.

(** Modelled from the spec: decoding validates the shape of a value. *)
Definition as_string (j : json) : option string :=
  match j with JStr s => Some s | _ => None end.

(** Modelled from the spec: an optional field is absent, or present and
    well formed. *)
Definition optional {V A} (k : string) (f : V -> option A)
    (fields : list (string * V)) : option (option A) :=
  match field k fields with
  | None => Some None
  | Some v => Some <$> f v
  end.

(** Modelled from the spec: a required field that is missing or
    malformed fails the decoding. *)
Definition required_field {V A} (k : string) (f : V -> option A)
    (fields : list (string * V)) : option A :=
  field k fields ≫= f.

(** Modelled from the spec: an array of strings. *)
Definition as_strings (j : json) : option (list string) :=
  match j with JArr items => mapM as_string items | _ => None end.

(** Modelled from the spec: decoding of a parameter schema and of its
    properties; fields are found by key. *)
Fixpoint decode_schema (j : json) : option Schema :=
  match j with
  | JObj fields =>
      let children :=
        (fix go (fs : list (string * json)) : list (string * (option Schema * option (list (string * Schema)))) :=
           match fs with
           | [] => []
           | (k, v) :: rest => (k, (decode_schema v, decode_properties v)) :: go rest
           end) fields in
      ty ← required_field "type" as_string fields;
      d ← optional "description" as_string fields;
      if String.eqb ty "STRING" then Some (SString d)
      else if String.eqb ty "INTEGER" then Some (SInteger d)
      else if String.eqb ty "BOOLEAN" then Some (SBoolean d)
      else if String.eqb ty "ARRAY" then
        SArray d <$> required_field "items" fst children
      else if String.eqb ty "OBJECT" then
        ps ← required_field "properties" snd children;
        r ← optional "required" as_strings fields;
        Some (SObject ps r)
      else None
  | _ => None
  end
with decode_properties (j : json) : option (list (string * Schema)) :=
  match j with
  | JObj fields =>
      (fix go (fs : list (string * json)) : option (list (string * Schema)) :=
         match fs with
         | [] => Some []
         | (k, v) :: rest =>
             p ← decode_schema v; ps ← go rest; Some ((k, p) :: ps)
         end) fields
  | _ => None
  end.

(** Modelled from the spec: a user-declared function signature, name and
    parameter schema. *)
Definition encode_declaration (d : FunctionDeclaration) : json :=
  JObj [("name", JStr (name d)); ("description", JStr (description d));
        ("parameters", encode_schema (parameters d))].

(** Modelled from the spec: decoding of a function signature. *)
Definition decode_declaration (j : json) : option FunctionDeclaration :=
  match j with
  | JObj fields =>
      n ← required_field "name" as_string fields;
      d ← required_field "description" as_string fields;
      p ← required_field "parameters" decode_schema fields;
      Some (mkFunctionDeclaration n d p)
  | _ => None
  end.

(** Modelled from the spec: a capability descriptor: builtin search, code
    execution, or declared functions. *)
Definition encode_tool (t : Tool) : json :=
  match t with
  | GoogleSearch => JObj [("googleSearch", JObj [])]
  | CodeExecution => JObj [("codeExecution", JObj [])]
  | FunctionDeclarations ds =>
      JObj [("functionDeclarations", JArr (encode_declaration <$> ds))]
  end.

(** Modelled from the spec: decoding of a capability descriptor by its
    one key. *)
Definition decode_tool (j : json) : option Tool :=
  match j with
  | JObj [(k, v)] =>
      if String.eqb k "googleSearch" then
        match v with JObj [] => Some GoogleSearch | _ => None end
      else if String.eqb k "codeExecution" then
        match v with JObj [] => Some CodeExecution | _ => None end
      else if String.eqb k "functionDeclarations" then
        match v with
        | JArr items => FunctionDeclarations <$> mapM decode_declaration items
        | _ => None
        end
      else None
  | _ => None
  end.

(** Modelled from the spec: the enumeration text, audio, mixed. *)
Definition encode_modalities (m : ResponseModalities) : json :=
  JStr match m with Text => "text" | Audio => "audio" | Mixed => "mixed" end.

(** Modelled from the spec: decoding of the response modality. *)
Definition decode_modalities (j : json) : option ResponseModalities :=
  s ← as_string j;
  if String.eqb s "text" then Some Text
  else if String.eqb s "audio" then Some Audio
  else if String.eqb s "mixed" then Some Mixed
  else None.

(** Modelled from the spec: the voice selection. *)
Definition encode_speech (s : SpeechConfig) : json :=
  JObj [("voiceConfig",
         JObj [("prebuiltVoiceConfig", JObj [("voiceName", JStr (voiceName s))])])].

(** Modelled from the spec: the fields of an object. *)
Definition as_object (j : json) : option (list (string * json)) :=
  match j with JObj fields => Some fields | _ => None end.

(** Modelled from the spec: numeric fields are integers. *)
Definition as_integer (j : json) : option Z :=
  match j with JNum n => Some n | _ => None end.

(** Modelled from the spec: decoding of the voice selection. *)
Definition decode_speech (j : json) : option SpeechConfig :=
  fields ← as_object j;
  vc ← required_field "voiceConfig" as_object fields;
  pv ← required_field "prebuiltVoiceConfig" as_object vc;
  mkSpeechConfig <$> required_field "voiceName" as_string pv.

(** Modelled from the spec: response modality, voice and bound on the
    generated length. *)
Definition encode_generation (g : GenerationConfig) : json :=
  JObj (("responseModalities", encode_modalities (responseModalities g))
        :: opt_field "speechConfig" (encode_speech <$> speechConfig g)
        ++ opt_field "maxOutputTokens" (JNum <$> maxOutputTokens g)).

(** Modelled from the spec: decoding of the generation options. *)
Definition decode_generation (j : json) : option GenerationConfig :=
  fields ← as_object j;
  m ← required_field "responseModalities" decode_modalities fields;
  s ← optional "speechConfig" decode_speech fields;
  t ← optional "maxOutputTokens" as_integer fields;
  Some (mkGenerationConfig m s t).

(** Modelled from the spec: the system instruction text. *)
Definition encode_instruction (texts : list string) : json :=
  JObj [("parts", JArr ((fun t => JObj [("text", JStr t)]) <$> texts))].

(** Modelled from the spec: decoding of the system instruction. *)
Definition decode_instruction (j : json) : option (list string) :=
  fields ← as_object j;
  match field "parts" fields with
  | Some (JArr items) =>
      mapM (fun p => as_object p ≫= required_field "text" as_string) items
  | _ => None
  end.

(** Modelled from the spec: the Configuration as an object. *)
Definition encode_config (c : LiveConfig) : json :=
  JObj [("model", JStr (model c));
        ("generationConfig", encode_generation (generationConfig c));
        ("systemInstruction", encode_instruction (systemInstruction c));
        ("tools", JArr (encode_tool <$> tools c))].

(** Modelled from the spec: decoding of a Configuration. *)
Definition decode_config (j : json) : option LiveConfig :=
  fields ← as_object j;
  m ← required_field "model" as_string fields;
  g ← required_field "generationConfig" decode_generation fields;
  i ← required_field "systemInstruction" decode_instruction fields;
  ts ← match field "tools" fields with
       | Some (JArr items) => mapM decode_tool items
       | _ => None
       end;
  Some (mkLiveConfig m g i ts).

(** Modelled from the spec: the setup frame is the Configuration under
    the tag [setup]. *)
Definition encode_setup (c : LiveConfig) : json := JObj [("setup", encode_config c)].

(** Modelled from the spec: decoding of a setup frame; another tag or a
    malformed body is a ProtocolError. *)
Definition decode_setup (frame : json) : Core.result LiveConfig :=
  match frame with
  | JObj [(tag, body)] =>
      if String.eqb tag "setup" then
        match decode_config body with
        | Some c => Core.Ok c
        | None => Core.Err Core.ProtocolError
        end
      else Core.Err Core.ProtocolError
  | _ => Core.Err Core.ProtocolError
  end.
End Codec.

(** ** Instances for the examples

    The statements below hold for every file system and every host; the
    examples need one of each to run. *)

Module Examples.

(** A file system without files. *)
Global Instance no_files : Memento.FileSystem unit := {
  Memento.setupFileSystem fs := fs;
  Memento.listFilesInCurrentFolder _ := Some [];
  Memento.writeToFile _ _ _ fs := Some fs;
  Memento.readTxtFile _ fs := Some (EmptyString, fs)
}.

(** A host whose parser rejects every text and whose chat never answers. *)
Global Instance no_host : GeminiMatrix.Host := {
  GeminiMatrix.JSON_parse _ := None;
  GeminiMatrix.JSON_stringify _ := Js.Undefined;
  GeminiMatrix.chat _ := None
}.

Definition ctx0 : Component.context := Component.mkContext 1 2.

(** A batch with an invocation of a function that Memento does not
    declare, followed by one of [render_html]. *)
Definition mixed_batch : LiveApi.ToolCall Memento.Args :=
  LiveApi.mkToolCall
    [LiveApi.mkFunctionCall "x" "unknown"
       (Memento.mkArgs EmptyString false EmptyString EmptyString Js.Undefined);
     LiveApi.mkFunctionCall "y" "render_html"
       (Memento.mkArgs "<b>hi</b>" false EmptyString EmptyString Js.Undefined)].

(** A store with a one by one matrix at address 0 and a value row at
    address 1 whose cell is undefined. *)
Definition heap_undefined : MatrixHeap.heap string :=
  [[Js.Val "old"]; [Js.Undefined]].

(** A store with the rows of a two by two matrix at addresses 0 and 1 and
    a value row at address 2 whose second cell is null. *)
Definition heap_null : MatrixHeap.heap Z :=
  [[Js.Val 1; Js.Val 2]; [Js.Val 3; Js.Val 4]; [Js.Val 9; Js.Null]]%Z.

Definition matrix3 : Matrix.matrix Z :=
  [[Js.Val 1; Js.Val 2; Js.Val 3];
   [Js.Val 4; Js.Val 5; Js.Val 6];
   [Js.Val 7; Js.Val 8; Js.Val 9]]%Z.

End Examples.

(** ** Predicates of the statements and of their proofs *)

Module Rel.
Import Js LiveApi Helpers.

(** Two outcomes of the same kind whose stores are related. *)
Definition outcome_rel {S T} (R : S -> T -> Prop)
    (o1 : outcome S) (o2 : outcome T) : Prop :=
  match o1, o2 with
  | Normal s, Normal t | Thrown s, Thrown t => R s t
  | _, _ => False
  end.

(** The store is the store [h0] of the call followed by the rows of the
    clone, of which there are [k]. *)
Definition cloned_in {A} (h0 : MatrixHeap.heap A) (k : nat)
    (h : MatrixHeap.heap A) (mc : Matrix.matrix A) : Prop :=
  h = h0 ++ mc /\ length mc = k.

(** No timer is due later than [delay] from now. *)
Definition timely {Args C} (delay : N) (rt : runtime Args C) : Prop :=
  Forall (fun t => (Timers.due t <= Timers.now (rt_loop rt) + delay)%N)
         (Timers.queue (rt_loop rt)).

(** What the client will have received once the pending timers fired. *)
Definition eventually {Args Handler C} `{!LiveClient Handler C}
    (rt : runtime Args C) : C :=
  run_callbacks (Timers.callback <$> Timers.queue (rt_loop rt)) (rt_client rt).

End Rel.

(** ** Shapes, batches and subscriptions

    The predicates of the further properties of Part II. *)

(** [m'] has the rows of [m], none of them shorter. *)
Definition grows {A} (m m' : Matrix.matrix A) : Prop :=
  Forall2 (fun r r' => (length r <= length r')%nat) m m'.

(** No cell of [v] is undefined or null. *)
Definition defined {A} (v : Matrix.matrix A) : Prop :=
  Forall (Forall (fun x => Js.neq_undefined x = true)) v.

(** [n] rows, each of at least [n] cells. *)
Definition grid {A} (n : nat) (m : Matrix.matrix A) : Prop :=
  length m = n /\ Forall (fun r => (n <= length r)%nat) m.

(** The time that a list of waits takes. *)
Definition total_wait (dts : list N) : N := foldr N.add 0%N dts.

(** How many elements of [l] satisfy [f]. *)
Definition count_if {X} (f : X -> bool) (l : list X) : nat :=
  length (filter (fun x => f x = true) l).

Module Batch.
Import Any LiveApi Helpers.

(** The timers that calls of [sendToolResponse(client, toolCall, p)] made
    at [now], one for each payload [p], leave in the queue. *)
Definition batch_timers {Args} (now : N) (toolCall : ToolCall Args)
    (payloads : list any) : list (Timers.timer (callback Args)) :=
  (fun p => Timers.mkTimer (now + delay_ms)%N (CbSendToolResponse toolCall p))
    <$> payloads.

(** The calls of [client.sendToolResponse] that these timers make: each
    has an entry for every invocation of the batch. *)
Definition batch_frames {Args Handler} (toolCall : ToolCall Args)
    (payloads : list any) : list (client_call Handler) :=
  (fun p => SendToolResponse
              ((fun fc => mkFunctionResponse p (id fc)) <$> functionCalls toolCall))
    <$> payloads.

(** The loop is at [now] and its queue holds the timers of [payloads]. *)
Definition queued {Args} (now : N) (toolCall : ToolCall Args)
    (payloads : list any) (l : Timers.loop (callback Args)) : Prop :=
  Timers.now l = now /\ Timers.queue l = batch_timers now toolCall payloads.

End Batch.

(** The calls of a log that subscribe ([true]) or unsubscribe ([false]). *)
Definition subscription_calls {H} (log : list (LiveApi.client_call H))
  : list (bool * H) :=
  omap (fun c => match c with
                 | LiveApi.On _ h => Some (true, h)
                 | LiveApi.Off _ h => Some (false, h)
                 | _ => None
                 end) log.

(** Handlers that were subscribed and then unsubscribed, one after the
    other. *)
Definition on_off {H} (hs : list H) : list (bool * H) :=
  hs ≫= fun h => [(true, h); (false, h)].

(** The calls on the client among the actions of effects. *)
Definition calls_of {H} (acts : list (Component.action H))
  : list (LiveApi.client_call H) :=
  omap (fun a => match a with
                 | Component.ClientOn ch h => Some (LiveApi.On ch h)
                 | Component.ClientOff ch h => Some (LiveApi.Off ch h)
                 | _ => None
                 end) acts.

Module MementoState.
Import LiveApi Component Memento.

Definition is_render_html (fc : FunctionCall Args) : bool :=
  String.eqb (name fc) (Config.name renderHtmlDeclaration).

(** An invocation of one of the functions that work on files. *)
Definition is_file_call (fc : FunctionCall Args) : bool :=
  String.eqb (name fc) (Config.name lsDeclaration)
  || String.eqb (name fc) (Config.name writeToDeclaration)
  || String.eqb (name fc) (Config.name readTxtFileDeclaration).

(** The [htmlText] of the last invocation of [render_html] in a batch. *)
Definition last_render_html (toolCall : ToolCall Args) : option string :=
  last (htmlText ∘ args
          <$> filter (fun fc => is_render_html fc = true) (functionCalls toolCall)).

(** The effects of a render, by their dependencies. *)
Definition setup (scid : nat) : React.effect (action handler) :=
  React.mkEffect [scid] [SetupFileSystem; SetConfig config] [].

Definition subscription (cid : nat) : React.effect (action handler) :=
  React.mkEffect [cid]
    [ClientOn "toolcall" OnToolCall] [ClientOff "toolcall" OnToolCall].

(** The effects that are pending are the two of a render. *)
Definition mounted {FS C} (w : world FS C) : Prop :=
  match pending w with
  | None => True
  | Some p => exists scid cid, p = [setup scid; subscription cid]
  end.

(** The subscriptions in the log of the client: [n] that were removed
    again, then the one that stands while the component is mounted. *)
Definition balanced {FS} (w : world FS (list (client_call handler))) : Prop :=
  exists n : nat,
    subscription_calls (client w)
    = on_off (replicate n OnToolCall)
      ++ match pending w with Some _ => [(true, OnToolCall)] | None => [] end.

End MementoState.

Module GeminiMatrixState.
Import LiveApi Component GeminiMatrix.



(** The effects of a render, by their dependencies. *)
Definition setup (scid : nat) : React.effect (action handler) :=
  React.mkEffect [scid] [SetConfig config] [].

Definition subscription (cid did sid : nat) (h : handler)
  : React.effect (action handler) :=
  React.mkEffect [cid; did; sid] [ClientOn "toolcall" h] [ClientOff "toolcall" h].

(** The state of the component is a pair of grids; the handler that is
    subscribed holds grids, and they are the ones of the state unless
    the state has changed since the render that made the handler. *)
Definition coherent {C} (w : world C) : Prop :=
  grid 10 (data w) /\ grid 10 (cellStyles w) /\
  match pending w with
  | None => True
  | Some p =>
      exists scid cid did sid d s,
        p = [setup scid; subscription cid did sid (OnToolCall d s)] /\
        grid 10 d /\ grid 10 s /\
        (did <= data_id w)%nat /\ (sid <= cellStyles_id w)%nat /\
        (did = data_id w -> d = data w) /\
        (sid = cellStyles_id w -> s = cellStyles w)
  end.




(** What an event other than a render or an unmount does to the state. *)
Definition evolves {C} (w w' : world C) : Prop :=
  pending w' = pending w /\
  (grid 10 (data w) -> grid 10 (data w')) /\
  (grid 10 (cellStyles w) -> grid 10 (cellStyles w')) /\
  (data_id w <= data_id w')%nat /\ (cellStyles_id w <= cellStyles_id w')%nat /\
  (data_id w' = data_id w -> data w' = data w) /\
  (cellStyles_id w' = cellStyles_id w -> cellStyles w' = cellStyles w).

(** The subscriptions in the log of the client are those of handlers
    that were unsubscribed again, then the one of the handler that is
    subscribed. *)
Definition balanced (w : world (list (client_call handler))) : Prop :=
  exists hs,
    subscription_calls (client w)
    = on_off hs ++ ((fun h => (true, h)) <$> from_option subscribed [] (pending w)).

End GeminiMatrixState.

(* ===================================================================== *)
(** * Part II: lemmas and theorems                                        *)
(* ===================================================================== *)

(** ** The matrix helpers *)

Module MatrixFacts.
Import Js Matrix Rel.
Local Open Scope Z_scope.

Ltac decide_cells :=
  repeat case_decide; destruct_and?; subst; try done;
  try (exfalso; rewrite ?elem_of_cons in *; intuition congruence).

Ltac refute_decide :=
  exfalso;
  match goal with
  | H : ¬ _ |- _ =>
      solve [apply H; repeat split;
             first [lia | done | by left | by right | tauto]]
  end.

Ltac decide_ranges :=
  repeat case_decide; destruct_and?; try done;
  rewrite ?elem_of_cons, ?elem_of_seqZ in *; destruct_and?; destruct_or?;
  subst; try done; try lia; refute_decide.

Section Select.
Context {A : Type}.
Implicit Types (m : matrix A) (r : row A).

Lemma index_row_Some {R} (l : list R) (i : Z) :
  0 <= i < len l ->
  exists y : R, index_row l i = Some y /\ l !! Z.to_nat i = Some y.
Proof.
  intros Hi. unfold index_row, len in *.
  destruct (Z.ltb_spec i 0); [lia|].
  destruct (lookup_lt_is_Some_2 l (Z.to_nat i)) as [y Hy]; [lia|]. eauto.
Qed.

Lemma select_row_Some m i cols r0 :
  index_row m i = Some r0 -> select_row m i cols = Some (index r0 <$> cols).
Proof.
  intros H. unfold select_row. rewrite H.
  induction cols as [|c cols IH]; [done|].
  simpl. rewrite IH. done.
Qed.

Lemma select_rows_Some m (rows cols : list Z) :
  Forall (fun i => 0 <= i < len m) rows ->
  mapM (fun i => select_row m i cols) rows
  = Some ((fun i => index (default [] (index_row m i)) <$> cols) <$> rows).
Proof.
  induction 1 as [|i rows Hi _ IH]; [done|].
  destruct (index_row_Some m i Hi) as (r0 & Hr0 & _).
  simpl. rewrite (select_row_Some _ _ _ _ Hr0), IH, Hr0. done.
Qed.

Lemma cell_fmap_range m (sr sc er ec i j : Z) :
  0 <= i < er - sr -> 0 <= j < ec - sc ->
  cell ((fun i => index (default [] (index_row m i)) <$> loop_range sc ec)
          <$> loop_range sr er) i j
  = cell m (sr + i) (sc + j).
Proof.
  intros Hi Hj. unfold cell at 1, index_row at 1.
  destruct (Z.ltb_spec i 0); [lia|].
  rewrite list_lookup_fmap. unfold loop_range.
  rewrite lookup_seqZ_lt by lia. simpl.
  unfold index at 1. destruct (Z.ltb_spec j 0); [lia|].
  rewrite list_lookup_fmap, lookup_seqZ_lt by lia. simpl.
  rewrite !Z2Nat.id by lia. unfold cell.
  destruct (index_row m (sr + i)) as [r0|]; simpl; [done|].
  unfold index. destruct (_ <? 0); [done|]. by rewrite lookup_nil.
Qed.

Lemma selectMatrixBlock_resolved m (sr sc er ec : Z) :
  let sr' := resolve_index sr (len m) in
  let sc' := resolve_index sc (len m) in
  let er' := resolve_index er (len m) in
  let ec' := resolve_index ec (len m) in
  0 <= sr' -> er' <= len m ->
  exists res,
    selectMatrixBlock m sr sc er ec = Some res /\
    length res = Z.to_nat (er' - sr') /\
    Forall (fun r => length r = Z.to_nat (ec' - sc')) res /\
    forall i j, 0 <= i < er' - sr' -> 0 <= j < ec' - sc' ->
                cell res i j = cell m (sr' + i) (sc' + j).
Proof.
  intros sr' sc' er' ec' Hsr Her.
  eexists. split; [|split; [|split]].
  - unfold selectMatrixBlock. fold sr' sc' er' ec'.
    apply select_rows_Some. unfold loop_range.
    apply Forall_seqZ. intros; lia.
  - rewrite length_fmap. unfold loop_range. by rewrite length_seqZ.
  - apply Forall_fmap, Forall_forall. intros i _. simpl.
    rewrite length_fmap. unfold loop_range. by rewrite length_seqZ.
  - intros i j Hi Hj. by apply cell_fmap_range.
Qed.
End Select.

Section SetBlock.
Context {A : Type}.
Implicit Types (m v cloned : matrix A) (r : row A) (x : value A).

Lemma index_assign r (c j : Z) x :
  0 <= c < len r ->
  index (assign r c x) j = if decide (j = c) then x else index r j.
Proof.
  intros Hc. unfold assign, index, len in *.
  destruct (Z.ltb_spec c 0); [lia|].
  destruct (Nat.ltb_spec (Z.to_nat c) (length r)); [|lia].
  destruct (Z.ltb_spec j 0).
  - case_decide; [lia|done].
  - case_decide as Hjc.
    + subst j. by rewrite list_lookup_insert_eq by lia.
    + rewrite list_lookup_insert_ne by lia. done.
Qed.

Lemma length_assign r (c : Z) x :
  0 <= c < len r -> length (assign r c x) = length r.
Proof.
  intros Hc. unfold assign, len in *.
  destruct (Z.ltb_spec c 0); [lia|].
  destruct (Nat.ltb_spec (Z.to_nat c) (length r)); [|lia].
  by rewrite length_insert.
Qed.

Lemma assign_cell_spec (n : nat) cloned (i0 c : Z) x :
  square n cloned -> 0 <= i0 < Z.of_nat n -> 0 <= c < Z.of_nat n ->
  exists cloned',
    assign_cell cloned i0 c x = Normal cloned' /\
    square n cloned' /\
    forall i j, cell cloned' i j
                = if decide (i = i0 /\ j = c) then x else cell cloned i j.
Proof.
  intros [Hlen Hrows] Hi Hc.
  destruct (index_row_Some cloned i0) as (r0 & Hr0 & Hl); [unfold len; lia|].
  assert (Hr0len : length r0 = n).
  { eapply Forall_lookup_1 in Hrows; [|exact Hl]. done. }
  unfold assign_cell. rewrite Hr0. eexists. split; [done|]. split.
  - split; [by rewrite length_insert|].
    apply Forall_insert; [done|].
    rewrite length_assign; [done|unfold len; lia].
  - intros i j. unfold cell, index_row.
    destruct (Z.ltb_spec i 0).
    { case_decide; [lia|done]. }
    destruct (decide (i = i0)) as [->|Hne].
    + rewrite list_lookup_insert_eq by lia.
      rewrite index_assign by (unfold len; lia).
      rewrite Hl. decide_cells.
    + rewrite list_lookup_insert_ne by lia. decide_cells.
Qed.

Lemma set_cells_spec (n : nat) (vrow : row A) (i0 sc : Z) (cols : list Z) :
  0 <= i0 < Z.of_nat n -> Forall (fun c => 0 <= c < Z.of_nat n) cols ->
  forall cloned, square n cloned ->
  exists cloned',
    for_each (set_cell vrow i0 sc) cols cloned = Normal cloned' /\
    square n cloned' /\
    forall i j,
      cell cloned' i j
      = if decide (i = i0 /\ j ∈ cols /\ neq_undefined (index vrow (j - sc)) = true)
        then index vrow (j - sc) else cell cloned i j.
Proof.
  intros Hi. induction 1 as [|c cols Hc _ IH]; intros cloned Hsq.
  - exists cloned. split; [done|]. split; [done|]. intros i j.
    case_decide as H; [|done]. destruct H as (_ & H & _). by apply elem_of_nil in H.
  - simpl. unfold set_cell at 1.
    destruct (neq_undefined (index vrow (c - sc))) eqn:Hx.
    + destruct (assign_cell_spec n cloned i0 c (index vrow (c - sc)) Hsq Hi Hc)
        as (c1 & -> & Hsq1 & Hcell1).
      destruct (IH c1 Hsq1) as (c2 & -> & Hsq2 & Hcell2).
      exists c2. split; [done|]. split; [done|]. intros i j.
      rewrite Hcell2, Hcell1. decide_cells.
    + destruct (IH cloned Hsq) as (c2 & -> & Hsq2 & Hcell2).
      exists c2. split; [done|]. split; [done|]. intros i j.
      rewrite Hcell2. decide_cells.
Qed.

Lemma set_rows_spec (n p q : nat) v (sr sc : Z) (rows : list Z) :
  rect p q v -> 0 <= sc -> sc + Z.of_nat q <= Z.of_nat n ->
  Forall (fun i => 0 <= i < Z.of_nat n /\ sr <= i < sr + Z.of_nat p) rows ->
  forall cloned, square n cloned ->
  exists cloned',
    for_each (set_row v sr sc) rows cloned = Normal cloned' /\
    square n cloned' /\
    forall i j,
      cell cloned' i j
      = if decide (i ∈ rows /\ sc <= j < sc + Z.of_nat q /\
                   neq_undefined (cell v (i - sr) (j - sc)) = true)
        then cell v (i - sr) (j - sc) else cell cloned i j.
Proof.
  intros [Hp Hq] Hsc Hscq.
  induction 1 as [|i0 rows [Hi0 Hi0v] _ IH]; intros cloned Hsq.
  - exists cloned. split; [done|]. split; [done|]. intros i j.
    case_decide as H; [|done]. destruct H as (H & _). by apply elem_of_nil in H.
  - simpl. unfold set_row at 1.
    destruct (index_row_Some v (i0 - sr)) as (vrow & Hvrow & Hl);
      [unfold len; lia|].
    assert (Hvlen : length vrow = q).
    { eapply Forall_lookup_1 in Hq; [|exact Hl]. done. }
    rewrite Hvrow.
    destruct (set_cells_spec n vrow i0 sc
                (loop_range sc (sc + len vrow)) Hi0) with (cloned := cloned)
      as (c1 & -> & Hsq1 & Hcell1); [|done|].
    { apply Forall_seqZ. unfold len. intros; lia. }
    destruct (IH c1 Hsq1) as (c2 & -> & Hsq2 & Hcell2).
    exists c2. split; [done|]. split; [done|]. intros i j.
    rewrite Hcell2, Hcell1. unfold loop_range, len. rewrite Hvlen.
    assert (Hv0 : forall k, cell v (i0 - sr) k = index vrow k).
    { intros k. unfold cell. by rewrite Hvrow. }
    destruct (decide (i = i0)) as [->|Hne].
    + rewrite !Hv0. decide_ranges.
    + decide_ranges.
Qed.

Lemma setMatrixBlock_cells (n p q : nat) m v (sr sc : Z) :
  square n m -> rect p q v ->
  0 <= sr -> 0 <= sc ->
  sr + Z.of_nat p <= Z.of_nat n -> sc + Z.of_nat q <= Z.of_nat n ->
  square n (setMatrixBlock m sr sc v) /\
  forall i j,
    cell (setMatrixBlock m sr sc v) i j
    = if decide ((sr <= i < sr + Z.of_nat p /\ sc <= j < sc + Z.of_nat q) /\
                 neq_undefined (cell v (i - sr) (j - sc)) = true)
      then cell v (i - sr) (j - sc) else cell m i j.
Proof.
  intros Hm Hv Hsr Hsc Hrow Hcol.
  unfold setMatrixBlock, resolve_index.
  destruct (Z.ltb_spec sr 0); [lia|]. destruct (Z.ltb_spec sc 0); [lia|].
  destruct (set_rows_spec n p q v sr sc
              (loop_range sr (sr + len v)) Hv Hsc Hcol) with (cloned := m)
    as (c1 & -> & Hsq1 & Hcell1); [|done|].
  { apply Forall_seqZ. destruct Hv as [Hp _]. unfold len. intros; lia. }
  simpl. split; [done|]. intros i j. rewrite Hcell1.
  destruct Hv as [Hp _]. unfold loop_range, len. rewrite Hp.
  decide_ranges.
Qed.
End SetBlock.

Section Refine.
Context {A : Type}.
Implicit Types (h : MatrixHeap.heap A) (m v : MatrixHeap.matrix)
  (mm vv mc : Matrix.matrix A).

Lemma for_each_sim {S T} (R : S -> T -> Prop) body1 body2 (idx : list Z) :
  (forall i s t, R s t -> outcome_rel R (body1 i s) (body2 i t)) ->
  forall s t, R s t ->
    outcome_rel R (for_each body1 idx s) (for_each body2 idx t).
Proof.
  intros Hbody. induction idx as [|i idx IH]; intros s t Hst; [done|].
  simpl. specialize (Hbody i s t Hst).
  destruct (body1 i s), (body2 i t); simpl in *; try done. by apply IH.
Qed.

Lemma read_Forall2 h m mm :
  MatrixHeap.read h m = Some mm <-> Forall2 (fun l r => h !! l = Some r) m mm.
Proof. apply mapM_Some. Qed.

Lemma read_app h h2 m mm :
  MatrixHeap.read h m = Some mm -> MatrixHeap.read (h ++ h2) m = Some mm.
Proof.
  rewrite !read_Forall2. intros H. eapply Forall2_impl; [exact H|].
  intros l r Hl. by apply lookup_app_l_Some.
Qed.

Lemma clone_spec m : forall h mm,
  MatrixHeap.read h m = Some mm ->
  MatrixHeap.clone h m = (h ++ mm, seq (length h) (length m)).
Proof.
  induction m as [|l m IH]; intros h mm Hr.
  - apply read_Forall2 in Hr. inversion Hr. simpl. by rewrite app_nil_r.
  - apply read_Forall2 in Hr. inversion Hr as [|? r ? mm' Hl Hrest]; subst.
    simpl. unfold MatrixHeap.slice. rewrite Hl. simpl.
    rewrite (IH (h ++ [r]) mm').
    + rewrite length_app, <- app_assoc. simpl.
      by replace (length h + 1)%nat with (S (length h)) by lia.
    + apply read_app. by apply read_Forall2.
Qed.

Lemma index_row_seq (a k : nat) (i : Z) :
  index_row (seq a k) i
  = if decide (0 <= i < Z.of_nat k) then Some (a + Z.to_nat i)%nat else None.
Proof.
  unfold index_row. destruct (Z.ltb_spec i 0).
  - case_decide; [lia|done].
  - case_decide.
    + apply lookup_seq_lt. lia.
    + apply lookup_seq_ge. lia.
Qed.

Lemma assign_cell_sim h0 k (i c : Z) x h mc :
  cloned_in h0 k h mc ->
  outcome_rel (cloned_in h0 k)
    (MatrixHeap.assign_cell (seq (length h0) k) i c x h)
    (Matrix.assign_cell mc i c x).
Proof.
  intros [-> Hk]. unfold MatrixHeap.assign_cell, Matrix.assign_cell.
  rewrite index_row_seq. unfold index_row.
  destruct (Z.ltb_spec i 0).
  { case_decide; [lia|]. done. }
  case_decide.
  - destruct (lookup_lt_is_Some_2 mc (Z.to_nat i)) as [r Hr]; [lia|].
    rewrite lookup_app_r by lia.
    replace (length h0 + Z.to_nat i - length h0)%nat with (Z.to_nat i) by lia.
    rewrite Hr. simpl. split.
    + by rewrite insert_app_r.
    + by rewrite length_insert.
  - rewrite lookup_ge_None_2 by lia. done.
Qed.

Lemma set_cell_sim h0 k vl vrow (i sc c : Z) h mc :
  h0 !! vl = Some vrow ->
  cloned_in h0 k h mc ->
  outcome_rel (cloned_in h0 k)
    (MatrixHeap.set_cell (seq (length h0) k) vl i sc c h)
    (Matrix.set_cell vrow i sc c mc).
Proof.
  intros Hvl Hin. unfold MatrixHeap.set_cell, Matrix.set_cell.
  assert (h !! vl = Some vrow) as ->.
  { destruct Hin as [-> _]. by apply lookup_app_l_Some. }
  simpl. destruct (neq_undefined _); [|done].
  by apply assign_cell_sim.
Qed.

Lemma set_row_sim h0 k v vv (sr sc i : Z) h mc :
  MatrixHeap.read h0 v = Some vv ->
  cloned_in h0 k h mc ->
  outcome_rel (cloned_in h0 k)
    (MatrixHeap.set_row (seq (length h0) k) v sr sc i h)
    (Matrix.set_row vv sr sc i mc).
Proof.
  intros Hv Hin. apply read_Forall2 in Hv.
  unfold MatrixHeap.set_row, Matrix.set_row, index_row.
  destruct (Z.ltb_spec (i - sr) 0); [done|].
  destruct (v !! Z.to_nat (i - sr)) as [vl|] eqn:Hvl.
  - destruct (Forall2_lookup_l _ _ _ _ _ Hv Hvl) as (vrow & -> & Hrow).
    assert (h !! vl = Some vrow) as ->.
    { destruct Hin as [-> _]. by apply lookup_app_l_Some. }
    simpl. apply for_each_sim; [|done].
    intros c s t Hst. by apply set_cell_sim.
  - assert (vv !! Z.to_nat (i - sr) = None) as ->; [|done].
    apply lookup_ge_None. apply lookup_ge_None in Hvl.
    by rewrite <- (Forall2_length _ _ _ Hv).
Qed.

Lemma setMatrixBlock_refines h m v mm vv (sr sc : Z) :
  MatrixHeap.read h m = Some mm ->
  MatrixHeap.read h v = Some vv ->
  MatrixHeap.setMatrixBlock h m sr sc v
  = (h ++ Matrix.setMatrixBlock mm sr sc vv, seq (length h) (length m)).
Proof.
  intros Hm Hv. unfold MatrixHeap.setMatrixBlock, Matrix.setMatrixBlock.
  rewrite (clone_spec m h mm Hm).
  assert (Hlm : length m = length mm).
  { apply read_Forall2 in Hm. by eapply Forall2_length. }
  assert (Hlv : length v = length vv).
  { apply read_Forall2 in Hv. by eapply Forall2_length. }
  unfold Matrix.len. rewrite Hlm, Hlv. f_equal.
  pose proof (for_each_sim (cloned_in h (length mm))
    (MatrixHeap.set_row (seq (length h) (length mm)) v
       (Matrix.resolve_index sr (Z.of_nat (length mm)))
       (Matrix.resolve_index sc (Z.of_nat (length mm))))
    (Matrix.set_row vv
       (Matrix.resolve_index sr (Z.of_nat (length mm)))
       (Matrix.resolve_index sc (Z.of_nat (length mm))))
    (loop_range (Matrix.resolve_index sr (Z.of_nat (length mm)))
       (Matrix.resolve_index sr (Z.of_nat (length mm)) + Z.of_nat (length vv))))
    as Hsim.
  specialize (Hsim (fun i s t Hst => set_row_sim h _ v vv _ _ i s t Hv Hst)
                   (h ++ mm) mm (conj eq_refl eq_refl)).
  destruct (for_each (MatrixHeap.set_row _ _ _ _) _ _),
           (for_each (Matrix.set_row _ _ _) _ _);
    simpl in *; try done; by destruct Hsim as [-> _].
Qed.
End Refine.

End MatrixFacts.

(** ** Blocks of a matrix *)

Section Blocks.
Import Js Rel MatrixFacts.
Local Open Scope Z_scope.

(** C10: [resolve_index] keeps an index that is not negative and counts a
    negative one from the end, so that -1 is the length; on an n by n matrix
    [selectMatrixBlock] with bounds in range returns the block of
    [endRow - startRow] rows of [endCol - startCol] cells whose cell [i], [j]
    is the cell [startRow + i], [startCol + j] of the matrix, and an end of
    -1 stands for [n]: the block then reaches the last row, or column. *)
Theorem selectMatrixBlock_block {A} (n : nat) (m : Matrix.matrix A) :
  Matrix.square n m ->
  (forall i l : Z,
      (0 <= i -> Matrix.resolve_index i l = i) /\
      (i < 0 -> Matrix.resolve_index i l = l + i + 1)) /\
  (forall startRow startCol endRow endCol : Z,
      0 <= startRow -> 0 <= startCol ->
      endRow = -1 \/ 0 <= endRow <= Z.of_nat n ->
      endCol = -1 \/ 0 <= endCol <= Z.of_nat n ->
      let rows := (if decide (endRow = -1) then Z.of_nat n else endRow) - startRow in
      let cols := (if decide (endCol = -1) then Z.of_nat n else endCol) - startCol in
      exists res,
        Matrix.selectMatrixBlock m startRow startCol endRow endCol = Some res /\
        Matrix.rect (Z.to_nat rows) (Z.to_nat cols) res /\
        forall i j, 0 <= i < rows -> 0 <= j < cols ->
                    Matrix.cell res i j = Matrix.cell m (startRow + i) (startCol + j)).
Proof.
  intros [Hlen Hrows]. split.
  - intros i l. unfold Matrix.resolve_index. split; intros Hi.
    + by destruct (Z.ltb_spec i 0); [lia|].
    + by destruct (Z.ltb_spec i 0); [|lia].
  - intros sr sc er ec Hsr Hsc Her Hec rows cols.
    assert (Hr : forall e, e = -1 \/ 0 <= e <= Z.of_nat n ->
                   Matrix.resolve_index e (Matrix.len m)
                   = if decide (e = -1) then Z.of_nat n else e).
    { intros e He. unfold Matrix.resolve_index, Matrix.len. rewrite Hlen.
      case_decide as Hd; [subst e; simpl; lia|].
      destruct (Z.ltb_spec e 0); [lia|done]. }
    assert (Hs : forall s, 0 <= s -> Matrix.resolve_index s (Matrix.len m) = s).
    { intros s0 H0. unfold Matrix.resolve_index.
      by destruct (Z.ltb_spec s0 0); [lia|]. }
    destruct (selectMatrixBlock_resolved m sr sc er ec) as (res & Hres & Hl & Hw & Hcell).
    + by rewrite Hs.
    + rewrite Hr by done. unfold Matrix.len. rewrite Hlen.
      case_decide; lia.
    + rewrite (Hs sr Hsr), (Hr er Her) in Hl.
      rewrite (Hs sc Hsc), (Hr ec Hec) in Hw.
      setoid_rewrite (Hs sr Hsr) in Hcell. setoid_rewrite (Hs sc Hsc) in Hcell.
      setoid_rewrite (Hr er Her) in Hcell. setoid_rewrite (Hr ec Hec) in Hcell.
      fold rows in Hl, Hcell. fold cols in Hw, Hcell.
      exists res. by repeat split.
Qed.

Lemma selectMatrixBlock_block_witness :
  Matrix.square 3 Examples.matrix3 /\
  exists res,
    Matrix.selectMatrixBlock Examples.matrix3 1 1 (-1) (-1) = Some res /\
    Matrix.rect 2 2 res /\
    forall i j, 0 <= i < 2 -> 0 <= j < 2 ->
                Matrix.cell res i j = Matrix.cell Examples.matrix3 (1 + i) (1 + j).
Proof.
  assert (H : Matrix.square 3 Examples.matrix3) by (split; [reflexivity|repeat constructor]).
  split; [exact H|].
  exact (proj2 (selectMatrixBlock_block 3 Examples.matrix3 H) 1 1 (-1) (-1)
           ltac:(lia) ltac:(lia) (or_introl eq_refl) (or_introl eq_refl)).
Defined.

(** C9, as stated, fails where the value matrix holds undefined: the cell
    of the matrix stays. *)
Lemma setMatrixBlock_undefined_cell_kept :
  MatrixHeap.read Examples.heap_undefined [0%nat] = Some [[Val "old"]] /\
  MatrixHeap.read Examples.heap_undefined [1%nat] = Some [[Undefined]] /\
  MatrixHeap.read
    (MatrixHeap.setMatrixBlock Examples.heap_undefined [0%nat] 0 0 [1%nat]).1
    (MatrixHeap.setMatrixBlock Examples.heap_undefined [0%nat] 0 0 [1%nat]).2
  = Some [[Val "old"]] /\
  Matrix.cell [[Val "old"]] 0 0 <> Matrix.cell (A := string) [[Undefined]] 0 0.
Proof. repeat split. discriminate. Qed.

(** C9, amended: for an n by n matrix [m] and a value matrix [v] of [p] rows
    of [q] cells whose block at [startRow], [startCol] lies in [m], the
    matrix that [setMatrixBlock] returns is n by n, has on the block the
    cell of [v] where that is neither undefined nor null and the cell of [m]
    where it is, and has the cell of [m] outside the block; the rows of the
    result are new arrays and no array that existed is written, so [m] and
    [v] read as before. *)
Theorem setMatrixBlock_block_frame {A} (n p q : nat)
    (h : MatrixHeap.heap A) (m v : MatrixHeap.matrix)
    (mm vv : Matrix.matrix A) (startRow startCol : Z) :
  MatrixHeap.read h m = Some mm ->
  MatrixHeap.read h v = Some vv ->
  Matrix.square n mm ->
  Matrix.rect p q vv ->
  0 <= startRow -> 0 <= startCol ->
  startRow + Z.of_nat p <= Z.of_nat n ->
  startCol + Z.of_nat q <= Z.of_nat n ->
  let h' := (MatrixHeap.setMatrixBlock h m startRow startCol v).1 in
  let m' := (MatrixHeap.setMatrixBlock h m startRow startCol v).2 in
  exists res,
    MatrixHeap.read h' m' = Some res /\
    Matrix.square n res /\
    (forall i j,
        Matrix.cell res i j
        = if decide ((startRow <= i < startRow + Z.of_nat p /\
                      startCol <= j < startCol + Z.of_nat q) /\
                     neq_undefined (Matrix.cell vv (i - startRow) (j - startCol)) = true)
          then Matrix.cell vv (i - startRow) (j - startCol)
          else Matrix.cell mm i j) /\
    (forall l, (l < length h)%nat -> h' !! l = h !! l) /\
    (forall l, l ∈ m' -> (length h <= l)%nat) /\
    NoDup m' /\
    MatrixHeap.read h' m = Some mm /\
    MatrixHeap.read h' v = Some vv.
Proof.
  intros Hm Hv Hsq Hrect Hsr Hsc Hrow Hcol h' m'.
  unfold h', m'. rewrite (setMatrixBlock_refines h m v mm vv _ _ Hm Hv). simpl.
  destruct (setMatrixBlock_cells n p q mm vv startRow startCol
              Hsq Hrect Hsr Hsc Hrow Hcol) as [Hsq' Hcell].
  exists (Matrix.setMatrixBlock mm startRow startCol vv).
  assert (Hlen : length (Matrix.setMatrixBlock mm startRow startCol vv) = length m).
  { destruct Hsq' as [-> _]. destruct Hsq as [<- _].
    apply read_Forall2 in Hm. by rewrite (Forall2_length _ _ _ Hm). }
  split; [|split; [done|split; [done|split; [|split; [|split; [|split]]]]]].
  - apply read_Forall2. apply Forall2_same_length_lookup_2.
    + by rewrite length_seq.
    + intros i l r Hl Hr. apply lookup_seq in Hl as [-> Hlt].
      rewrite lookup_app_r by lia.
      by replace (length h + i - length h)%nat with i by lia.
  - intros l Hl. by rewrite lookup_app_l.
  - intros l Hl. apply elem_of_seq in Hl. lia.
  - apply NoDup_seq.
  - by apply read_app.
  - by apply read_app.
Qed.

Lemma setMatrixBlock_block_frame_witness :
  exists res,
    MatrixHeap.read
      (MatrixHeap.setMatrixBlock Examples.heap_null [0; 1]%nat 1 0 [2%nat]).1
      (MatrixHeap.setMatrixBlock Examples.heap_null [0; 1]%nat 1 0 [2%nat]).2
    = Some res /\
    Matrix.square 2 res /\
    Matrix.cell res 1 0 = Val 9 /\ Matrix.cell res 1 1 = Val 4.
Proof.
  destruct (setMatrixBlock_block_frame 2 1 2 Examples.heap_null [0; 1]%nat [2%nat]
              [[Val 1; Val 2]; [Val 3; Val 4]] [[Val 9; Null]] 1 0
              eq_refl eq_refl
              ltac:(split; [reflexivity|repeat constructor])
              ltac:(split; [reflexivity|repeat constructor])
              ltac:(lia) ltac:(lia) ltac:(lia) ltac:(lia))
    as (res & Hres & Hsq & Hcell & _).
  exists res. split; [exact Hres|]. split; [exact Hsq|].
  split; rewrite Hcell; reflexivity.
Defined.

End Blocks.

(** ** Timers *)

Module TimerFacts.
Import Any LiveApi Helpers Rel.

Section Queue.
Context {Cb : Type}.
Implicit Types (q : list (Timers.timer Cb)) (t : Timers.timer Cb).

Lemma enqueue_last t q :
  Forall (fun t' => (Timers.due t' <= Timers.due t)%N) q ->
  Timers.enqueue t q = q ++ [t].
Proof.
  induction 1 as [|t' q Ht' _ IH]; [done|].
  simpl. destruct (N.leb_spec (Timers.due t') (Timers.due t)); [|lia].
  by rewrite IH.
Qed.

Lemma split_due_spec (T : N) q :
  Timers.callback <$> q
  = (Timers.split_due T q).1 ++ (Timers.callback <$> (Timers.split_due T q).2)
  /\ (Timers.split_due T q).2 ⊆ q.
Proof.
  induction q as [|t' q [IH1 IH2]]; [done|].
  simpl. destruct (_ <=? _)%N; [|done].
  destruct (Timers.split_due T q) as [fired later]. simpl in *.
  split; [by f_equal|]. by apply list_subseteq_cons.
Qed.

Lemma split_due_all (T : N) q :
  Forall (fun t' => (Timers.due t' <= T)%N) q ->
  Timers.split_due T q = (Timers.callback <$> q, []).
Proof.
  induction 1 as [|t' q Ht' _ IH]; [done|].
  simpl. destruct (N.leb_spec (Timers.due t') T); [|lia]. by rewrite IH.
Qed.

Lemma last_due_bound (T : N) q :
  (T <= Timers.last_due T q)%N /\
  Forall (fun t' => (Timers.due t' <= Timers.last_due T q)%N) q.
Proof.
  induction q as [|t' q [IH1 IH2]]; [split; [simpl; lia|done]|].
  simpl. split; [lia|]. constructor; [lia|].
  eapply Forall_impl; [exact IH2|]. simpl. intros; lia.
Qed.

Lemma enqueue_elem t q : t ∈ Timers.enqueue t q.
Proof.
  induction q as [|t' q IH]; simpl; [set_solver|].
  destruct (_ <=? _)%N; set_solver.
Qed.

Lemma drain_spec (l : Timers.loop Cb) :
  (Timers.drain l).1 = Timers.callback <$> Timers.queue l /\
  Timers.queue (Timers.drain l).2 = [].
Proof.
  unfold Timers.drain, Timers.elapse.
  destruct (last_due_bound (Timers.now l) (Timers.queue l)) as [H1 H2].
  replace (Timers.now l + (Timers.last_due (Timers.now l) (Timers.queue l) - Timers.now l))%N
    with (Timers.last_due (Timers.now l) (Timers.queue l)) by lia.
  by rewrite split_due_all.
Qed.
End Queue.

Section RuntimeFacts.
Context {Args Handler C : Type} `{!LiveClient Handler C}.
Implicit Types (rt : runtime Args C) (rs : list (request Args)).

Lemma run_callbacks_app (a b : list (callback Args)) (c : C) :
  run_callbacks (a ++ b) c = run_callbacks b (run_callbacks a c).
Proof. apply foldl_app. Qed.

Lemma settle_eventually rt : rt_client (settle rt) = eventually rt.
Proof.
  unfold settle, eventually.
  destruct (drain_spec (rt_loop rt)) as [H1 _].
  destruct (Timers.drain (rt_loop rt)) as [fired loop']. simpl in *. by subst.
Qed.

Lemma setTimeout_timely delay cb rt :
  timely delay rt ->
  Timers.queue (Timers.setTimeout cb delay (rt_loop rt))
  = Timers.queue (rt_loop rt) ++ [Timers.mkTimer (Timers.now (rt_loop rt) + delay)%N cb].
Proof.
  intros H. unfold Timers.setTimeout. simpl.
  exact (enqueue_last (Timers.mkTimer (Timers.now (rt_loop rt) + delay)%N cb) _ H).
Qed.

Lemma serve_spec delay rt (r : request Args) :
  timely delay rt ->
  timely delay (serve delay rt r) /\
  eventually (serve delay rt r) = run_callbacks (closures_of [r]) (eventually rt).
Proof.
  intros Ht. destruct r as [tc resp|text|dt]; simpl.
  - pose proof (setTimeout_timely delay (CbSendToolResponse tc resp) rt Ht) as Hq.
    unfold timely, eventually, sendToolResponse_after in *.
    cbn [rt_loop rt_client]. rewrite Hq. split.
    + apply Forall_app. split; [done|]. by repeat constructor.
    + by rewrite fmap_app, run_callbacks_app.
  - pose proof (setTimeout_timely delay (CbSend text) rt Ht) as Hq.
    unfold timely, eventually, sendUserMessage_after in *.
    cbn [rt_loop rt_client]. rewrite Hq. split.
    + apply Forall_app. split; [done|]. by repeat constructor.
    + by rewrite fmap_app, run_callbacks_app.
  - unfold elapse, Timers.elapse, timely, eventually in *.
    destruct (split_due_spec (Timers.now (rt_loop rt) + dt) (Timers.queue (rt_loop rt)))
      as [H1 H2].
    destruct (Timers.split_due _ _) as [fired later]. simpl in *. split.
    + eapply Forall_impl.
      * eapply Forall_forall. intros t Hin. 
        exact (proj1 (Forall_forall _ _) Ht t (H2 t Hin)).
      * simpl. intros; lia.
    + rewrite H1, run_callbacks_app. done.
Qed.

Lemma serve_all_spec delay rs : forall rt,
  timely delay rt ->
  timely delay (serve_all delay rt rs) /\
  eventually (serve_all delay rt rs) = run_callbacks (closures_of rs) (eventually rt).
Proof.
  induction rs as [|r rs IH]; intros rt Ht; [done|].
  simpl. destruct (serve_spec delay rt r Ht) as [Ht1 He1].
  destruct (IH _ Ht1) as [Ht2 He2]. split; [done|].
  rewrite He2, He1. unfold closures_of at 3. simpl.
  destruct r; simpl; done.
Qed.

Lemma settle_serve_all delay rs (t : N) (c : C) :
  rt_client (settle (serve_all delay (idle t c) rs))
  = run_callbacks (closures_of rs) c.
Proof.
  rewrite settle_eventually.
  destruct (serve_all_spec delay rs (idle t c)) as [_ ->]; [by constructor|].
  done.
Qed.
End RuntimeFacts.

End TimerFacts.

(** ** The helpers and their timers *)

Section Deferred.
Import Any LiveApi Helpers Rel TimerFacts.

(** C3: a call of [sendToolResponse] or of [sendUserMessage] leaves the
    client as it is and puts a timer in the queue, due after the delay, that
    holds the call; and whatever the delay is, once the timers have fired the
    client has received the calls of the requests, each with its content, in
    the order of the requests: what is sent is what the delay of the source
    sends. *)
Theorem sends_are_deferred {Args Handler C} `{!LiveClient Handler C} (delay : N) :
  (forall (rt : runtime Args C) toolCall response,
      let rt' := serve delay rt (ToolResponseRequest toolCall response) in
      rt_client rt' = rt_client rt /\
      Timers.mkTimer (Timers.now (rt_loop rt) + delay)%N
                     (CbSendToolResponse toolCall response)
        ∈ Timers.queue (rt_loop rt')) /\
  (forall (rt : runtime Args C) text,
      let rt' := serve delay rt (UserMessageRequest text) in
      rt_client rt' = rt_client rt /\
      Timers.mkTimer (Timers.now (rt_loop rt) + delay)%N (CbSend text)
        ∈ Timers.queue (rt_loop rt')) /\
  (forall (rs : list (request Args)) (t : N) (c : C),
      rt_client (settle (serve_all delay (idle t c) rs))
      = run_callbacks (closures_of rs) c /\
      rt_client (settle (serve_all delay (idle t c) rs))
      = rt_client (settle (serve_all delay_ms (idle t c) rs))).
Proof.
  split; [|split].
  - intros rt tc r. simpl. split; [done|]. apply enqueue_elem.
  - intros rt text. simpl. split; [done|]. apply enqueue_elem.
  - intros rs t c. by rewrite !settle_serve_all.
Qed.

(** C2: after the helper has been called once for a tool call whose one
    invocation has the id [i] (in the scenario, "a") with a payload (in the
    scenario, the object with result 42), and the timers have fired, the
    client has received one call, a tool response whose list is the one
    entry with that payload and that id; one ToolResponse message goes
    out. *)
Theorem one_tool_response {Args Handler} (i n : string) (a : Args)
    (payload : any) (t : N) (default_endOfTurn : bool) :
  let toolCall := mkToolCall [mkFunctionCall i n a] in
  let log : list (client_call Handler) :=
    rt_client (settle (serve_all delay_ms (idle t [])
                         [ToolResponseRequest toolCall payload])) in
  log = [SendToolResponse [mkFunctionResponse payload i]] /\
  tool_response_frames log = [[mkFunctionResponse payload i]] /\
  omap (Core.message_of_call default_endOfTurn) log
  = [Core.ToolResponse [mkFunctionResponse payload i]].
Proof.
  intros toolCall log. unfold log. rewrite settle_serve_all. done.
Qed.

(** The scenario of C2 as it is written. *)
Example tool_response_scenario :
  rt_client (C := list (client_call unit))
    (settle (serve_all delay_ms (idle 0%N [])
       [ToolResponseRequest (mkToolCall [mkFunctionCall "a" "f" ()])
          (AObj [("result", ANum 42)])]))
  = [SendToolResponse [mkFunctionResponse (AObj [("result", ANum 42)]) "a"]].
Proof. reflexivity. Qed.

Lemma filter_id_absent {Args} (fcs : list (FunctionCall Args)) (payload : any)
    (i : string) :
  i ∉ id <$> fcs ->
  filter (fun fr => response_id fr = i)
         ((fun fc => mkFunctionResponse payload (id fc)) <$> fcs) = [].
Proof.
  induction fcs as [|fc fcs IH]; intros Hnot; [done|].
  simpl in *. apply not_elem_of_cons in Hnot as [Hne Hnot].
  rewrite filter_cons_False by (simpl; congruence). by apply IH.
Qed.

Lemma filter_id_once {Args} (fcs : list (FunctionCall Args)) (payload : any)
    (i : string) :
  NoDup (id <$> fcs) -> i ∈ id <$> fcs ->
  length (filter (fun fr => response_id fr = i)
            ((fun fc => mkFunctionResponse payload (id fc)) <$> fcs)) = 1%nat.
Proof.
  induction fcs as [|fc fcs IH]; intros Hnd Hin; simpl in *.
  - by apply elem_of_nil in Hin.
  - apply NoDup_cons in Hnd as [Hfresh Hnd].
    destruct (decide (id fc = i)) as [Heq|Hne].
    + rewrite filter_cons_True by done. simpl.
      rewrite filter_id_absent; [done|]. by rewrite <- Heq.
    + rewrite filter_cons_False by done. apply IH; [done|].
      apply elem_of_cons in Hin as [?|?]; [congruence|done].
Qed.

(** One call of the helper for a batch whose ids are distinct sends one
    entry for each id of the batch. *)
Lemma helper_answers_each_id_once {Args Handler} (toolCall : ToolCall Args)
    (payload : any) (t : N) (i : string) :
  NoDup (id <$> functionCalls toolCall) ->
  i ∈ id <$> functionCalls toolCall ->
  length (filter (fun fr => response_id fr = i)
            (tool_responses
               (rt_client (C := list (client_call Handler))
                  (settle (serve_all delay_ms (idle t [])
                             [ToolResponseRequest toolCall payload])))))
  = 1%nat.
Proof.
  intros Hnd Hin. rewrite settle_serve_all. simpl.
  rewrite (right_id [] app). by apply filter_id_once.
Qed.


(** What the source fixes of a user message: a call of [sendUserMessage]
    with the text [t] makes, once its timer has fired, one call of [send]
    on the client, with the one part whose text is [t] and without the
    second argument.  The flag of the ClientContent message that goes out
    is then the default of the client's [send], whatever it is: the source
    passes none, and the client is not part of the source. *)
Lemma user_message_flag_is_default (default_endOfTurn : bool)
    (Args Handler : Type) (text : string) (t : N) :
  let log : list (client_call Handler) :=
    rt_client (settle (serve_all (Args := Args) delay_ms (idle t [])
                         [UserMessageRequest text])) in
  log = [Send [mkPart text] None] /\
  omap (Core.message_of_call default_endOfTurn) log
  = [Core.ClientContent [mkPart text] default_endOfTurn].
Proof.
  intros log. unfold log. rewrite settle_serve_all. done.
Qed.

End Deferred.

(** Membership in a list that is written out. *)
Ltac elem_of_list :=
  repeat first [apply list_elem_of_here | apply list_elem_of_further].

(** Absence from a list of strings that is written out. *)
Ltac not_elem_of_list :=
  let H := fresh in
  intros H;
  repeat (apply elem_of_cons in H as [H|H]; [discriminate H|]);
  by apply elem_of_nil in H.

(** ** The client as a log of calls *)

Module ReplayFacts.
Import Any LiveApi Helpers Component Rel.

Section Replay.
Context {Handler C : Type} `{!LiveClient Handler C}.
Implicit Types (log : list (client_call Handler)).

Lemma replay_snoc log call (c : C) :
  replay (log ++ [call]) c = apply_call (replay log c) call.
Proof. unfold replay. by rewrite foldl_app. Qed.

Lemma run_callback_replay {Args} (cb : callback Args) log (c : C) :
  run_callback cb (replay log c) = replay (run_callback cb log) c.
Proof. destruct cb; simpl; by rewrite replay_snoc. Qed.

Lemma run_callbacks_replay {Args} (cbs : list (callback Args)) : forall log (c : C),
  run_callbacks cbs (replay log c) = replay (run_callbacks cbs log) c.
Proof.
  induction cbs as [|cb cbs IH]; intros log c; [done|].
  simpl. rewrite run_callback_replay. apply IH.
Qed.

Lemma replay_invariant (I : C -> Prop) :
  (forall ch h c, I c -> I (client_on ch h c)) ->
  (forall ch h c, I c -> I (client_off ch h c)) ->
  (forall ps tc c, I c -> I (client_send ps tc c)) ->
  (forall frs c, I c -> I (client_sendToolResponse frs c)) ->
  forall log c, I c -> I (replay log c).
Proof.
  intros Hon Hoff Hsend Hresp log. unfold replay.
  induction log as [|call log IH]; intros c Hc; [done|].
  simpl. apply IH. destruct call; simpl; auto.
Qed.
End Replay.

End ReplayFacts.

(** ** Commits *)

Module ReactFacts.
Import Any LiveApi Helpers Component Rel.

Section Commit.
Context {Act : Type}.
Implicit Types (prev rendered : list (React.effect Act)).

Lemma Forall_bind {X Y} (P : Y -> Prop) (f : X -> list Y) (l : list X) :
  Forall (fun x => Forall P (f x)) l -> Forall P (l ≫= f).
Proof.
  induction 1 as [|x l Hx _ IH]; [done|].
  rewrite bind_cons. apply Forall_app. done.
Qed.

Lemma commit_all (Q : Act -> Prop) pending rendered :
  from_option (Forall (React.effect_all Q)) True pending ->
  Forall (React.effect_all Q) rendered ->
  Forall Q (React.commit pending rendered).1 /\
  Forall (React.effect_all Q) (React.commit pending rendered).2.
Proof.
  intros Hprev Hren. destruct pending as [prev|]; simpl in *.
  - assert (Hz : Forall (fun pc => React.effect_all Q pc.1 /\ React.effect_all Q pc.2)
                        (zip prev rendered)).
    { revert rendered Hren. induction Hprev as [|p prev Hp _ IH];
        intros rendered Hren; [done|].
      destruct Hren as [|r rendered Hr Hren]; [done|].
      simpl. constructor; [done|]. by apply IH. }
    split.
    + unfold React.rerun. apply Forall_app. split; apply Forall_bind;
        (eapply Forall_impl; [exact Hz|]);
        intros [p c] [[??] [??]]; simpl in *; by destruct (React.changed p c).
    + unfold React.retained. apply Forall_fmap.
      eapply Forall_impl; [exact Hz|].
      intros [p c] [??]; simpl in *. by destruct (React.changed p c).
  - split; [|done]. apply Forall_bind.
    eapply Forall_impl; [exact Hren|]. by intros e [??].
Qed.

Lemma unmount_all (Q : Act -> Prop) prev :
  Forall (React.effect_all Q) prev -> Forall Q (React.unmount prev).
Proof.
  intros H. apply Forall_bind. eapply Forall_impl; [exact H|]. by intros e [??].
Qed.
End Commit.

End ReactFacts.

(** ** The Memento component *)

Module MementoFacts.
Import Any LiveApi Helpers Component Rel Memento ReplayFacts ReactFacts.

Section Lift.
Context {FS C : Type} `{!FileSystem FS} `{!LiveClient handler C}.
Variable c0 : C.

Local Abbreviation lift := (Memento.lift (FS := FS) c0).

Lemma memento_respond_lift tc r wr : respond tc r (lift wr) = lift (respond tc r wr).
Proof. done. Qed.

Lemma memento_on_call_now_lift tc wr fc :
  on_call_now tc (lift wr) fc = lift (on_call_now tc wr fc).
Proof. unfold on_call_now. by destruct (String.eqb _ _). Qed.

Lemma memento_on_call_later_lift tc wr fc :
  on_call_later tc (lift wr) fc = lift (on_call_later tc wr fc).
Proof.
  unfold on_call_later.
  repeat (destruct (String.eqb _ _); [try done|]); try done.
  - simpl. by destruct (listFilesInCurrentFolder _).
  - simpl. by destruct (writeToFile _ _ _ _).
  - simpl. by destruct (readTxtFile _ _) as [[??]|].
Qed.

Lemma memento_foldl_lift {X} (f : world FS C -> X -> world FS C)
    (g : world FS (list (client_call handler)) -> X -> _) (xs : list X) :
  (forall wr x, f (lift wr) x = lift (g wr x)) ->
  forall wr, foldl f (lift wr) xs = lift (foldl g wr xs).
Proof.
  intros H. induction xs as [|x xs IH]; intros wr; [done|].
  simpl. by rewrite H, IH.
Qed.

Lemma memento_onToolCall_lift tc wr : onToolCall tc (lift wr) = lift (onToolCall tc wr).
Proof.
  unfold onToolCall.
  rewrite (memento_foldl_lift _ (on_call_now tc)) by apply memento_on_call_now_lift.
  by rewrite (memento_foldl_lift _ (on_call_later tc)) by apply memento_on_call_later_lift.
Qed.

Lemma memento_perform_lift wr a : perform (lift wr) a = lift (perform wr a).
Proof.
  destruct a; try done; unfold lift, with_client; simpl;
    by rewrite replay_snoc.
Qed.

Lemma memento_step_lift wr e : step (lift wr) e = lift (step wr e).
Proof.
  destruct e as [ctx| |tc|dt]; simpl.
  - destruct (React.commit (pending wr) (effects ctx)) as [acts p'].
    by rewrite (memento_foldl_lift _ perform) by apply memento_perform_lift.
  - destruct (pending wr) as [p|]; [|done].
    by rewrite (memento_foldl_lift _ perform) by apply memento_perform_lift.
  - destruct (pending wr); [|done]. apply memento_onToolCall_lift.
  - destruct (Timers.elapse dt (loop wr)) as [fired loop'].
    unfold lift, with_client. simpl. by rewrite run_callbacks_replay.
Qed.

Lemma memento_run_lift es : forall wr, run (lift wr) es = lift (run wr es).
Proof. apply memento_foldl_lift, memento_step_lift. Qed.

Lemma memento_run_initial_lift fs es :
  run (initial fs c0) es = lift (run (initial fs []) es).
Proof. by rewrite <- memento_run_lift. Qed.
End Lift.

Lemma memento_effects_expected ctx : Forall (React.effect_all expected) (effects ctx).
Proof. repeat constructor. Qed.

Section Invariant.
Context {FS : Type} `{!FileSystem FS}.
Abbreviation log := (list (client_call handler)).

Lemma memento_on_call_now_frame {C} tc (w : world FS C) fc :
  client (on_call_now tc w fc) = client w /\
  configs (on_call_now tc w fc) = configs w /\
  pending (on_call_now tc w fc) = pending w.
Proof. unfold on_call_now. by destruct (String.eqb _ _). Qed.

Lemma memento_on_call_later_frame {C} tc (w : world FS C) fc :
  client (on_call_later tc w fc) = client w /\
  configs (on_call_later tc w fc) = configs w /\
  pending (on_call_later tc w fc) = pending w.
Proof.
  unfold on_call_later.
  repeat (destruct (String.eqb _ _); [try done|]); try done.
  - by destruct (listFilesInCurrentFolder _).
  - by destruct (writeToFile _ _ _ _).
  - by destruct (readTxtFile _ _) as [[??]|].
Qed.

Lemma memento_foldl_frame {C X} (f : world FS C -> X -> world FS C) (xs : list X) :
  (forall w x, client (f w x) = client w /\ configs (f w x) = configs w /\
               pending (f w x) = pending w) ->
  forall w, client (foldl f w xs) = client w /\
            configs (foldl f w xs) = configs w /\
            pending (foldl f w xs) = pending w.
Proof.
  intros H. induction xs as [|x xs IH]; intros w; [done|].
  simpl. destruct (IH (f w x)) as (-> & -> & ->). apply H.
Qed.

Lemma memento_onToolCall_frame {C} tc (w : world FS C) :
  client (onToolCall tc w) = client w /\
  configs (onToolCall tc w) = configs w /\
  pending (onToolCall tc w) = pending w.
Proof.
  unfold onToolCall.
  destruct (memento_foldl_frame (on_call_later tc) (functionCalls tc)
              (memento_on_call_later_frame tc)
              (foldl (on_call_now tc) w (functionCalls tc))) as (-> & -> & ->).
  apply memento_foldl_frame, memento_on_call_now_frame.
Qed.

Lemma memento_perform_all_wf acts : forall w : world FS log,
  Forall expected acts ->
  Forall (on_channel "toolcall") (client w) ->
  Forall (fun c => c = config) (configs w) ->
  Forall (on_channel "toolcall") (client (foldl perform w acts)) /\
  Forall (fun c => c = config) (configs (foldl perform w acts)) /\
  pending (foldl perform w acts) = pending w.
Proof.
  induction acts as [|a acts IH]; intros w Hacts Hc Hcfg; [done|].
  apply Forall_cons in Hacts as [Ha Hacts]. simpl.
  destruct (IH (perform w a) Hacts) as (? & ? & ->).
  - destruct a; simpl in *; try done;
      apply Forall_app; split; try done; by repeat constructor.
  - destruct a; simpl in *; try done.
    apply Forall_app; split; try done; by repeat constructor.
  - split; [done|]. split; [done|]. by destruct a.
Qed.

Lemma memento_run_callbacks_channel (cbs : list (callback Args)) : forall (l : log),
  Forall (on_channel "toolcall") l ->
  Forall (on_channel "toolcall") (run_callbacks cbs l).
Proof.
  induction cbs as [|cb cbs IH]; intros l Hl; [done|].
  simpl. apply IH. destruct cb; simpl; apply Forall_app; split; try done;
    by repeat constructor.
Qed.

Lemma memento_step_wf (w : world FS log) e : wf w -> wf (step w e).
Proof.
  intros (Hc & Hcfg & Hp). destruct e as [ctx| |tc|dt]; simpl.
  - destruct (commit_all expected (pending w) (effects ctx) Hp
                (memento_effects_expected ctx)) as [Hacts Hp'].
    destruct (React.commit (pending w) (effects ctx)) as [acts p']. simpl in *.
    destruct (memento_perform_all_wf acts w Hacts Hc Hcfg) as (? & ? & _).
    by repeat split.
  - destruct (pending w) as [p|] eqn:Hpw; [|by repeat split; rewrite ?Hpw].
    simpl in *.
    destruct (memento_perform_all_wf (React.unmount p) w (unmount_all _ _ Hp) Hc Hcfg)
      as (? & ? & _).
    by repeat split.
  - destruct (pending w) as [p|] eqn:Hpw; [|by repeat split; rewrite ?Hpw].
    destruct (memento_onToolCall_frame tc w) as (E1 & E2 & E3).
    unfold wf. rewrite E1, E2, E3, Hpw. done.
  - destruct (Timers.elapse dt (loop w)) as [fired loop'].
    repeat split; simpl; try done. by apply memento_run_callbacks_channel.
Qed.

Lemma memento_run_wf es : forall w : world FS log, wf w -> wf (run w es).
Proof.
  induction es as [|e es IH]; intros w Hw; [done|].
  simpl. apply IH. by apply memento_step_wf.
Qed.

Lemma memento_initial_wf (fs : FS) : wf (initial fs []).
Proof. by repeat split. Qed.

Lemma memento_perform_no_config {C} `{!LiveClient handler C} acts : forall (w : world FS C),
  Forall (fun a => is_set_config a = false) acts ->
  configs (foldl perform w acts) = configs w.
Proof.
  induction acts as [|a acts IH]; intros w Hacts; [done|].
  apply Forall_cons in Hacts as [Ha Hacts]. simpl.
  rewrite IH by done. by destruct a.
Qed.

Lemma memento_step_render {C} `{!LiveClient handler C} (w : world FS C) ctx :
  configs (step w (Render ctx))
  = configs (foldl perform w (React.commit (pending w) (effects ctx)).1) /\
  pending (step w (Render ctx))
  = Some (React.commit (pending w) (effects ctx)).2.
Proof. simpl. by destruct (React.commit _ _). Qed.

Lemma memento_commit_same_setConfig e1 e2 ctx :
  React.deps e1 = [setConfig_id ctx] ->
  let e2' := React.mkEffect [client_id ctx]
               [ClientOn "toolcall" OnToolCall] [ClientOff "toolcall" OnToolCall] in
  React.commit (Some [e1; e2]) (effects ctx)
  = (if React.changed e2 e2' then React.cleanup e2 ++ React.run e2' else [],
     [e1; if React.changed e2 e2' then e2' else e2]).
Proof.
  intros Hd e2'. unfold React.commit, React.rerun, React.retained, effects.
  cbn [zip zip_with mbind list_bind fmap list_fmap].
  fold e2'. unfold React.changed at 1 3 5. rewrite Hd. cbn [React.deps].
  rewrite bool_decide_eq_false_2 by (intros H; by apply H).
  destruct (React.changed e2 e2'); by rewrite ?(right_id [] app).
Qed.

Lemma memento_step_supplied {C} `{!LiveClient handler C} ctx0 (w : world FS C) e :
  in_session ctx0 e -> supplied ctx0 w -> supplied ctx0 (step w e).
Proof.
  intros He (Hcfg & e1 & e2 & Hp & Hd & Hr & Hcl).
  destruct e as [ctx| |tc|dt]; cbn [in_session] in He.
  - destruct (memento_step_render w ctx) as [E1 E2]. unfold supplied.
    rewrite E1, E2, Hp, memento_commit_same_setConfig by congruence.
    cbn [fst snd]. split.
    + rewrite memento_perform_no_config; [done|].
      destruct (React.changed e2 _); [|done].
      apply Forall_app. split; [done|]. by repeat constructor.
    + eexists _, _. split; [done|]. split; [done|].
      destruct (React.changed e2 _); [|done]. by repeat constructor.
  - done.
  - cbn [step]. rewrite Hp. destruct (memento_onToolCall_frame tc w) as (_ & E2 & E3).
    unfold supplied. rewrite E2, E3. split; [done|]. by eexists _, _.
  - cbn [step]. destruct (Timers.elapse dt (loop w)) as [fired loop'].
    split; [done|]. by eexists _, _.
Qed.

Lemma memento_run_supplied {C} `{!LiveClient handler C} ctx0 es : forall (w : world FS C),
  Forall (in_session ctx0) es -> supplied ctx0 w -> supplied ctx0 (run w es).
Proof.
  induction es as [|e es IH]; intros w Hes Hw; [done|].
  apply Forall_cons in Hes as [He Hes]. simpl. apply IH; [done|].
  by apply memento_step_supplied.
Qed.

Lemma memento_mount_supplied {C} `{!LiveClient handler C} ctx0 fs (c : C) :
  supplied ctx0 (step (initial fs c) (Render ctx0)).
Proof. split; [done|]. eexists _, _. repeat split; by repeat constructor. Qed.
End Invariant.

(** An invocation of a function that the component does not declare runs
    no branch of the handler. *)
Lemma memento_undeclared_call_dropped {FS C} `{!FileSystem FS} tc (w : world FS C) fc :
  name fc ∉ declared_names ->
  on_call_now tc w fc = w /\ on_call_later tc w fc = w.
Proof.
  intros Hn. unfold on_call_now, on_call_later.
  repeat match goal with
         | |- context [String.eqb ?a ?b] =>
             destruct (String.eqb_spec a b) as [Heq|_];
             [exfalso; apply Hn; rewrite Heq; vm_compute; elem_of_list|]
         end.
  done.
Qed.

Lemma memento_undeclared_batch_dropped {FS C} `{!FileSystem FS} tc (w : world FS C) :
  Forall (fun fc => name fc ∉ declared_names) (functionCalls tc) ->
  onToolCall tc w = w.
Proof.
  intros Hall. unfold onToolCall.
  assert (Hfold : forall f, (forall fc, name fc ∉ declared_names -> f w fc = w) ->
                            foldl f w (functionCalls tc) = w).
  { intros f Hf. induction Hall as [|fc fcs Hfc _ IH]; [done|].
    simpl. by rewrite Hf. }
  rewrite (Hfold (on_call_now tc)); [|intros fc Hfc; by apply memento_undeclared_call_dropped].
  apply Hfold. intros fc Hfc. by apply memento_undeclared_call_dropped.
Qed.

End MementoFacts.

(** ** The GeminiMatrix component *)

Module GeminiMatrixFacts.
Import Any LiveApi Helpers Component Rel GeminiMatrix ReplayFacts ReactFacts.

Section Lift.
Context {C : Type} `{!Host} `{!LiveClient handler C}.
Variable c0 : C.

Local Abbreviation lift := (GeminiMatrix.lift c0).

Lemma matrix_on_call_now_lift h tc wr fc :
  on_call_now h tc (lift wr) fc = lift (on_call_now h tc wr fc).
Proof.
  unfold on_call_now. destruct h as [d s].
  repeat (destruct (String.eqb _ _); [try done|]); try done.
  - by destruct (mapM _ _).
  - by destruct (Matrix.selectMatrixBlock _ _ _ _ _).
  - by destruct (Matrix.selectMatrixBlock _ _ _ _ _).
Qed.

Lemma matrix_on_call_later_lift tc wr fc :
  on_call_later tc (lift wr) fc = lift (on_call_later tc wr fc).
Proof.
  unfold on_call_later. destruct (String.eqb _ _); [|done].
  by destruct (chat _).
Qed.

Lemma matrix_foldl_lift {X} (f : world C -> X -> world C)
    (g : world (list (client_call handler)) -> X -> _) (xs : list X) :
  (forall wr x, f (lift wr) x = lift (g wr x)) ->
  forall wr, foldl f (lift wr) xs = lift (foldl g wr xs).
Proof.
  intros Hf. induction xs as [|x xs IH]; intros wr; [done|].
  simpl. by rewrite Hf, IH.
Qed.

Lemma matrix_onToolCall_lift h tc wr :
  onToolCall h tc (lift wr) = lift (onToolCall h tc wr).
Proof.
  unfold onToolCall.
  rewrite (matrix_foldl_lift _ (on_call_now h tc)) by apply matrix_on_call_now_lift.
  by rewrite (matrix_foldl_lift _ (on_call_later tc)) by apply matrix_on_call_later_lift.
Qed.

Lemma matrix_perform_lift wr a : perform (lift wr) a = lift (perform wr a).
Proof.
  destruct a; try done; unfold lift, with_client; simpl;
    by rewrite replay_snoc.
Qed.

Lemma matrix_step_lift wr e : step (lift wr) e = lift (step wr e).
Proof.
  destruct e as [ctx| |tc|r c|r c v|dt]; cbn [step].
  - change (pending (lift wr)) with (pending wr).
    change (effects ctx (lift wr)) with (effects ctx wr).
    destruct (React.commit (pending wr) (effects ctx wr)) as [acts p'].
    by rewrite (matrix_foldl_lift _ perform) by apply matrix_perform_lift.
  - change (pending (lift wr)) with (pending wr).
    destruct (pending wr) as [p|]; [|done].
    by rewrite (matrix_foldl_lift _ perform) by apply matrix_perform_lift.
  - change (pending (lift wr)) with (pending wr).
    destruct (pending wr) as [p|]; [|done].
    apply matrix_foldl_lift. intros w h. apply matrix_onToolCall_lift.
  - done.
  - done.
  - change (loop (lift wr)) with (loop wr).
    destruct (Timers.elapse dt (loop wr)) as [fired loop'].
    unfold lift, with_client. simpl. by rewrite run_callbacks_replay.
Qed.

Lemma matrix_run_lift es : forall wr, run (lift wr) es = lift (run wr es).
Proof. apply matrix_foldl_lift, matrix_step_lift. Qed.

Lemma matrix_run_initial_lift es :
  run (initial c0) es = lift (run (initial []) es).
Proof. by rewrite <- matrix_run_lift. Qed.
End Lift.

Lemma matrix_effects_expected {C} ctx (w : world C) :
  Forall (React.effect_all expected) (effects ctx w).
Proof. repeat constructor. Qed.

Section Invariant.
Context `{!Host}.
Abbreviation log := (list (client_call handler)).

Lemma matrix_on_call_now_frame {C} h tc (w : world C) fc :
  client (on_call_now h tc w fc) = client w /\
  configs (on_call_now h tc w fc) = configs w /\
  pending (on_call_now h tc w fc) = pending w.
Proof.
  unfold on_call_now. destruct h as [d s].
  repeat (destruct (String.eqb _ _); [try done|]); try done.
  - by destruct (mapM _ _).
  - by destruct (Matrix.selectMatrixBlock _ _ _ _ _).
  - by destruct (Matrix.selectMatrixBlock _ _ _ _ _).
Qed.

Lemma matrix_on_call_later_frame {C} tc (w : world C) fc :
  client (on_call_later tc w fc) = client w /\
  configs (on_call_later tc w fc) = configs w /\
  pending (on_call_later tc w fc) = pending w.
Proof.
  unfold on_call_later. destruct (String.eqb _ _); [|done].
  by destruct (chat _).
Qed.

Lemma matrix_foldl_frame {C X} (f : world C -> X -> world C) (xs : list X) :
  (forall w x, client (f w x) = client w /\ configs (f w x) = configs w /\
               pending (f w x) = pending w) ->
  forall w, client (foldl f w xs) = client w /\
            configs (foldl f w xs) = configs w /\
            pending (foldl f w xs) = pending w.
Proof.
  intros Hf. induction xs as [|x xs IH]; intros w; [done|].
  simpl. destruct (IH (f w x)) as (-> & -> & ->). apply Hf.
Qed.

Lemma matrix_onToolCall_frame {C} h tc (w : world C) :
  client (onToolCall h tc w) = client w /\
  configs (onToolCall h tc w) = configs w /\
  pending (onToolCall h tc w) = pending w.
Proof.
  unfold onToolCall.
  destruct (matrix_foldl_frame (on_call_later tc) (functionCalls tc)
              (matrix_on_call_later_frame tc)
              (foldl (on_call_now h tc) w (functionCalls tc))) as (-> & -> & ->).
  apply matrix_foldl_frame, matrix_on_call_now_frame.
Qed.

Lemma matrix_dispatch_frame {C} tc hs (w : world C) :
  client (foldl (fun w h => onToolCall h tc w) w hs) = client w /\
  configs (foldl (fun w h => onToolCall h tc w) w hs) = configs w /\
  pending (foldl (fun w h => onToolCall h tc w) w hs) = pending w.
Proof. apply matrix_foldl_frame. intros w' h. apply matrix_onToolCall_frame. Qed.

Lemma matrix_perform_all_wf acts : forall w : world log,
  Forall expected acts ->
  Forall (on_channel "toolcall") (client w) ->
  Forall (fun c => c = config) (configs w) ->
  Forall (on_channel "toolcall") (client (foldl perform w acts)) /\
  Forall (fun c => c = config) (configs (foldl perform w acts)) /\
  pending (foldl perform w acts) = pending w.
Proof.
  induction acts as [|a acts IH]; intros w Hacts Hc Hcfg; [done|].
  apply Forall_cons in Hacts as [Ha Hacts]. simpl.
  destruct (IH (perform w a) Hacts) as (? & ? & ->).
  - destruct a; simpl in *; try done;
      apply Forall_app; split; try done; by repeat constructor.
  - destruct a; simpl in *; try done.
    apply Forall_app; split; try done; by repeat constructor.
  - split; [done|]. split; [done|]. by destruct a.
Qed.

Lemma matrix_run_callbacks_channel (cbs : list (callback Args)) : forall (l : log),
  Forall (on_channel "toolcall") l ->
  Forall (on_channel "toolcall") (run_callbacks cbs l).
Proof.
  induction cbs as [|cb cbs IH]; intros l Hl; [done|].
  simpl. apply IH. destruct cb; simpl; apply Forall_app; split; try done;
    by repeat constructor.
Qed.

Lemma matrix_step_wf (w : world log) e : wf w -> wf (step w e).
Proof.
  intros (Hc & Hcfg & Hp). destruct e as [ctx| |tc|r c|r c v|dt]; cbn [step].
  - destruct (commit_all expected (pending w) (effects ctx w) Hp
                (matrix_effects_expected ctx w)) as [Hacts Hp'].
    destruct (React.commit (pending w) (effects ctx w)) as [acts p']. simpl in *.
    destruct (matrix_perform_all_wf acts w Hacts Hc Hcfg) as (? & ? & _).
    by repeat split.
  - destruct (pending w) as [p|] eqn:Hpw; [|by repeat split; rewrite ?Hpw].
    simpl in *.
    destruct (matrix_perform_all_wf (React.unmount p) w (unmount_all _ _ Hp) Hc Hcfg)
      as (? & ? & _).
    by repeat split.
  - destruct (pending w) as [p|] eqn:Hpw; [|by repeat split; rewrite ?Hpw].
    destruct (matrix_dispatch_frame tc (subscribed p) w) as (E1 & E2 & E3).
    unfold wf. rewrite E1, E2, E3, Hpw. done.
  - by repeat split.
  - by repeat split.
  - destruct (Timers.elapse dt (loop w)) as [fired loop'].
    repeat split; simpl; try done. by apply matrix_run_callbacks_channel.
Qed.

Lemma matrix_run_wf es : forall w : world log, wf w -> wf (run w es).
Proof.
  induction es as [|e es IH]; intros w Hw; [done|].
  simpl. apply IH. by apply matrix_step_wf.
Qed.

Lemma matrix_initial_wf : wf (initial []).
Proof. by repeat split. Qed.

Lemma matrix_perform_no_config {C} `{!LiveClient handler C} acts : forall (w : world C),
  Forall (fun a => is_set_config a = false) acts ->
  configs (foldl perform w acts) = configs w.
Proof.
  induction acts as [|a acts IH]; intros w Hacts; [done|].
  apply Forall_cons in Hacts as [Ha Hacts]. simpl.
  rewrite IH by done. by destruct a.
Qed.

Lemma matrix_step_render {C} `{!LiveClient handler C} (w : world C) ctx :
  configs (step w (Render ctx))
  = configs (foldl perform w (React.commit (pending w) (effects ctx w)).1) /\
  pending (step w (Render ctx))
  = Some (React.commit (pending w) (effects ctx w)).2.
Proof. simpl. by destruct (React.commit _ _). Qed.

Lemma matrix_commit_same_setConfig {C} e1 e2 ctx (w : world C) :
  React.deps e1 = [setConfig_id ctx] ->
  let h := OnToolCall (data w) (cellStyles w) in
  let e2' := React.mkEffect [client_id ctx; data_id w; cellStyles_id w]
               [ClientOn "toolcall" h] [ClientOff "toolcall" h] in
  React.commit (Some [e1; e2]) (effects ctx w)
  = (if React.changed e2 e2' then React.cleanup e2 ++ React.run e2' else [],
     [e1; if React.changed e2 e2' then e2' else e2]).
Proof.
  intros Hd h e2'. unfold React.commit, React.rerun, React.retained, effects.
  cbn [zip zip_with mbind list_bind fmap list_fmap].
  fold h. fold e2'. unfold React.changed at 1 3 5. rewrite Hd. cbn [React.deps].
  rewrite bool_decide_eq_false_2 by (intros Hne; by apply Hne).
  destruct (React.changed e2 e2'); by rewrite ?(right_id [] app).
Qed.

Lemma matrix_step_supplied {C} `{!LiveClient handler C} ctx0 (w : world C) e :
  in_session ctx0 e -> supplied ctx0 w -> supplied ctx0 (step w e).
Proof.
  intros He (Hcfg & e1 & e2 & Hp & Hd & Hr & Hcl).
  destruct e as [ctx| |tc|r c|r c v|dt]; cbn [in_session] in He.
  - destruct (matrix_step_render w ctx) as [E1 E2]. unfold supplied.
    rewrite E1, E2, Hp, matrix_commit_same_setConfig by congruence.
    cbn [fst snd]. split.
    + rewrite matrix_perform_no_config; [done|].
      destruct (React.changed e2 _); [|done].
      apply Forall_app. split; [done|]. by repeat constructor.
    + eexists _, _. split; [done|]. split; [done|].
      destruct (React.changed e2 _); [|done]. by repeat constructor.
  - done.
  - cbn [step]. rewrite Hp.
    destruct (matrix_dispatch_frame tc (subscribed [e1; e2]) w) as (_ & E2 & E3).
    unfold supplied. rewrite E2, E3. split; [done|]. by eexists _, _.
  - split; [done|]. by eexists _, _.
  - split; [done|]. by eexists _, _.
  - cbn [step]. destruct (Timers.elapse dt (loop w)) as [fired loop'].
    split; [done|]. by eexists _, _.
Qed.

Lemma matrix_run_supplied {C} `{!LiveClient handler C} ctx0 es : forall (w : world C),
  Forall (in_session ctx0) es -> supplied ctx0 w -> supplied ctx0 (run w es).
Proof.
  induction es as [|e es IH]; intros w Hes Hw; [done|].
  apply Forall_cons in Hes as [He Hes]. simpl. apply IH; [done|].
  by apply matrix_step_supplied.
Qed.

Lemma matrix_mount_supplied {C} `{!LiveClient handler C} ctx0 (c : C) :
  supplied ctx0 (step (initial c) (Render ctx0)).
Proof. split; [done|]. eexists _, _. repeat split; by repeat constructor. Qed.
End Invariant.

(** An invocation of a function that the component does not declare runs
    no branch of the handler. *)
Lemma matrix_undeclared_call_dropped {C} `{!Host} h tc (w : world C) fc :
  name fc ∉ declared_names ->
  on_call_now h tc w fc = w /\ on_call_later tc w fc = w.
Proof.
  intros Hn. unfold on_call_now, on_call_later. destruct h as [d s].
  repeat match goal with
         | |- context [String.eqb ?a ?b] =>
             destruct (String.eqb_spec a b) as [Heq|_];
             [exfalso; apply Hn; rewrite Heq; vm_compute; elem_of_list|]
         end.
  done.
Qed.

Lemma matrix_undeclared_batch_dropped {C} `{!Host} h tc (w : world C) :
  Forall (fun fc => name fc ∉ declared_names) (functionCalls tc) ->
  onToolCall h tc w = w.
Proof.
  intros Hall. unfold onToolCall.
  assert (Hfold : forall f, (forall fc, name fc ∉ declared_names -> f w fc = w) ->
                            foldl f w (functionCalls tc) = w).
  { intros f Hf. induction Hall as [|fc fcs Hfc _ IH]; [done|].
    simpl. by rewrite Hf. }
  rewrite (Hfold (on_call_now h tc)); [|intros fc Hfc; by apply matrix_undeclared_call_dropped].
  apply Hfold. intros fc Hfc. by apply matrix_undeclared_call_dropped.
Qed.

End GeminiMatrixFacts.

(** ** The components *)

Section Components.
Import Any LiveApi Helpers Component Rel ReplayFacts ReactFacts.

(** C5: in a session of a component, which its mount opens and in which
    [setConfig] keeps its identity, the configuration is handed to
    [setConfig] once: the commit of the mount does it before it subscribes
    the handler, no tool call reaches a component that is not mounted, and
    after any events of the session the configurations supplied are still
    that one.  Whatever the events, every configuration supplied is the
    constant of the component. *)
Theorem configuration_supplied_once {FS C1 C2}
    `{!Memento.FileSystem FS} `{!GeminiMatrix.Host}
    `{!LiveClient Memento.handler C1} `{!LiveClient GeminiMatrix.handler C2}
    (ctx0 : context) (fs : FS) (c1 : C1) (c2 : C2)
    (esM : list Memento.event) (esG : list GeminiMatrix.event) :
  Forall (Memento.in_session ctx0) esM ->
  Forall (GeminiMatrix.in_session ctx0) esG ->
  ((React.commit None (Memento.effects ctx0)).1
   = [SetupFileSystem; SetConfig Memento.config;
      ClientOn "toolcall" Memento.OnToolCall] /\
   (forall tc, Memento.step (Memento.initial fs c1) (Memento.ToolCallEvent tc)
               = Memento.initial fs c1) /\
   Memento.configs (Memento.step (Memento.initial fs c1) (Memento.Render ctx0))
   = [Memento.config] /\
   Memento.configs (Memento.run (Memento.initial fs c1) (Memento.Render ctx0 :: esM))
   = [Memento.config] /\
   (forall es, Forall (fun c => c = Memento.config)
                 (Memento.configs (Memento.run (Memento.initial fs c1) es)))) /\
  ((React.commit None (GeminiMatrix.effects ctx0 (GeminiMatrix.initial c2))).1
   = [SetConfig GeminiMatrix.config;
      ClientOn "toolcall"
        (GeminiMatrix.OnToolCall (GeminiMatrix.data (GeminiMatrix.initial c2))
           (GeminiMatrix.cellStyles (GeminiMatrix.initial c2)))] /\
   (forall tc, GeminiMatrix.step (GeminiMatrix.initial c2) (GeminiMatrix.ToolCallEvent tc)
               = GeminiMatrix.initial c2) /\
   GeminiMatrix.configs (GeminiMatrix.step (GeminiMatrix.initial c2) (GeminiMatrix.Render ctx0))
   = [GeminiMatrix.config] /\
   GeminiMatrix.configs
     (GeminiMatrix.run (GeminiMatrix.initial c2) (GeminiMatrix.Render ctx0 :: esG))
   = [GeminiMatrix.config] /\
   (forall es, Forall (fun c => c = GeminiMatrix.config)
                 (GeminiMatrix.configs (GeminiMatrix.run (GeminiMatrix.initial c2) es)))).
Proof.
  intros HM HG. split.
  - split; [done|]. split; [done|]. split; [done|]. split.
    + exact (proj1 (MementoFacts.memento_run_supplied ctx0 esM _ HM
                      (MementoFacts.memento_mount_supplied ctx0 fs c1))).
    + intros es. rewrite (MementoFacts.memento_run_initial_lift c1 fs es).
      exact (proj1 (proj2 (MementoFacts.memento_run_wf es _ (MementoFacts.memento_initial_wf fs)))).
  - split; [done|]. split; [done|]. split; [done|]. split.
    + exact (proj1 (GeminiMatrixFacts.matrix_run_supplied ctx0 esG _ HG
                      (GeminiMatrixFacts.matrix_mount_supplied ctx0 c2))).
    + intros es. rewrite (GeminiMatrixFacts.matrix_run_initial_lift c2 es).
      exact (proj1 (proj2 (GeminiMatrixFacts.matrix_run_wf es _ GeminiMatrixFacts.matrix_initial_wf))).
Qed.

Lemma configuration_supplied_once_witness :
  Memento.configs
    (Memento.run (Memento.initial () ([] : list (client_call Memento.handler)))
       [Memento.Render Examples.ctx0;
        Memento.ToolCallEvent Examples.mixed_batch;
        Memento.Render (mkContext 7 2);
        Memento.Elapse 200])
  = [Memento.config] /\
  GeminiMatrix.configs
    (GeminiMatrix.run
       (GeminiMatrix.initial ([] : list (client_call GeminiMatrix.handler)))
       [GeminiMatrix.Render Examples.ctx0;
        GeminiMatrix.Submit 0 0 "x";
        GeminiMatrix.Render Examples.ctx0])
  = [GeminiMatrix.config].
Proof.
  pose proof (configuration_supplied_once Examples.ctx0 ()
                ([] : list (client_call Memento.handler))
                ([] : list (client_call GeminiMatrix.handler))
                [Memento.ToolCallEvent Examples.mixed_batch;
                 Memento.Render (mkContext 7 2); Memento.Elapse 200]
                [GeminiMatrix.Submit 0 0 "x"; GeminiMatrix.Render Examples.ctx0]
                ltac:(repeat constructor) ltac:(repeat constructor)) as [HM HG].
  split.
  - exact (proj1 (proj2 (proj2 (proj2 HM)))).
  - exact (proj1 (proj2 (proj2 (proj2 HG)))).
Defined.

(** C6: what a component does to its client, over any events, is to make
    calls of [on], [off], [send] and [sendToolResponse]: run with any client,
    the component ends as it does with the client that only keeps the
    calls, its client being the one that these calls, made in order, leave;
    the calls do not depend on the client, and those of [on] and [off] are
    on the channel [toolcall]. *)
Theorem components_use_the_public_surface {FS C1 C2}
    `{!Memento.FileSystem FS} `{!GeminiMatrix.Host}
    `{!LiveClient Memento.handler C1} `{!LiveClient GeminiMatrix.handler C2}
    (fs : FS) (c1 : C1) (c2 : C2)
    (esM : list Memento.event) (esG : list GeminiMatrix.event) :
  let wM := Memento.run (Memento.initial fs []) esM in
  let wG := GeminiMatrix.run (GeminiMatrix.initial []) esG in
  Memento.run (Memento.initial fs c1) esM
  = Memento.with_client (replay (Memento.client wM) c1) wM /\
  Forall (on_channel "toolcall") (Memento.client wM) /\
  GeminiMatrix.run (GeminiMatrix.initial c2) esG
  = GeminiMatrix.with_client (replay (GeminiMatrix.client wG) c2) wG /\
  Forall (on_channel "toolcall") (GeminiMatrix.client wG).
Proof.
  intros wM wG. split; [|split; [|split]].
  - apply MementoFacts.memento_run_initial_lift.
  - exact (proj1 (MementoFacts.memento_run_wf esM _ (MementoFacts.memento_initial_wf fs))).
  - apply GeminiMatrixFacts.matrix_run_initial_lift.
  - exact (proj1 (GeminiMatrixFacts.matrix_run_wf esG _ GeminiMatrixFacts.matrix_initial_wf)).
Qed.

(** A property of the client that the four operations keep is kept by the
    components. *)
Corollary client_invariant_kept {FS C1 C2}
    `{!Memento.FileSystem FS} `{!GeminiMatrix.Host}
    `{!LiveClient Memento.handler C1} `{!LiveClient GeminiMatrix.handler C2}
    (I1 : C1 -> Prop) (I2 : C2 -> Prop) (fs : FS) (c1 : C1) (c2 : C2)
    (esM : list Memento.event) (esG : list GeminiMatrix.event) :
  (forall ch h c, I1 c -> I1 (client_on ch h c)) ->
  (forall ch h c, I1 c -> I1 (client_off ch h c)) ->
  (forall ps tc c, I1 c -> I1 (client_send ps tc c)) ->
  (forall frs c, I1 c -> I1 (client_sendToolResponse frs c)) ->
  (forall ch h c, I2 c -> I2 (client_on ch h c)) ->
  (forall ch h c, I2 c -> I2 (client_off ch h c)) ->
  (forall ps tc c, I2 c -> I2 (client_send ps tc c)) ->
  (forall frs c, I2 c -> I2 (client_sendToolResponse frs c)) ->
  I1 c1 -> I2 c2 ->
  I1 (Memento.client (Memento.run (Memento.initial fs c1) esM)) /\
  I2 (GeminiMatrix.client (GeminiMatrix.run (GeminiMatrix.initial c2) esG)).
Proof.
  intros. split.
  - rewrite MementoFacts.memento_run_initial_lift.
    unfold Memento.lift, Memento.with_client. cbn [Memento.client].
    by apply replay_invariant.
  - rewrite GeminiMatrixFacts.matrix_run_initial_lift.
    unfold GeminiMatrix.lift, GeminiMatrix.with_client.
    cbn [GeminiMatrix.client]. by apply replay_invariant.
Qed.

(** C8, at the batch of an invocation "x" of a function that Memento does
    not declare followed by an invocation "y" of [render_html]: the response
    that the branch of "y" sends has an entry for "x" as well. *)
Theorem undeclared_invocation_answered {FS} `{!Memento.FileSystem FS} (fs : FS) :
  let w := Memento.run (Memento.initial fs ([] : list (client_call Memento.handler)))
             [Memento.Render Examples.ctx0;
              Memento.ToolCallEvent Examples.mixed_batch;
              Memento.Elapse delay_ms] in
  ("unknown" ∉ Memento.declared_names) /\
  Memento.client w
  = [On "toolcall" Memento.OnToolCall;
     SendToolResponse [mkFunctionResponse Memento.success "x";
                       mkFunctionResponse Memento.success "y"]] /\
  ("x" ∈ response_id <$> tool_responses (Memento.client w)).
Proof.
  intros w. split; [vm_compute; not_elem_of_list|]. split; [reflexivity|].
  vm_compute. elem_of_list.
Qed.
(** A batch of two invocations of [render_html]: the handler calls the
    helper once for each, and each call answers both. *)
Example two_declared_invocations_answered_twice :
  tool_response_frames
    (Memento.client
       (Memento.run (Memento.initial () ([] : list (client_call Memento.handler)))
          [Memento.Render Examples.ctx0;
           Memento.ToolCallEvent
             (mkToolCall
                [mkFunctionCall "a" "render_html"
                   (Memento.mkArgs "<i>1</i>" false EmptyString EmptyString Js.Undefined);
                 mkFunctionCall "b" "render_html"
                   (Memento.mkArgs "<i>2</i>" false EmptyString EmptyString Js.Undefined)]);
           Memento.Elapse delay_ms]))
  = [[mkFunctionResponse Memento.success "a"; mkFunctionResponse Memento.success "b"];
     [mkFunctionResponse Memento.success "a"; mkFunctionResponse Memento.success "b"]].
Proof. reflexivity. Qed.

End Components.


(** ** The tool-call correlator *)

Section CorrelatorFacts.
Import Any LiveApi Core.


Implicit Types (c : correlator) (i j : string) (p : any).

Lemma on_tool_call_pending ids i c :
  i ∈ ids -> invocations (on_tool_call ids c) !! i = Some Pending.
Proof.
  unfold on_tool_call. simpl. induction ids as [|j ids IH]; intros Hin.
  - by apply elem_of_nil in Hin.
  - simpl. destruct (decide (j = i)) as [->|Hne].
    + by rewrite lookup_insert_eq.
    + rewrite lookup_insert_ne by done. apply IH.
      apply elem_of_cons in Hin as [?|?]; [congruence|done].
Qed.

Lemma entries_for_snoc i c frs (m : gmap string status) (l : list error) :
  entries_for i (mkCorrelator m (outbound c ++ [frs]) l)
  = (entries_for i c + length (filter (fun fr => response_id fr = i) frs))%nat.
Proof.
  unfold entries_for. simpl.
  rewrite concat_app, filter_app, length_app. simpl.
  by rewrite (right_id [] app).
Qed.

Lemma respond_other i j p c :
  j ≠ i ->
  invocations (respond j p c).2 !! i = invocations c !! i /\
  entries_for i (respond j p c).2 = entries_for i c.
Proof.
  intros Hne. unfold respond.
  destruct (invocations c !! j) as [[| |]|]; simpl; try done.
  split.
  - by rewrite lookup_insert_ne.
  - rewrite entries_for_snoc. simpl.
    rewrite filter_cons_False by (simpl; congruence). simpl. lia.
Qed.

Lemma responds_other i calls : forall c,
  Forall (fun r => r.1 ≠ i) calls ->
  invocations (responds calls c) !! i = invocations c !! i /\
  entries_for i (responds calls c) = entries_for i c.
Proof.
  induction calls as [|[j p] calls IH]; intros c Hall; [done|].
  apply Forall_cons in Hall as [Hj Hall]. simpl in *.
  destruct (IH (respond j p c).2 Hall) as [-> ->].
  by apply respond_other.
Qed.

(** C1: for a batch of tool calls that has arrived, and an id [i] of the
    batch, with responses to other ids before and after in any order: the
    entry of [i] is pending until [respond] is called for it, that call
    succeeds, answers the entry and sends one response, the entry of the
    id with the payload; a second call for [i] fails with
    UnknownInvocationError and changes neither the entries nor what was
    sent, so that one response entry has gone out for [i]. *)
Theorem respond_once c (ids : list string) i p p'
    (before between : list (string * any)) :
  i ∈ ids ->
  Forall (fun r => r.1 ≠ i) before ->
  Forall (fun r => r.1 ≠ i) between ->
  let c1 := responds before (on_tool_call ids c) in
  let c2 := (respond i p c1).2 in
  let c3 := responds between c2 in
  let c4 := (respond i p' c3).2 in
  invocations c1 !! i = Some Pending /\
  (respond i p c1).1 = Ok () /\
  invocations c2 !! i = Some Answered /\
  outbound c2 = outbound c1 ++ [[mkFunctionResponse p i]] /\
  entries_for i c3 = S (entries_for i c) /\
  (respond i p' c3).1 = Err UnknownInvocationError /\
  invocations c4 = invocations c3 /\
  outbound c4 = outbound c3 /\
  entries_for i c4 = S (entries_for i c).
Proof.
  intros Hin Hbefore Hbetween c1 c2 c3 c4.
  assert (H1 : invocations c1 !! i = Some Pending).
  { unfold c1. destruct (responds_other i before (on_tool_call ids c) Hbefore) as [-> _].
    by apply on_tool_call_pending. }
  assert (E1 : entries_for i c1 = entries_for i c).
  { unfold c1. by destruct (responds_other i before (on_tool_call ids c) Hbefore) as [_ ->]. }
  assert (R2 : respond i p c1
               = (Ok (), mkCorrelator (<[i := Answered]> (invocations c1))
                           (outbound c1 ++ [[mkFunctionResponse p i]]) (logged c1))).
  { unfold respond. by rewrite H1. }
  assert (H2 : invocations c2 !! i = Some Answered).
  { unfold c2. rewrite R2. simpl. by rewrite lookup_insert_eq. }
  assert (E2 : entries_for i c2 = S (entries_for i c)).
  { unfold c2. rewrite R2. simpl. rewrite entries_for_snoc. simpl.
    rewrite filter_cons_True by done. simpl. lia. }
  destruct (responds_other i between c2 Hbetween) as [H3 E3]. fold c3 in H3, E3.
  assert (R4 : respond i p' c3
               = (Err UnknownInvocationError,
                  mkCorrelator (invocations c3) (outbound c3)
                    (logged c3 ++ [UnknownInvocationError]))).
  { unfold respond. by rewrite H3, H2. }
  split; [done|]. split; [by rewrite R2|]. split; [done|].
  split; [unfold c2; by rewrite R2|]. split; [by rewrite E3|].
  split; [by rewrite R4|]. unfold c4. rewrite R4. simpl.
  split; [done|]. split; [done|].
  unfold entries_for in *. simpl. by rewrite E3.
Qed.


Lemma respond_once_witness :
  entries_for "a"
    (respond "a" (AObj [("late", ABool true)])
       (responds [("b", ANull)]
          (respond "a" (AObj [("result", ANum 42)])
             (responds []
                (on_tool_call ["a"; "b"]
                   (mkCorrelator ∅ [] [])))).2)).2
  = 1%nat.
Proof.
  exact (proj2 (proj2 (proj2 (proj2 (proj2 (proj2 (proj2 (proj2
    (respond_once (mkCorrelator ∅ [] []) ["a"; "b"] "a"
       (AObj [("result", ANum 42)]) (AObj [("late", ABool true)])
       [] [("b", ANull)]
       ltac:(elem_of_list)
       ltac:(constructor)
       ltac:(repeat constructor; discriminate)))))))))).
Defined.

End CorrelatorFacts.

(** ** The codec *)

Section CodecFacts.
Import Json Config Codec.


Lemma Schema_nested_ind (P : Schema -> Prop) :
  (forall d, P (SString d)) ->
  (forall d, P (SInteger d)) ->
  (forall d, P (SBoolean d)) ->
  (forall d items, P items -> P (SArray d items)) ->
  (forall ps r, Forall (fun kp => P kp.2) ps -> P (SObject ps r)) ->
  forall s, P s.
Proof.
  intros HString HInteger HBoolean HArray HObject.
  fix IH 1. intros [d|d|d|d items|ps r].
  - apply HString.
  - apply HInteger.
  - apply HBoolean.
  - apply HArray, IH.
  - apply HObject. revert ps. fix IHps 1. intros [|kp ps].
    + constructor.
    + constructor; [apply IH|apply IHps].
Qed.

Lemma mapM_encode {A B} (enc : A -> B) (dec : B -> option A) (l : list A) :
  (forall x, dec (enc x) = Some x) -> mapM dec (enc <$> l) = Some l.
Proof. intros H. apply mapM_fmap_Some. exact H. Qed.


Lemma encode_schema_object ps r :
  encode_schema (SObject ps r)
  = JObj (("type", JStr "OBJECT") :: ("properties", JObj (encode_properties ps))
          :: opt_field "required" ((fun r => JArr (JStr <$> r)) <$> r)).
Proof.
  reflexivity.
Qed.

Lemma decode_properties_encode ps :
  Forall (fun kp => decode_schema (encode_schema kp.2) = Some kp.2) ps ->
  decode_properties (JObj (encode_properties ps)) = Some ps.
Proof.
  induction 1 as [|[k p] ps Hp _ IH]; [done|].
  simpl in *. rewrite Hp. simpl. by rewrite IH.
Qed.

Lemma as_strings_encode (l : list string) : as_strings (JArr (JStr <$> l)) = Some l.
Proof. simpl. by apply mapM_fmap_Some. Qed.

Lemma decode_schema_encode (s : Schema) :
  decode_schema (encode_schema s) = Some s.
Proof.
  induction s as [d|d|d|d items IH|ps r IH] using Schema_nested_ind.
  - by destruct d.
  - by destruct d.
  - by destruct d.
  - destruct d; simpl; unfold required_field; simpl; by rewrite IH.
  - rewrite encode_schema_object.
    pose proof (decode_properties_encode ps IH) as Hps.
    destruct r as [r|]; cbn -[decode_properties as_strings encode_properties];
      unfold required_field, optional;
      cbn -[decode_properties as_strings encode_properties];
      rewrite Hps; cbn -[as_strings]; [by rewrite as_strings_encode|done].
Qed.

Lemma decode_declaration_encode d :
  decode_declaration (encode_declaration d) = Some d.
Proof.
  destruct d as [n d p]. unfold decode_declaration, encode_declaration, required_field.
  cbn -[decode_schema encode_schema]. rewrite decode_schema_encode. done.
Qed.

Lemma decode_tool_encode t : decode_tool (encode_tool t) = Some t.
Proof.
  destruct t as [| |ds]; [done|done|].
  cbn -[mapM]. rewrite mapM_fmap_Some; [done|]. apply decode_declaration_encode.
Qed.

Lemma decode_generation_encode g :
  decode_generation (encode_generation g) = Some g.
Proof.
  destruct g as [m [[v]|] [t|]]; by destruct m.
Qed.

Lemma decode_instruction_encode texts :
  decode_instruction (encode_instruction texts) = Some texts.
Proof.
  unfold decode_instruction, encode_instruction. cbn -[mapM].
  by apply mapM_fmap_Some.
Qed.

Lemma decode_config_encode c : decode_config (encode_config c) = Some c.
Proof.
  destruct c as [m g i ts]. unfold decode_config, encode_config, required_field.
  cbn -[decode_generation encode_generation decode_instruction encode_instruction mapM].
  rewrite decode_generation_encode. cbn -[decode_instruction encode_instruction mapM].
  rewrite decode_instruction_encode. cbn -[mapM].
  rewrite mapM_fmap_Some; [done|]. apply decode_tool_encode.
Qed.

(** C7: decoding the setup frame that encodes a configuration succeeds and
    gives the configuration back. *)
Theorem decode_setup_encode_setup (c : LiveConfig) :
  decode_setup (encode_setup c) = Core.Ok c.
Proof.
  unfold decode_setup, encode_setup. cbn -[decode_config encode_config].
  by rewrite decode_config_encode.
Qed.

End CodecFacts.

(** * Further properties of the code *)

(** ** The matrix helpers on every input *)

Section MatrixMore.
Context {A : Type}.
Import Js Matrix MatrixFacts.
Local Open Scope Z_scope.
Implicit Types (m v cloned : matrix A) (r : list (value A)) (x : value A).

Lemma cell_lookup m (i j : nat) r x :
  m !! i = Some r -> r !! j = Some x -> cell m (Z.of_nat i) (Z.of_nat j) = x.
Proof.
  intros Hr Hx. unfold cell, index_row, index.
  destruct (Z.ltb_spec (Z.of_nat i) 0); [lia|].
  destruct (Z.ltb_spec (Z.of_nat j) 0); [lia|].
  by rewrite !Nat2Z.id, Hr, Hx.
Qed.

Lemma matrix_ext (p q : nat) m m' :
  rect p q m -> rect p q m' ->
  (forall i j, 0 <= i < Z.of_nat p -> 0 <= j < Z.of_nat q ->
               cell m i j = cell m' i j) ->
  m = m'.
Proof.
  intros [Hp Hq] [Hp' Hq'] Hcell.
  apply list_eq_same_length with p; [done|done|].
  intros i r r' Hi Hr Hr'. 
  eapply Forall_lookup_1 in Hq; [|exact Hr].
  eapply Forall_lookup_1 in Hq'; [|exact Hr'].
  apply list_eq_same_length with q; [done|done|].
  intros j x x' Hj Hx Hx'.
  rewrite <- (cell_lookup m i j r x Hr Hx), <- (cell_lookup m' i j r' x' Hr' Hx').
  apply Hcell; lia.
Qed.

Lemma newMatrix_square (size : Z) (fill : value A) :
  square (Z.to_nat size) (newMatrix size fill).
Proof.
  unfold newMatrix, range. split.
  - rewrite length_fmap, length_seqZ. f_equal. lia.
  - apply Forall_fmap, Forall_forall. intros k _. simpl. apply length_replicate.
Qed.

(** X1: [newMatrix(size, fill)] has [size] rows of [size] cells, and
    every cell is [fill]; a negative [size] counts as zero. *)
Theorem newMatrix_filled (size : Z) (fill : value A) :
  square (Z.to_nat size) (newMatrix size fill) /\
  forall i j, 0 <= i < size -> 0 <= j < size ->
              cell (newMatrix size fill) i j = fill.
Proof.
  split; [apply newMatrix_square|].
  - intros i j Hi Hj. unfold newMatrix, range, cell, index_row, index.
    destruct (Z.ltb_spec i 0); [lia|]. destruct (Z.ltb_spec j 0); [lia|].
    rewrite list_lookup_fmap, lookup_seqZ_lt by lia. simpl.
    by rewrite lookup_replicate_2 by lia.
Qed.

(** *** updateMatrixBlock *)

Lemma fill_cells_spec (n : nat) (i0 : Z) (cols : list Z) x :
  0 <= i0 < Z.of_nat n -> Forall (fun c => 0 <= c < Z.of_nat n) cols ->
  forall cloned, square n cloned ->
  exists cloned',
    for_each (fun colIndex cloned => assign_cell cloned i0 colIndex x) cols cloned
    = Normal cloned' /\
    square n cloned' /\
    forall i j, cell cloned' i j
                = if decide (i = i0 /\ j ∈ cols) then x else cell cloned i j.
Proof.
  intros Hi. induction 1 as [|c cols Hc _ IH]; intros cloned Hsq.
  - exists cloned. split; [done|]. split; [done|]. intros i j.
    case_decide as H; [|done]. destruct H as (_ & H). by apply elem_of_nil in H.
  - simpl.
    destruct (assign_cell_spec n cloned i0 c x Hsq Hi Hc) as (c1 & -> & Hsq1 & Hcell1).
    destruct (IH c1 Hsq1) as (c2 & -> & Hsq2 & Hcell2).
    exists c2. split; [done|]. split; [done|]. intros i j.
    rewrite Hcell2, Hcell1. decide_cells.
Qed.

Lemma fill_rows_spec (n : nat) (rows cols : list Z) x :
  Forall (fun i => 0 <= i < Z.of_nat n) rows ->
  Forall (fun c => 0 <= c < Z.of_nat n) cols ->
  forall cloned, square n cloned ->
  exists cloned',
    for_each (fun rowIndex =>
                for_each (fun colIndex cloned =>
                            assign_cell cloned rowIndex colIndex x) cols)
             rows cloned = Normal cloned' /\
    square n cloned' /\
    forall i j, cell cloned' i j
                = if decide (i ∈ rows /\ j ∈ cols) then x else cell cloned i j.
Proof.
  intros Hrows Hcols. induction Hrows as [|i0 rows Hi0 _ IH]; intros cloned Hsq.
  - exists cloned. split; [done|]. split; [done|]. intros i j.
    case_decide as H; [|done]. destruct H as (H & _). by apply elem_of_nil in H.
  - simpl.
    destruct (fill_cells_spec n i0 cols x Hi0 Hcols cloned Hsq)
      as (c1 & -> & Hsq1 & Hcell1).
    destruct (IH c1 Hsq1) as (c2 & -> & Hsq2 & Hcell2).
    exists c2. split; [done|]. split; [done|]. intros i j.
    rewrite Hcell2, Hcell1. decide_cells.
Qed.

Lemma resolve_index_nonneg (i l : Z) : 0 <= i -> resolve_index i l = i.
Proof. intros. unfold resolve_index. by destruct (Z.ltb_spec i 0); [lia|]. Qed.

(** X2: on a square matrix and for indexes that are not negative and a
    block that ends within the matrix, [updateMatrixBlock] does not throw;
    the result is square, has [x] in the block from the start indexes to
    before the end indexes, and the cells of [m] elsewhere. *)
Theorem updateMatrixBlock_fills (n : nat) m (sr sc er ec : Z) x :
  square n m ->
  0 <= sr -> 0 <= sc -> 0 <= er <= Z.of_nat n -> 0 <= ec <= Z.of_nat n ->
  exists m',
    updateMatrixBlock m sr sc er ec x = Some m' /\
    square n m' /\
    forall i j, cell m' i j
                = if decide (sr <= i < er /\ sc <= j < ec) then x else cell m i j.
Proof.
  intros Hsq Hsr Hsc Her Hec. unfold updateMatrixBlock.
  rewrite !resolve_index_nonneg by lia.
  destruct (fill_rows_spec n (loop_range sr er) (loop_range sc ec) x)
    with (cloned := m) as (m' & -> & Hsq' & Hcell); [| |done|].
  - apply Forall_seqZ. intros; lia.
  - apply Forall_seqZ. intros; lia.
  - exists m'. split; [done|]. split; [done|]. intros i j. rewrite Hcell.
    unfold loop_range. decide_ranges.
Qed.



(** *** setMatrixBlock on any input *)

Lemma for_each_app {S} (body : Z -> S -> outcome S) (l1 l2 : list Z) (s : S) :
  for_each body (l1 ++ l2) s
  = match for_each body l1 s with
    | Normal s' => for_each body l2 s'
    | Thrown s' => Thrown s'
    end.
Proof.
  revert s. induction l1 as [|i l1 IH]; intros s; [done|].
  simpl. destruct (body i s); [apply IH|done].
Qed.

Lemma for_each_preserves {S} (R : S -> S -> Prop) `{!Reflexive R} `{!Transitive R}
    (body : Z -> S -> outcome S) (idx : list Z) :
  (forall i s, R s (store (body i s))) ->
  forall s, R s (store (for_each body idx s)).
Proof.
  intros Hbody. induction idx as [|i idx IH]; intros s; [done|].
  simpl. specialize (Hbody i s). destruct (body i s) as [s'|s']; simpl in *; [|done].
  by etrans.
Qed.

Global Instance grows_refl : Reflexive (@grows A).
Proof. intros m. apply Forall_Forall2_diag, Forall_true. done. Qed.

Global Instance grows_trans : Transitive (@grows A).
Proof.
  intros a b c Hab Hbc. unfold grows in *.
  eapply Forall2_trans; [|exact Hab|exact Hbc].
  simpl. intros; lia.
Qed.

Lemma length_assign_ge r (c : Z) x : (length r <= length (assign r c x))%nat.
Proof.
  unfold assign. destruct (c <? 0); [done|].
  destruct (_ <? _)%nat; [by rewrite length_insert|].
  rewrite length_app. lia.
Qed.

Lemma assign_cell_grows cloned (i c : Z) x :
  grows cloned (store (assign_cell cloned i c x)).
Proof.
  unfold assign_cell. destruct (index_row cloned i) as [r|] eqn:Hr; [|done].
  simpl. unfold index_row in Hr. destruct (i <? 0); [done|].
  rewrite <- (list_insert_id cloned (Z.to_nat i) r) at 1 by done.
  apply Forall2_insert; [done|]. apply length_assign_ge.
Qed.

Lemma set_rows_grow v (sr sc : Z) (rows : list Z) cloned :
  grows cloned (store (for_each (set_row v sr sc) rows cloned)).
Proof.
  apply (for_each_preserves grows). intros i s.
  unfold set_row. destruct (index_row v _) as [vrow|]; [|done].
  apply (for_each_preserves grows). intros c s'.
  unfold set_cell. destruct (neq_undefined _); [|done].
  apply assign_cell_grows.
Qed.


(** Rows past the end of the clone: nothing is written. *)
Lemma set_rows_missing v (sr sc : Z) (rows : list Z) : forall cloned,
  Forall (fun i => len cloned <= i) rows ->
  store (for_each (set_row v sr sc) rows cloned) = cloned.
Proof.
  induction rows as [|i rows IH]; intros cloned Hall; [done|].
  apply Forall_cons in Hall as [Hi Hall]. simpl.
  assert (Hrow : forall cols,
             for_each (set_cell (default [] (index_row v (i - sr))) i sc) cols cloned
             = Normal cloned \/
             for_each (set_cell (default [] (index_row v (i - sr))) i sc) cols cloned
             = Thrown cloned).
  { induction cols as [|c cols IHc]; [by left|].
    simpl. unfold set_cell at 1 3. destruct (neq_undefined _); [|done].
    unfold assign_cell, index_row. destruct (i <? 0); [by right|].
    rewrite lookup_ge_None_2 by (unfold len in Hi; lia). by right. }
  unfold set_row at 1. destruct (index_row v (i - sr)) as [vrow|]; simpl in *.
  - destruct (Hrow (loop_range sc (sc + len vrow))) as [-> | ->]; [by apply IH|done].
  - by apply IH.
Qed.

Lemma cell_defined (p q : nat) v (i j : Z) :
  rect p q v -> defined v -> 0 <= i < Z.of_nat p -> 0 <= j < Z.of_nat q ->
  neq_undefined (cell v i j) = true.
Proof.
  intros [Hp Hq] Hd Hi Hj. unfold cell.
  destruct (index_row_Some v i) as (r & -> & Hr); [unfold len; lia|].
  eapply Forall_lookup_1 in Hq; [|exact Hr].
  eapply Forall_lookup_1 in Hd; [|exact Hr]. simpl in *.
  unfold index. destruct (Z.ltb_spec j 0); [lia|].
  destruct (lookup_lt_is_Some_2 r (Z.to_nat j)) as [x Hx]; [lia|].
  rewrite Hx. by eapply Forall_lookup_1 in Hd.
Qed.

(** X5: the rows of the value that would go past the last row of the
    matrix are dropped without an error: with the columns of the block
    within the matrix, the result is square and holds the cells of [v]
    that are not undefined or null in the part of the block that lies in
    the matrix, and the cells of [m] elsewhere. *)
Theorem setMatrixBlock_clipped (n p q : nat) m v (sr sc : Z) :
  square n m -> rect p q v ->
  0 <= sr <= Z.of_nat n -> 0 <= sc -> sc + Z.of_nat q <= Z.of_nat n ->
  square n (setMatrixBlock m sr sc v) /\
  forall i j,
    cell (setMatrixBlock m sr sc v) i j
    = if decide ((sr <= i < sr + Z.of_nat p /\ i < Z.of_nat n /\
                  sc <= j < sc + Z.of_nat q) /\
                 neq_undefined (cell v (i - sr) (j - sc)) = true)
      then cell v (i - sr) (j - sc) else cell m i j.
Proof.
  intros Hm Hv Hsr Hsc Hcol.
  unfold setMatrixBlock. rewrite !resolve_index_nonneg by lia.
  set (k := Z.min (Z.of_nat p) (Z.of_nat n - sr)).
  assert (Hsplit : loop_range sr (sr + len v)
                   = seqZ sr k ++ seqZ (sr + k) (Z.of_nat p - k)).
  { unfold loop_range, len. destruct Hv as [-> _].
    replace (sr + Z.of_nat p - sr) with (k + (Z.of_nat p - k)) by lia.
    apply seqZ_app; lia. }
  rewrite Hsplit, for_each_app.
  destruct (set_rows_spec n p q v sr sc (seqZ sr k) Hv Hsc Hcol) with (cloned := m)
    as (c1 & -> & Hsq1 & Hcell1); [|done|].
  { apply Forall_seqZ. intros; lia. }
  rewrite set_rows_missing.
  - split; [done|]. intros i j. rewrite Hcell1. decide_ranges.
  - apply Forall_seqZ. destruct Hsq1 as [Hl _]. unfold len. rewrite Hl. intros; lia.
Qed.

(** *** Reading back *)

(** X7: a block that was written is read back: for a value [v] without
    undefined or null cells whose block lies in the matrix, selecting that
    block of the result of [setMatrixBlock] gives [v]. *)
Theorem selectMatrixBlock_setMatrixBlock (n p q : nat) m v (sr sc : Z) :
  square n m -> rect p q v -> defined v ->
  0 <= sr -> 0 <= sc ->
  sr + Z.of_nat p <= Z.of_nat n -> sc + Z.of_nat q <= Z.of_nat n ->
  selectMatrixBlock (setMatrixBlock m sr sc v) sr sc
                    (sr + Z.of_nat p) (sc + Z.of_nat q) = Some v.
Proof.
  intros Hm Hv Hd Hsr Hsc Hrow Hcol.
  destruct (setMatrixBlock_cells n p q m v sr sc Hm Hv Hsr Hsc Hrow Hcol)
    as [Hsq Hcell].
  destruct (selectMatrixBlock_resolved (setMatrixBlock m sr sc v) sr sc
              (sr + Z.of_nat p) (sc + Z.of_nat q)) as (res & -> & Hl & Hw & Hres).
  { rewrite resolve_index_nonneg; lia. }
  { rewrite resolve_index_nonneg by lia. destruct Hsq as [Hlen _].
    unfold len. rewrite Hlen. lia. }
  rewrite !resolve_index_nonneg in * by lia. f_equal.
  apply (matrix_ext p q).
  - split; [rewrite Hl; lia|]. eapply Forall_impl; [exact Hw|]. simpl. intros; lia.
  - done.
  - intros i j Hi Hj. rewrite Hres by lia. rewrite Hcell.
    replace (sr + i - sr) with i by lia. replace (sc + j - sc) with j by lia.
    rewrite (cell_defined p q v i j Hv Hd Hi Hj).
    case_decide as Hdec; [done|]. exfalso. apply Hdec.
    repeat split; first [lia | done].
Qed.

(** X8: writing a block back where it was read leaves the matrix as it
    is. *)
Theorem setMatrixBlock_selectMatrixBlock (n : nat) m (sr sc er ec : Z) b :
  square n m ->
  0 <= sr <= er -> er <= Z.of_nat n -> 0 <= sc <= ec -> ec <= Z.of_nat n ->
  selectMatrixBlock m sr sc er ec = Some b ->
  setMatrixBlock m sr sc b = m.
Proof.
  intros Hm Hsr Her Hsc Hec Hb.
  destruct (selectMatrixBlock_resolved m sr sc er ec) as (res & Hres & Hl & Hw & Hcell).
  { rewrite resolve_index_nonneg; lia. }
  { rewrite resolve_index_nonneg by lia. destruct Hm as [Hlen _].
    unfold len. rewrite Hlen. lia. }
  rewrite Hb in Hres. injection Hres as <-.
  rewrite !resolve_index_nonneg in * by lia.
  assert (Hrect : rect (Z.to_nat (er - sr)) (Z.to_nat (ec - sc)) b) by done.
  destruct (setMatrixBlock_cells n _ _ m b sr sc Hm Hrect) as [Hsq Hset]; try lia.
  apply (matrix_ext n n); [done|done|].
  intros i j Hi Hj. rewrite Hset. case_decide as Hdec; [|done].
  destruct Hdec as [[Hi' Hj'] _]. rewrite Hcell by lia. f_equal; lia.
Qed.

(** *** selectMatrixBlock at the bounds *)

Lemma selectMatrixBlock_past_last_row (n : nat) m (sr sc er ec : Z) :
  length m = n ->
  0 <= sr < er -> Z.of_nat n < er -> 0 <= sc < ec ->
  selectMatrixBlock m sr sc er ec = None.
Proof.
  intros Hlen Hsr Her Hsc. unfold selectMatrixBlock.
  rewrite !resolve_index_nonneg by lia.
  apply mapM_None, Exists_exists. exists (er - 1). split.
  - unfold loop_range. apply elem_of_seqZ. lia.
  - unfold select_row, loop_range. rewrite (seqZ_cons sc) by lia. simpl.
    unfold index_row. destruct (Z.ltb_spec (er - 1) 0); [done|].
    by rewrite lookup_ge_None_2 by lia.
Qed.







End MatrixMore.


(** ** The delay of the helpers *)

Section NotBefore.
Context {Args Handler C : Type} `{!LiveApi.LiveClient Handler C}.
Import Any LiveApi Helpers.

Lemma serve_all_cons (delay : N) (rt : runtime Args C) r rs :
  serve_all delay rt (r :: rs) = serve_all delay (serve delay rt r) rs.
Proof. reflexivity. Qed.

Lemma wait_one (cb : callback Args) (now due dt : N) (c : C) :
  serve delay_ms (mkRuntime c (Timers.mkLoop now [Timers.mkTimer due cb])) (Wait dt)
  = if (due <=? now + dt)%N
    then mkRuntime (run_callback cb c) (Timers.mkLoop (now + dt)%N [])
    else mkRuntime c (Timers.mkLoop (now + dt)%N [Timers.mkTimer due cb]).
Proof.
  unfold serve, elapse, Timers.elapse. simpl. by destruct (_ <=? _)%N.
Qed.

Lemma waits_idle (dts : list N) : forall (now : N) (c : C),
  rt_client (serve_all (Args := Args) delay_ms
               (mkRuntime c (Timers.mkLoop now [])) (Wait <$> dts)) = c.
Proof. induction dts as [|d dts IH]; intros now c; [done|]. simpl. apply IH. Qed.

Lemma waits_pending (cb : callback Args) (dts : list N) : forall (t e : N) (c : C),
  (e < delay_ms)%N ->
  rt_client (serve_all delay_ms
               (mkRuntime c (Timers.mkLoop (t + e)%N [Timers.mkTimer (t + delay_ms)%N cb]))
               (Wait <$> dts))
  = if (e + total_wait dts <? delay_ms)%N then c else run_callback cb c.
Proof.
  induction dts as [|dt dts IH]; intros t e c He.
  - simpl. rewrite N.add_0_r. by destruct (N.ltb_spec e delay_ms); [|lia].
  - rewrite fmap_cons, serve_all_cons, wait_one. cbn [total_wait foldr]. fold (total_wait dts).
    destruct (N.leb_spec (t + delay_ms) (t + e + dt)) as [Hfire|Hwait].
    + rewrite waits_idle.
      destruct (N.ltb_spec (e + (dt + total_wait dts)) delay_ms); [lia|done].
    + replace (t + e + dt)%N with (t + (e + dt))%N by lia.
      rewrite IH by lia. by rewrite N.add_assoc.
Qed.

(** X11: after a call of a helper on a client with no timer pending,
    the client is untouched as long as the waits that follow add up to
    less than 200 ms, and has received the one call of the helper as soon
    as they add up to 200 ms or more, however the time is cut into
    waits. *)
Theorem helpers_wait_for_delay (toolCall : ToolCall Args) (response : any)
    (text : string) (dts : list N) (t : N) (c : C) :
  rt_client (serve_all delay_ms (idle t c)
               (ToolResponseRequest toolCall response :: (Wait <$> dts)))
  = (if (total_wait dts <? 200)%N then c
     else client_sendToolResponse
            ((fun fc => mkFunctionResponse response (id fc))
               <$> functionCalls toolCall) c) /\
  rt_client (Args := Args)
            (serve_all delay_ms (idle t c)
               (UserMessageRequest text :: (Wait <$> dts)))
  = (if (total_wait dts <? 200)%N then c
     else client_send [mkPart text] None c).
Proof.
  rewrite !serve_all_cons. split.
  - pose proof (waits_pending (CbSendToolResponse toolCall response) dts t 0 c) as Hw.
    rewrite N.add_0_r in Hw. simpl in Hw. by apply Hw.
  - pose proof (waits_pending (CbSend text) dts t 0 c) as Hw.
    rewrite N.add_0_r in Hw. simpl in Hw. by apply Hw.
Qed.
End NotBefore.

(** ** The responses to a batch *)

Section BatchFacts.
Context {Args : Type}.
Import Any LiveApi Helpers Batch TimerFacts.
Implicit Types (tc : ToolCall Args) (l : Timers.loop (callback Args)).

Lemma sendToolResponse_queued now tc ps p l :
  queued now tc ps l -> queued now tc (ps ++ [p]) (sendToolResponse tc p l).
Proof.
  intros [Hnow Hq]. split; [done|].
  unfold sendToolResponse, sendToolResponse_after, Timers.setTimeout. simpl.
  rewrite Hq, Hnow, enqueue_last.
  - unfold batch_timers. by rewrite fmap_app.
  - unfold batch_timers. apply Forall_fmap, Forall_true. simpl. intros; lia.
Qed.

Lemma queued_same now tc ps l : queued now tc ps l -> queued now tc (ps ++ []) l.
Proof. by rewrite (right_id [] app). Qed.

(** A fold whose steps queue at most one response each. *)
Lemma foldl_queued {W X} (lp : W -> Timers.loop (callback Args))
    (f : W -> X -> W) (g : X -> bool) now tc (xs : list X) :
  (forall ps w x, queued now tc ps (lp w) ->
     exists qs, queued now tc (ps ++ qs) (lp (f w x)) /\
                (length qs <= if g x then 1 else 0)%nat) ->
  forall ps w, queued now tc ps (lp w) ->
    exists qs, queued now tc (ps ++ qs) (lp (foldl f w xs)) /\
               (length qs <= count_if g xs)%nat.
Proof.
  intros Hf. induction xs as [|x xs IH]; intros ps w Hq.
  - exists []. split; [by apply queued_same|]. simpl; lia.
  - simpl. destruct (Hf _ _ x Hq) as (q1 & Hq1 & Hl1).
    destruct (IH _ _ Hq1) as (q2 & Hq2 & Hl2).
    exists (q1 ++ q2). rewrite app_assoc. split; [done|].
    rewrite length_app. unfold count_if in *. destruct (g x) eqn:E.
    + rewrite filter_cons_True by done. simpl. lia.
    + rewrite filter_cons_False by (by rewrite E). lia.
Qed.

Lemma run_batch_callbacks {Handler} tc (ps : list any) now
    (log : list (client_call Handler)) :
  run_callbacks (Timers.callback <$> batch_timers now tc ps) log
  = log ++ batch_frames tc ps.
Proof.
  revert log. induction ps as [|p ps IH]; intros log; [by rewrite app_nil_r|].
  simpl. rewrite IH. by rewrite <- app_assoc.
Qed.

(** When the delay has passed, the timers of a batch have made their
    calls. *)
Lemma elapse_queued {Handler} now tc ps l (log : list (client_call Handler)) :
  queued now tc ps l ->
  run_callbacks (Timers.elapse delay_ms l).1 log = log ++ batch_frames tc ps.
Proof.
  intros [Hnow Hq]. unfold Timers.elapse. rewrite Hq, Hnow, split_due_all.
  - apply run_batch_callbacks.
  - unfold batch_timers. apply Forall_fmap, Forall_true. simpl. intros; lia.
Qed.
End BatchFacts.

Section MementoBatch.
Context {FS C : Type} `{!Memento.FileSystem FS}.
Import Any LiveApi Helpers Batch Memento MementoState.
Implicit Types (w : world FS C) (tc : ToolCall Args).

Lemma memento_now_queued now tc (fcs : list (FunctionCall Args)) : forall ps w,
  queued now tc ps (loop w) ->
  queued now tc (ps ++ replicate (count_if is_render_html fcs) success)
         (loop (foldl (on_call_now tc) w fcs)).
Proof.
  induction fcs as [|fc fcs IH]; intros ps w Hq.
  - by apply queued_same.
  - simpl. unfold count_if. destruct (is_render_html fc) eqn:E.
    + rewrite filter_cons_True by done. simpl.
      rewrite (cons_middle success), app_assoc. apply IH.
      unfold on_call_now. unfold is_render_html in E. rewrite E.
      by apply sendToolResponse_queued.
    + rewrite filter_cons_False by (by rewrite E). apply IH.
      unfold on_call_now. unfold is_render_html in E. by rewrite E.
Qed.

Lemma memento_on_call_later_queued now tc ps w fc :
  queued now tc ps (loop w) ->
  exists qs, queued now tc (ps ++ qs) (loop (on_call_later tc w fc)) /\
             (length qs <= if is_file_call fc then 1 else 0)%nat.
Proof.
  intros Hq. unfold on_call_later, is_file_call.
  destruct (String.eqb (name fc) (Config.name renderHtmlDeclaration)).
  { exists []. split; [by apply queued_same|]. simpl; lia. }
  destruct (String.eqb (name fc) (Config.name lsDeclaration)).
  { destruct (listFilesInCurrentFolder _).
    - eexists [_]. split; [by apply sendToolResponse_queued|done].
    - exists []. split; [by apply queued_same|]. simpl; lia. }
  destruct (String.eqb (name fc) (Config.name writeToDeclaration)).
  { destruct (writeToFile _ _ _ _).
    - eexists [_]. split; [by apply sendToolResponse_queued|done].
    - exists []. split; [by apply queued_same|]. simpl; lia. }
  destruct (String.eqb (name fc) (Config.name readTxtFileDeclaration)).
  { destruct (readTxtFile _ _) as [[??]|].
    - eexists [_]. split; [by apply sendToolResponse_queued|done].
    - exists []. split; [by apply queued_same|]. simpl; lia. }
  exists []. split; [by apply queued_same|]. simpl; lia.
Qed.

Lemma memento_onToolCall_queued now tc w :
  queued now tc [] (loop w) ->
  exists qs,
    queued now tc (replicate (count_if is_render_html (functionCalls tc)) success ++ qs)
           (loop (onToolCall tc w)) /\
    (length qs <= count_if is_file_call (functionCalls tc))%nat.
Proof.
  intros Hq. unfold onToolCall.
  apply (memento_now_queued _ _ (functionCalls tc)) in Hq. simpl in Hq.
  by apply (foldl_queued loop (on_call_later tc) is_file_call);
    [intros; apply memento_on_call_later_queued|].
Qed.

Lemma memento_on_call_later_html tc w fc :
  htmlString (on_call_later tc w fc) = htmlString w.
Proof.
  unfold on_call_later.
  repeat (destruct (String.eqb _ _); [try done|]); try done.
  - by destruct (listFilesInCurrentFolder _).
  - by destruct (writeToFile _ _ _ _).
  - by destruct (readTxtFile _ _) as [[??]|].
Qed.

Lemma memento_later_html tc (fcs : list (FunctionCall Args)) : forall w,
  htmlString (foldl (on_call_later tc) w fcs) = htmlString w.
Proof.
  induction fcs as [|fc fcs IH]; intros w; [done|].
  simpl. by rewrite IH, memento_on_call_later_html.
Qed.

Lemma memento_now_html tc (fcs : list (FunctionCall Args)) : forall w,
  htmlString (foldl (on_call_now tc) w fcs)
  = default (htmlString w)
      (last (htmlText ∘ args <$> filter (fun fc => is_render_html fc = true) fcs)).
Proof.
  induction fcs as [|fc fcs IH]; intros w; [done|].
  simpl. rewrite IH. unfold on_call_now.
  destruct (is_render_html fc) eqn:E; unfold is_render_html in E; rewrite E.
  - rewrite filter_cons_True by done. simpl.
    rewrite last_cons. by destruct (last _).
  - by rewrite filter_cons_False by (unfold is_render_html; by rewrite E).
Qed.

(** X13: after a batch the component shows the [htmlText] of the last
    invocation of [render_html] in the batch, and what it showed before
    when the batch has none; the invocations of other functions do not
    change what is shown. *)
Theorem memento_shows_last_render_html tc w :
  htmlString (onToolCall tc w) = default (htmlString w) (last_render_html tc).
Proof.
  unfold onToolCall. rewrite memento_later_html. apply memento_now_html.
Qed.
End MementoBatch.

(** X12: when Memento is mounted and no timer is pending, a batch
    followed by 200 ms makes the component call [sendToolResponse] once for
    each invocation of [render_html], with the success payload, and then at
    most once for each invocation of a file function; every one of these
    calls carries an entry for every invocation of the batch. *)
Theorem memento_responses_answer_whole_batch {FS} `{!Memento.FileSystem FS}
    (w : Memento.world FS (list (LiveApi.client_call Memento.handler)))
    (tc : LiveApi.ToolCall Memento.Args) :
  is_Some (Memento.pending w) ->
  Timers.queue (Memento.loop w) = [] ->
  exists later : list Any.any,
    Memento.client
      (Memento.run w [Memento.ToolCallEvent tc; Memento.Elapse Helpers.delay_ms])
    = Memento.client w
      ++ Batch.batch_frames tc
           (replicate (count_if MementoState.is_render_html (LiveApi.functionCalls tc))
                      Memento.success ++ later) /\
    (length later <= count_if MementoState.is_file_call (LiveApi.functionCalls tc))%nat.
Proof.
  intros [p Hp] Hq.
  destruct (memento_onToolCall_queued (Timers.now (Memento.loop w)) tc w)
    as (qs & Hqs & Hlen).
  { split; [done|]. by rewrite Hq. }
  exists qs. split; [|done].
  destruct (MementoFacts.memento_onToolCall_frame tc w) as (Hc & _ & _).
  unfold Memento.run. cbn [foldl Memento.step]. rewrite Hp.
  pose proof (elapse_queued _ _ _ _ (Memento.client w) Hqs) as Hfire.
  destruct (Timers.elapse Helpers.delay_ms (Memento.loop (Memento.onToolCall tc w)))
    as [fired l']. cbn [Memento.client]. by rewrite Hc.
Qed.


(** ** The state of GeminiMatrix *)

Section GridFacts.
Context {A : Type}.
Implicit Types (m : Matrix.matrix A).
Import Js Matrix MatrixFacts.
Local Open Scope Z_scope.

Lemma grows_grid (n : nat) m m' : grid n m -> grows m m' -> grid n m'.
Proof.
  intros [Hl Hr] Hg. split.
  - apply Forall2_length in Hg. lia.
  - unfold grows in Hg. clear Hl. induction Hg as [|r r' m m' Hrr _ IH]; [done|].
    apply Forall_cons in Hr as [Hr1 Hr2]. constructor; [lia|by apply IH].
Qed.

Lemma square_grid (n : nat) m : square n m -> grid n m.
Proof.
  intros [Hl Hr]. split; [done|]. eapply Forall_impl; [exact Hr|]. simpl. intros; lia.
Qed.

Lemma updateMatrixBlock_grows m (sr sc er ec : Z) x m' :
  updateMatrixBlock m sr sc er ec x = Some m' -> grows m m'.
Proof.
  unfold updateMatrixBlock. cbv zeta.
  match goal with |- context [for_each ?b ?l ?s] =>
    pose proof (for_each_preserves grows b l) as Hp; destruct (for_each b l s) as [c|c] eqn:E
  end; [|done].
  intros [= <-]. specialize (Hp (fun i s => for_each_preserves grows _ _
                  (fun c s' => assign_cell_grows s' i c x) s) m).
  by rewrite E in Hp.
Qed.
End GridFacts.

Ltac evolves_same :=
  split; [done|]; split; [done|]; split; [done|];
  split; [simpl; lia|]; split; [simpl; lia|]; split; done.

Section MatrixState.
Import Any LiveApi Helpers Component GeminiMatrix GeminiMatrixState.
Context {C : Type} `{!Host} `{!LiveClient handler C}.
Implicit Types (w : world C).

Global Instance evolves_refl : Reflexive (@evolves C).
Proof. intros w. evolves_same. Qed.

Global Instance evolves_trans : Transitive (@evolves C).
Proof.
  intros a b c (Hp & Hd & Hs & Hdi & Hsi & Hde & Hse) (Hp' & Hd' & Hs' & Hdi' & Hsi' & Hde' & Hse').
  split; [congruence|]. split; [by intros; apply Hd', Hd|].
  split; [by intros; apply Hs', Hs|]. split; [lia|]. split; [lia|].
  split.
  - intros Heq. rewrite Hde' by lia. apply Hde. lia.
  - intros Heq. rewrite Hse' by lia. apply Hse. lia.
Qed.

Lemma evolves_foldl {X} (f : world C -> X -> world C) (xs : list X) :
  (forall w x, evolves w (f w x)) -> forall w, evolves w (foldl f w xs).
Proof.
  intros Hf. induction xs as [|x xs IH]; intros w; [done|].
  simpl. etrans; [apply Hf|apply IH].
Qed.

Lemma matrix_respond_evolves tc r w : evolves w (respond tc r w).
Proof. evolves_same. Qed.

Lemma matrix_setData_evolves f w :
  (forall m, grows m (f m)) -> evolves w (setData f w).
Proof.
  intros Hf. split; [done|]. split; [intros Hg; eapply grows_grid; [exact Hg|apply Hf]|].
  split; [done|]. simpl. split; [lia|]. split; [lia|]. split; [lia|done].
Qed.

Lemma matrix_setCellStyles_evolves f w :
  (forall m, grows m (f m)) -> evolves w (setCellStyles f w).
Proof.
  intros Hf. split; [done|]. split; [done|].
  split; [intros Hg; eapply grows_grid; [exact Hg|apply Hf]|].
  simpl. split; [lia|]. split; [lia|]. split; [done|lia].
Qed.

Lemma matrix_on_call_now_evolves h tc w fc : evolves w (on_call_now h tc w fc).
Proof.
  unfold on_call_now. destruct h as [d s]. cbv zeta.
  repeat (destruct (String.eqb _ _); [try done|]); try done.
  - etrans; [|apply matrix_respond_evolves]. apply matrix_setData_evolves.
    intros m. unfold Matrix.setMatrixBlock. apply set_rows_grow.
  - destruct (mapM _ _); [|done].
    etrans; [|apply matrix_respond_evolves]. apply matrix_setCellStyles_evolves.
    intros m. unfold Matrix.setMatrixBlock. apply set_rows_grow.
  - destruct (Matrix.selectMatrixBlock _ _ _ _ _); [apply matrix_respond_evolves|done].
  - destruct (Matrix.selectMatrixBlock _ _ _ _ _); [apply matrix_respond_evolves|done].
Qed.

Lemma matrix_on_call_later_evolves tc w fc : evolves w (on_call_later tc w fc).
Proof.
  unfold on_call_later. destruct (String.eqb _ _); [|done].
  destruct (chat _); [apply matrix_respond_evolves|done].
Qed.

Lemma matrix_onToolCall_evolves h tc w : evolves w (onToolCall h tc w).
Proof.
  unfold onToolCall. etrans.
  - apply (evolves_foldl (on_call_now h tc)). intros. apply matrix_on_call_now_evolves.
  - apply (evolves_foldl (on_call_later tc)). intros. apply matrix_on_call_later_evolves.
Qed.

Lemma matrix_onSubmit_evolves r c v w : evolves w (onSubmit r c v w).
Proof.
  unfold onSubmit. cbv zeta.
  apply (matrix_setData_evolves (fun data => default data (Matrix.updateMatrixBlock data _ _ _ _ _))).
  intros m. destruct (Matrix.updateMatrixBlock _ _ _ _ _ _) eqn:E; [|done].
  simpl. by eapply updateMatrixBlock_grows.
Qed.

Lemma evolves_coherent w w' : coherent w -> evolves w w' -> coherent w'.
Proof.
  intros (Hd & Hs & Hp) (Hp' & Hgd & Hgs & Hdi & Hsi & Hde & Hse).
  split; [by apply Hgd|]. split; [by apply Hgs|]. rewrite Hp'.
  destruct (pending w) as [p|]; [|done].
  destruct Hp as (scid & cid & did & sid & d & s & -> & Hd1 & Hs1 & Hle1 & Hle2 & He1 & He2).
  exists scid, cid, did, sid, d, s. split; [done|]. split; [done|]. split; [done|].
  split; [lia|]. split; [lia|]. split.
  - intros ->. rewrite Hde by lia. apply He1. lia.
  - intros ->. rewrite Hse by lia. apply He2. lia.
Qed.

Lemma matrix_perform_state acts : forall w,
  data (foldl perform w acts) = data w /\
  cellStyles (foldl perform w acts) = cellStyles w /\
  data_id (foldl perform w acts) = data_id w /\
  cellStyles_id (foldl perform w acts) = cellStyles_id w /\
  pending (foldl perform w acts) = pending w.
Proof.
  induction acts as [|a acts IH]; intros w; [done|].
  simpl. destruct (IH (perform w a)) as (-> & -> & -> & -> & ->). by destruct a.
Qed.

Lemma matrix_effects_eq ctx w :
  effects ctx w
  = [setup (setConfig_id ctx);
     subscription (client_id ctx) (data_id w) (cellStyles_id w)
                  (OnToolCall (data w) (cellStyles w))].
Proof. done. Qed.

(** The effects that are pending after a render, when the component was
    coherent: the subscription is the one of this render, or the previous
    one when the identities it depends on are those of this render. *)
Lemma matrix_commit_coherent ctx w :
  coherent w ->
  exists scid cid,
    (React.commit (pending w) (effects ctx w)).2
    = [setup scid;
       subscription cid (data_id w) (cellStyles_id w)
                    (OnToolCall (data w) (cellStyles w))].
Proof.
  intros (Hd & Hs & Hp). rewrite matrix_effects_eq.
  destruct (pending w) as [p|].
  - destruct Hp as (scid & cid & did & sid & d & s & -> & Hd1 & Hs1 & Hle1 & Hle2 & He1 & He2).
    unfold React.commit, React.retained. cbn [zip zip_with fmap list_fmap snd].
    unfold React.changed. cbn [React.deps setup subscription].
    exists (if bool_decide ([scid] <> [setConfig_id ctx]) then setConfig_id ctx else scid).
    destruct (bool_decide ([scid] <> [setConfig_id ctx]));
    destruct (bool_decide ([cid; did; sid] <> _)) eqn:E;
      try (by exists (client_id ctx)).
    all: apply bool_decide_eq_false in E;
      destruct (decide ([cid; did; sid] = [client_id ctx; data_id w; cellStyles_id w]))
        as [Heq|Hne]; [|done];
      injection Heq as -> -> ->; rewrite He1, He2 by done;
      by exists (client_id ctx).
  - by exists (setConfig_id ctx), (client_id ctx).
Qed.

Lemma matrix_step_render_state w ctx :
  data (step w (Render ctx)) = data w /\
  cellStyles (step w (Render ctx)) = cellStyles w /\
  data_id (step w (Render ctx)) = data_id w /\
  cellStyles_id (step w (Render ctx)) = cellStyles_id w /\
  pending (step w (Render ctx)) = Some (React.commit (pending w) (effects ctx w)).2.
Proof.
  cbn [step]. destruct (React.commit _ _) as [acts p']. simpl.
  destruct (matrix_perform_state acts w) as (-> & -> & -> & -> & _). done.
Qed.

Lemma matrix_step_coherent w e : coherent w -> coherent (step w e).
Proof.
  intros Hw. destruct e as [ctx| |tc|r c|r c v|dt].
  - destruct (matrix_step_render_state w ctx) as (Hd & Hs & Hdi & Hsi & Hp).
    destruct (matrix_commit_coherent ctx w Hw) as (scid & cid & Hc).
    destruct Hw as (Hgd & Hgs & _).
    unfold coherent. rewrite Hd, Hs, Hdi, Hsi, Hp, Hc.
    split; [done|]. split; [done|].
    by exists scid, cid, (data_id w), (cellStyles_id w), (data w), (cellStyles w).
  - cbn [step]. destruct (pending w) as [p|] eqn:Hp; [|done].
    destruct (matrix_perform_state (React.unmount p) w) as (Hd & Hs & _).
    destruct Hw as (Hgd & Hgs & _). unfold coherent. simpl. by rewrite Hd, Hs.
  - cbn [step]. destruct (pending w) as [p|] eqn:Hp; [|done].
    eapply evolves_coherent; [exact Hw|].
    apply (evolves_foldl (fun w h => onToolCall h tc w)). intros. apply matrix_onToolCall_evolves.
  - eapply evolves_coherent; [exact Hw|]. evolves_same.
  - eapply evolves_coherent; [exact Hw|]. apply matrix_onSubmit_evolves.
  - eapply evolves_coherent; [exact Hw|]. cbn [step].
    destruct (Timers.elapse _ _). evolves_same.
Qed.

Lemma matrix_run_coherent es : forall w, coherent w -> coherent (run w es).
Proof.
  induction es as [|e es IH]; intros w Hw; [done|].
  simpl. apply IH. by apply matrix_step_coherent.
Qed.

Lemma matrix_initial_coherent (c : C) : coherent (initial c).
Proof.
  split; [|split; [|done]]; apply square_grid;
    apply (newMatrix_square 10).
Qed.

(** X15: whatever happens to the component, [data] and [cellStyles] keep
    ten rows each, and no row gets shorter than ten cells: a row of the
    table always finds its row of styles. *)
Theorem matrix_grid_kept (c : C) (es : list event) :
  grid 10 (data (run (initial c) es)) /\
  grid 10 (cellStyles (run (initial c) es)).
Proof.
  destruct (matrix_run_coherent es (initial c) (matrix_initial_coherent c)) as (Hd & Hs & _).
  done.
Qed.

End MatrixState.

Ltac eval_names :=
  repeat match goal with
         | |- context [String.eqb ?a ?b] =>
             let v := eval vm_compute in (String.eqb a b) in
             change (String.eqb a b) with v
         end.

Section MatrixAnswers.
Import Any LiveApi Helpers Component Js GeminiMatrix GeminiMatrixState.
Context {C : Type} `{!Host} `{!LiveClient handler C}.
Implicit Types (w : world C).
Local Open Scope Z_scope.

Lemma matrix_on_call_now_loop h tc w w' fc :
  loop w = loop w' ->
  loop (on_call_now h tc w fc) = loop (on_call_now h tc w' fc).
Proof.
  intros Hl. unfold on_call_now. destruct h as [d s]. cbv zeta.
  repeat (destruct (String.eqb _ _); [try done|]); try done.
  - simpl. by rewrite Hl.
  - destruct (mapM _ _); [|done]. simpl. by rewrite Hl.
  - destruct (Matrix.selectMatrixBlock _ _ _ _ _); [|done]. simpl. by rewrite Hl.
  - destruct (Matrix.selectMatrixBlock _ _ _ _ _); [|done]. simpl. by rewrite Hl.
Qed.

Lemma matrix_on_call_later_loop tc w w' fc :
  loop w = loop w' ->
  loop (on_call_later tc w fc) = loop (on_call_later tc w' fc).
Proof.
  intros Hl. unfold on_call_later. destruct (String.eqb _ _); [|done].
  destruct (chat _); [|done]. simpl. by rewrite Hl.
Qed.

Lemma matrix_foldl_loop {X} (f : world C -> X -> world C) (xs : list X) :
  (forall w w' x, loop w = loop w' -> loop (f w x) = loop (f w' x)) ->
  forall w w', loop w = loop w' -> loop (foldl f w xs) = loop (foldl f w' xs).
Proof.
  intros Hf. induction xs as [|x xs IH]; intros w w' Hl; [done|].
  simpl. by apply IH, Hf.
Qed.

(** X17: the responses that a batch queues are computed from what the
    handler holds and from the batch; the state of the component when
    the handler runs, and what the batch itself sets, play no part. *)
Theorem matrix_answers_from_captured_state h tc w w' :
  loop w = loop w' ->
  loop (onToolCall h tc w) = loop (onToolCall h tc w').
Proof.
  intros Hl. unfold onToolCall.
  apply (matrix_foldl_loop (on_call_later tc)); [intros; by apply matrix_on_call_later_loop|].
  apply (matrix_foldl_loop (on_call_now h tc)); [intros; by apply matrix_on_call_now_loop|done].
Qed.

(** X18: submitting the edit of a cell that the table shows replaces that
    cell and no other, and leaves the edit mode. *)
Theorem matrix_submit_sets_cell (rowIndex colIndex : nat) (newValue : string)
    (r : Matrix.row string) w :
  data w !! rowIndex = Some r ->
  (colIndex < length r)%nat ->
  data (onSubmit rowIndex colIndex newValue w)
  = <[rowIndex := <[colIndex := Val newValue]> r]> (data w) /\
  editCell (onSubmit rowIndex colIndex newValue w) = None.
Proof.
  intros Hr Hc. split; [|done].
  unfold onSubmit. cbv zeta. cbn [data setData setEditCell].
  unfold Matrix.updateMatrixBlock. cbv zeta.
  rewrite !resolve_index_nonneg by lia.
  unfold loop_range.
  replace (Z.of_nat rowIndex + 1 - Z.of_nat rowIndex) with 1 by lia.
  replace (Z.of_nat colIndex + 1 - Z.of_nat colIndex) with 1 by lia.
  assert (Hseq : forall k, seqZ k 1 = [k]).
  { intros k. rewrite seqZ_cons by lia. by rewrite seqZ_nil by lia. }
  rewrite !Hseq. cbn [for_each].
  unfold Matrix.assign_cell, index_row.
  destruct (Z.ltb_spec (Z.of_nat rowIndex) 0); [lia|].
  rewrite Nat2Z.id, Hr. simpl.
  unfold assign. destruct (Z.ltb_spec (Z.of_nat colIndex) 0); [lia|].
  rewrite Nat2Z.id. cbv zeta.
  destruct (Nat.ltb_spec colIndex (length r)); [done|lia].
Qed.

(** X19: a batch with the one invocation of [getDataBlock] or
    [getStyleBlock] whose block has a row and a column and ends past the
    tenth row leaves the component as it is: no response is queued. *)
Theorem matrix_read_past_last_row_unanswered (c : C) (es : list event)
    (fc : FunctionCall Args) :
  name fc = Config.name getDataBlockDecl \/ name fc = Config.name getStyleBlockDecl ->
  0 <= startRow (args fc) < endRow (args fc) ->
  10 < endRow (args fc) ->
  0 <= startCol (args fc) < endCol (args fc) ->
  step (run (initial c) es) (ToolCallEvent (mkToolCall [fc])) = run (initial c) es.
Proof.
  intros Hn Hr He Hc.
  pose proof (matrix_run_coherent es (initial c) (matrix_initial_coherent c)) as (_ & _ & Hp).
  set (w := run (initial c) es) in *. cbn [step].
  destruct (pending w) as [p|]; [|done].
  destruct Hp as (scid & cid & did & sid & d & s & -> & [Hd _] & [Hs _] & _).
  cbn [subscribed mbind list_bind omap list_omap React.run subscription setup app foldl].
  unfold onToolCall. cbn [functionCalls foldl].
  assert (Hnow : on_call_now (OnToolCall d s) (mkToolCall [fc]) w fc = w).
  { unfold on_call_now. cbv zeta.
    destruct Hn as [-> | ->]; eval_names; cbv iota.
    - by rewrite (selectMatrixBlock_past_last_row 10 d) by (done || lia).
    - by rewrite (selectMatrixBlock_past_last_row 10 s) by (done || lia). }
  rewrite Hnow. unfold on_call_later.
  destruct Hn as [-> | ->]; by eval_names.
Qed.
End MatrixAnswers.

(** ** Subscriptions *)

Section SubscriptionCalls.
Context {H Args : Type}.
Import Any LiveApi Helpers.
Implicit Types (log : list (client_call H)).

Lemma subscription_calls_app log1 log2 :
  subscription_calls (log1 ++ log2) = subscription_calls log1 ++ subscription_calls log2.
Proof. apply omap_app. Qed.

Lemma subscription_calls_callbacks (cbs : list (callback Args)) : forall log,
  subscription_calls (run_callbacks cbs log) = subscription_calls log.
Proof.
  induction cbs as [|cb cbs IH]; intros log; [done|].
  simpl. rewrite IH. destruct cb; simpl.
  all: rewrite subscription_calls_app; simpl; by rewrite (right_id [] app).
Qed.

Lemma on_off_snoc (hs : list H) (h : H) :
  on_off (hs ++ [h]) = on_off hs ++ [(true, h); (false, h)].
Proof. unfold on_off. by rewrite bind_app. Qed.
End SubscriptionCalls.

Section MatrixSubscriptions.
Import Any LiveApi Helpers Component GeminiMatrix GeminiMatrixState.
Context `{!Host}.
Implicit Types (w : world (list (client_call handler))).

Lemma matrix_perform_log acts : forall w,
  client (foldl perform w acts) = client w ++ calls_of acts.
Proof.
  induction acts as [|a acts IH]; intros w; [by rewrite (right_id [] app)|].
  simpl. rewrite IH. destruct a; simpl; by rewrite <- ?app_assoc.
Qed.

Lemma matrix_step_balanced w e :
  coherent w -> balanced w -> balanced (step w e).
Proof.
  intros (_ & _ & Hp) [hs Hb]. destruct e as [ctx| |tc|r c|r c v|dt].
  - unfold balanced. cbn [step].
    destruct (React.commit (pending w) (effects ctx w)) as [acts p'] eqn:Hc.
    cbn [with_pending client pending]. rewrite matrix_perform_log.
    rewrite subscription_calls_app, Hb. rewrite matrix_effects_eq in Hc.
    destruct (pending w) as [p|].
    + destruct Hp as (scid & cid & did & sid & d & s & -> & _).
      unfold React.commit, React.rerun, React.retained in Hc.
      cbn [zip zip_with fmap list_fmap mbind list_bind] in Hc.
      unfold React.changed in Hc. cbn [React.deps setup subscription] in Hc.
      destruct (bool_decide ([scid] <> [setConfig_id ctx]));
      destruct (bool_decide ([cid; did; sid] <> _));
        injection Hc as <- <-; simpl.
      * exists (hs ++ [OnToolCall d s]). rewrite on_off_snoc.
        by rewrite <- !(assoc_L (++)).
      * exists hs. by rewrite (right_id [] app).
      * exists (hs ++ [OnToolCall d s]). rewrite on_off_snoc.
        by rewrite <- !(assoc_L (++)).
      * exists hs. by rewrite (right_id [] app).
    + injection Hc as <- <-. exists hs. simpl. by rewrite (right_id [] app).
  - unfold balanced. cbn [step]. destruct (pending w) as [p|] eqn:Hpw.
    + destruct Hp as (scid & cid & did & sid & d & s & -> & _).
      cbn [with_pending client pending]. rewrite matrix_perform_log.
      rewrite subscription_calls_app, Hb. simpl.
      exists (hs ++ [OnToolCall d s]). rewrite on_off_snoc.
      by rewrite (right_id [] app), <- (assoc_L (++)).
    + exists hs. by rewrite Hpw.
  - unfold balanced. cbn [step]. destruct (pending w) as [p|] eqn:Hpw.
    + destruct (GeminiMatrixFacts.matrix_dispatch_frame tc (subscribed p) w) as (-> & _ & ->).
      exists hs. by rewrite Hpw.
    + exists hs. by rewrite Hpw.
  - by exists hs.
  - by exists hs.
  - unfold balanced. cbn [step]. destruct (Timers.elapse _ _) as [fired l'].
    cbn [client pending]. rewrite subscription_calls_callbacks. by exists hs.
Qed.

Lemma matrix_run_balanced es : forall w,
  coherent w -> balanced w -> coherent (run w es) /\ balanced (run w es).
Proof.
  induction es as [|e es IH]; intros w Hc Hb; [done|].
  simpl. apply IH; [by apply matrix_step_coherent|by apply matrix_step_balanced].
Qed.

(** X20: the calls of [client.on] and [client.off] that GeminiMatrix
    makes alternate: every handler that was subscribed was unsubscribed
    before the next was subscribed, except the one of the last render
    while the component is mounted, so that at most one handler is
    subscribed at any time. *)
Theorem matrix_subscriptions_balanced (es : list event) :
  let w := run (initial ([] : list (client_call handler))) es in
  exists hs,
    subscription_calls (client w)
    = on_off hs ++ ((fun h => (true, h)) <$> from_option subscribed [] (pending w)) /\
    (length (from_option subscribed [] (pending w)) <= 1)%nat.
Proof.
  intros w. destruct (matrix_run_balanced es (initial []) (matrix_initial_coherent _)) as [Hc [hs Hb]].
  { by exists []. }
  exists hs. split; [done|]. fold w in Hc. destruct Hc as (_ & _ & Hp).
  destruct (pending w) as [p|]; [|simpl; lia].
  destruct Hp as (scid & cid & did & sid & d & s & -> & _). done.
Qed.
End MatrixSubscriptions.

Section MementoSubscriptions.
Import Any LiveApi Helpers Component Memento MementoState.
Context {FS : Type} `{!FileSystem FS}.
Implicit Types (w : world FS (list (client_call handler))).

Lemma memento_perform_log acts : forall w,
  client (foldl perform w acts) = client w ++ calls_of acts /\
  pending (foldl perform w acts) = pending w.
Proof.
  induction acts as [|a acts IH]; intros w; [by rewrite (right_id [] app)|].
  simpl. destruct (IH (perform w a)) as [-> ->].
  destruct a; simpl; by rewrite <- ?app_assoc.
Qed.

Lemma on_off_replicate_S (n : nat) (h : handler) :
  on_off (replicate (S n) h) = on_off (replicate n h) ++ [(true, h); (false, h)].
Proof.
  replace (replicate (S n) h) with (replicate n h ++ [h]); [apply on_off_snoc|].
  induction n as [|n IH]; [done|]. simpl. by rewrite IH.
Qed.

Lemma memento_step_balanced w e :
  mounted w -> balanced w -> mounted (step w e) /\ balanced (step w e).
Proof.
  intros Hp [n Hb]. destruct e as [ctx| |tc|dt].
  - unfold balanced, mounted. cbn [step].
    destruct (React.commit (pending w) (effects ctx)) as [acts p'] eqn:Hc.
    destruct (memento_perform_log acts w) as [Hcl _].
    cbn [client pending]. rewrite Hcl, subscription_calls_app, Hb.
    unfold mounted in Hp. destruct (pending w) as [p|].
    + destruct Hp as (scid & cid & ->).
      unfold React.commit, React.rerun, React.retained, effects in Hc.
      cbn [zip zip_with fmap list_fmap mbind list_bind] in Hc.
      unfold React.changed in Hc. cbn [React.deps setup subscription] in Hc.
      destruct (bool_decide ([scid] <> [setConfig_id ctx]));
      destruct (bool_decide ([cid] <> [client_id ctx]));
        injection Hc as <- <-; simpl.
      * split; [by eexists _, _|]. exists (S n). rewrite on_off_replicate_S.
        by rewrite <- !(assoc_L (++)).
      * split; [by eexists _, _|]. exists n. by rewrite (right_id [] app).
      * split; [by eexists _, _|]. exists (S n). rewrite on_off_replicate_S.
        by rewrite <- !(assoc_L (++)).
      * split; [by eexists _, _|]. exists n. by rewrite (right_id [] app).
    + injection Hc as <- <-. split; [by eexists _, _|].
      exists n. simpl. by rewrite (right_id [] app).
  - unfold balanced, mounted in *. cbn [step]. destruct (pending w) as [p|] eqn:Hpw.
    + destruct Hp as (scid & cid & ->).
      destruct (memento_perform_log (React.unmount [setup scid; subscription cid]) w)
        as [Hcl _].
      cbn [client pending]. rewrite Hcl, subscription_calls_app, Hb. simpl.
      split; [done|]. exists (S n). rewrite on_off_replicate_S.
      by rewrite (right_id [] app), <- (assoc_L (++)).
    + rewrite Hpw. split; [done|]. by exists n.
  - unfold balanced, mounted in *. cbn [step]. destruct (pending w) as [p|] eqn:Hpw.
    + destruct (MementoFacts.memento_onToolCall_frame tc w) as (-> & _ & ->).
      rewrite Hpw. split; [done|]. by exists n.
    + rewrite Hpw. split; [done|]. by exists n.
  - unfold balanced, mounted in *. cbn [step]. destruct (Timers.elapse _ _) as [fired l'].
    cbn [client pending]. rewrite subscription_calls_callbacks. split; [done|]. by exists n.
Qed.

Lemma memento_run_balanced es : forall w,
  mounted w -> balanced w -> mounted (run w es) /\ balanced (run w es).
Proof.
  induction es as [|e es IH]; intros w Hc Hb; [done|].
  simpl. destruct (memento_step_balanced w e Hc Hb) as [??]. by apply IH.
Qed.

(** X14: the calls of [client.on] and [client.off] that Memento makes
    alternate, whatever happens to the component: the handler is
    unsubscribed before it is subscribed again, and is subscribed once
    while the component is mounted and not at all after an unmount. *)
Theorem memento_subscriptions_balanced (fs : FS) (es : list event) :
  let w := run (initial fs ([] : list (client_call handler))) es in
  exists n : nat,
    subscription_calls (client w)
    = on_off (replicate n OnToolCall)
      ++ match pending w with Some _ => [(true, OnToolCall)] | None => [] end.
Proof.
  intros w. destruct (memento_run_balanced es (initial fs [])) as [_ Hb]; [done| |done].
  by exists 0%nat.
Qed.
End MementoSubscriptions.


(** ** The responses of GeminiMatrix to a batch *)

Section MatrixBatch.
Context {C : Type} `{!GeminiMatrix.Host}.
Import Any LiveApi Helpers Batch GeminiMatrix GeminiMatrixState.
Implicit Types (w : world C) (tc : ToolCall Args).



End MatrixBatch.



(** ** The properties at concrete inputs *)

Section Instances.
Import Js Matrix.
Local Open Scope Z_scope.

Lemma newMatrix_filled_witness :
  (0 <= 1 < 2 /\ 0 <= 0 < 2) /\ cell (newMatrix 2 (Val 7)) 1 0 = Val 7.
Proof.
  split; [lia|]. apply (proj2 (newMatrix_filled 2 (Val 7))); lia.
Defined.

Lemma updateMatrixBlock_fills_witness :
  square 3 Examples.matrix3 /\
  exists m',
    updateMatrixBlock Examples.matrix3 1 1 2 3 (Val 0) = Some m' /\
    square 3 m' /\
    forall i j, cell m' i j
                = if decide (1 <= i < 2 /\ 1 <= j < 3) then Val 0
                  else cell Examples.matrix3 i j.
Proof.
  assert (H : square 3 Examples.matrix3) by (split; [reflexivity|repeat constructor]).
  split; [exact H|].
  apply (updateMatrixBlock_fills 3 Examples.matrix3 1 1 2 3 (Val 0) H); lia.
Defined.


Lemma setMatrixBlock_clipped_witness :
  square 3 Examples.matrix3 /\
  rect 2 2 [[Val 0; Val 0]; [Val 0; Val 0]] /\
  square 3 (setMatrixBlock Examples.matrix3 2 0 [[Val 0; Val 0]; [Val 0; Val 0]]).
Proof.
  assert (H : square 3 Examples.matrix3) by (split; [reflexivity|repeat constructor]).
  assert (Hv : rect 2 2 [[Val 0; Val 0]; [Val 0; Val 0]])
    by (split; [reflexivity|repeat constructor]).
  split; [exact H|]. split; [exact Hv|].
  apply (proj1 (setMatrixBlock_clipped 3 2 2 Examples.matrix3 _ 2 0 H Hv
                  ltac:(lia) ltac:(lia) ltac:(lia))).
Defined.


Lemma selectMatrixBlock_setMatrixBlock_witness :
  selectMatrixBlock
    (setMatrixBlock Examples.matrix3 1 1 [[Val 0; Val 0]; [Val 0; Val 0]])
    1 1 (1 + 2) (1 + 2)
  = Some [[Val 0; Val 0]; [Val 0; Val 0]].
Proof.
  apply (selectMatrixBlock_setMatrixBlock 3 2 2 Examples.matrix3
           [[Val 0; Val 0]; [Val 0; Val 0]] 1 1).
  - split; [reflexivity|repeat constructor].
  - split; [reflexivity|repeat constructor].
  - repeat constructor.
  - lia.
  - lia.
  - lia.
  - lia.
Defined.

Lemma setMatrixBlock_selectMatrixBlock_witness :
  selectMatrixBlock Examples.matrix3 0 0 2 2
  = Some [[Val 1; Val 2]; [Val 4; Val 5]] /\
  setMatrixBlock Examples.matrix3 0 0 [[Val 1; Val 2]; [Val 4; Val 5]]
  = Examples.matrix3.
Proof.
  assert (H : selectMatrixBlock Examples.matrix3 0 0 2 2
              = Some [[Val 1; Val 2]; [Val 4; Val 5]]) by reflexivity.
  split; [exact H|].
  apply (setMatrixBlock_selectMatrixBlock 3 Examples.matrix3 0 0 2 2 _
           ltac:(split; [reflexivity|repeat constructor])
           ltac:(lia) ltac:(lia) ltac:(lia) ltac:(lia) H).
Defined.


End Instances.

Section ComponentInstances.
Import Any LiveApi Helpers.

Lemma memento_responses_answer_whole_batch_witness :
  let w := Memento.step (Memento.initial tt ([] : list (client_call Memento.handler)))
             (Memento.Render Examples.ctx0) in
  exists later : list any,
    Memento.client
      (Memento.run w [Memento.ToolCallEvent Examples.mixed_batch;
                      Memento.Elapse delay_ms])
    = Memento.client w
      ++ Batch.batch_frames Examples.mixed_batch
           (replicate (count_if MementoState.is_render_html
                         (functionCalls Examples.mixed_batch))
                      Memento.success ++ later) /\
    (length later
     <= count_if MementoState.is_file_call (functionCalls Examples.mixed_batch))%nat.
Proof.
  intros w.
  apply (memento_responses_answer_whole_batch w Examples.mixed_batch).
  - by eexists.
  - reflexivity.
Defined.

Lemma matrix_answers_from_captured_state_witness :
  let tc := mkToolCall
              [mkFunctionCall "a" (Config.name GeminiMatrix.getDataBlockDecl)
                 (GeminiMatrix.mkArgs EmptyString 0 0 1 1 [])] in
  let h := GeminiMatrix.OnToolCall [[Js.Val "x"]] [] in
  let w := GeminiMatrix.initial ([] : list (client_call GeminiMatrix.handler)) in
  let w' := GeminiMatrix.setData (fun _ => []) w in
  GeminiMatrix.loop (GeminiMatrix.onToolCall h tc w)
  = GeminiMatrix.loop (GeminiMatrix.onToolCall h tc w').
Proof.
  intros tc h w w'.
  apply (matrix_answers_from_captured_state h tc w w'). reflexivity.
Defined.



Lemma matrix_submit_sets_cell_witness :
  let w := GeminiMatrix.initial ([] : list (client_call GeminiMatrix.handler)) in
  let r := replicate 10 (Js.Val EmptyString) in
  GeminiMatrix.data (GeminiMatrix.onSubmit 1 2 "a" w)
  = <[1%nat := <[2%nat := Js.Val "a"]> r]> (GeminiMatrix.data w) /\
  GeminiMatrix.editCell (GeminiMatrix.onSubmit 1 2 "a" w) = None.
Proof.
  intros w r.
  apply (matrix_submit_sets_cell 1 2 "a" r w).
  - reflexivity.
  - vm_compute. lia.
Defined.

Lemma matrix_read_past_last_row_unanswered_witness :
  let fc := mkFunctionCall "a" (Config.name GeminiMatrix.getDataBlockDecl)
              (GeminiMatrix.mkArgs EmptyString 0 0 11 1 []) in
  let w := GeminiMatrix.run
             (GeminiMatrix.initial ([] : list (client_call GeminiMatrix.handler)))
             [GeminiMatrix.Render Examples.ctx0] in
  GeminiMatrix.step w (GeminiMatrix.ToolCallEvent (mkToolCall [fc])) = w.
Proof.
  intros fc w.
  apply (matrix_read_past_last_row_unanswered [] [GeminiMatrix.Render Examples.ctx0] fc).
  - by left.
  - simpl. lia.
  - simpl. lia.
  - simpl. lia.
Defined.

End ComponentInstances.
